(** * Sixpence: a toy ledger as a chain of hashed blocks

    Shallow embedding of [main.cpp] and the properties of its ledger
    engine.  Unsigned 32-bit values are integers of [Z] with the
    wrap-around written out; the global [blockVector] and the static
    [blockCounter] of [generateBlock] form the explicit state [Ledger].
    What the program takes from outside, the clock and the bytes of
    uninitialised locals, is passed to the functions that read it.  A
    [Block] is laid out as on the usual 64-bit little-endian targets:
    48 bytes, the last four of them padding. *)

From Stdlib Require Import ZArith List Bool Lia MSetPositive.
Import ListNotations.
Local Open Scope Z_scope.

(** ** Machine integers *)

Definition U32_MAX : Z := 4294967295.

(** Reduction of an arithmetic result to [unsigned]. *)
Definition wrap32 (x : Z) : Z := Z.land x U32_MAX.

(** [x] is a value of type [unsigned]. *)
Definition u32 (x : Z) : Prop := 0 <= x <= U32_MAX.

(** ** Data model (main.cpp, lines 10-56) *)

Inductive TransactionType : Type :=
| INVALID
| GENERATE
| TRANSFER
| RECEIPT.

Definition TransactionType_eqb (a b : TransactionType) : bool :=
  match a, b with
  | INVALID, INVALID | GENERATE, GENERATE
  | TRANSFER, TRANSFER | RECEIPT, RECEIPT => true
  | _, _ => false
  end.

(** The enumerators' values, as stored in the [int] under the enum. *)
Definition TransactionType_value (t : TransactionType) : Z :=
  match t with
  | INVALID => -1
  | GENERATE => 0
  | TRANSFER => 1
  | RECEIPT => 2
  end.

(** [union Transaction]: the tag followed by four 32-bit words which the
    members [blank], [transfer] and [receipt] overlay. *)
Record Transaction : Type := mkTransaction {
  type : TransactionType;
  word1 : Z;
  word2 : Z;
  word3 : Z;
  word4 : Z
}.

(** The [transfer] view of the union. *)
Definition senderAccount (t : Transaction) : Z := word1 t.
Definition receiverAccount (t : Transaction) : Z := word2 t.
Definition transfer_prevReceipt (t : Transaction) : Z := word3 t.
Definition amount (t : Transaction) : Z := word4 t.

(** The [receipt] view of the union. *)
Definition account (t : Transaction) : Z := word1 t.
Definition receipt_prevReceipt (t : Transaction) : Z := word2 t.
Definition prevTransfer (t : Transaction) : Z := word3 t.
Definition balance (t : Transaction) : Z := word4 t.

(** [struct Block].  [padding] is the four bytes which follow [threshold]
    in the 48-byte object (the struct is aligned on its 64-bit timestamp);
    they belong to the bytes that [hashBlock] hashes and are carried along
    when a block is copied. *)
Record Block : Type := mkBlock {
  index : Z;
  prevHash : Z;
  timestamp : Z;
  transaction : Transaction;
  nonce : Z;
  threshold : Z;
  padding : Z
}.

Definition set_nonce (b : Block) (n : Z) : Block :=
  mkBlock (index b) (prevHash b) (timestamp b) (transaction b)
          n (threshold b) (padding b).

Definition set_threshold (b : Block) (t : Z) : Block :=
  mkBlock (index b) (prevHash b) (timestamp b) (transaction b)
          (nonce b) t (padding b).

(** ** Byte image of a block *)

(** The [k]-th byte (little endian) of [x]. *)
Definition byte_of (x : Z) (k : Z) : Z := Z.land (Z.shiftr x (8 * k)) 255.

Definition le32 (x : Z) : list Z :=
  [byte_of x 0; byte_of x 1; byte_of x 2; byte_of x 3].

Definition le64 (x : Z) : list Z :=
  le32 x ++ [byte_of x 4; byte_of x 5; byte_of x 6; byte_of x 7].

Definition image_transaction (t : Transaction) : list Z :=
  le32 (TransactionType_value (type t))
    ++ le32 (word1 t) ++ le32 (word2 t) ++ le32 (word3 t) ++ le32 (word4 t).

(** The [sizeof(Block)] bytes that [hashBlock] passes to the digest. *)
Definition image (b : Block) : list Z :=
  le32 (index b) ++ le32 (prevHash b) ++ le64 (timestamp b)
    ++ image_transaction (transaction b)
    ++ le32 (nonce b) ++ le32 (threshold b) ++ le32 (padding b).

(** ** Digest (main.cpp, lines 68-75) *)

Definition fnv_step (h p : Z) : Z := wrap32 (Z.lxor h p * 16777619).

Definition fnv_hash_1a_32 (key : list Z) : Z :=
  fold_left fnv_step key 2166136261.

(** ** Miner (main.cpp, lines 199-208) *)

(** The [while] loop of [hashBlock]; [fuel] bounds the number of
    iterations, and [None] means that the bound was reached. *)
Fixpoint hashBlock_loop (fuel : nat) (block : Block) (threshold hash nonce : Z)
  : option (Z * Block) :=
  if hash >? threshold then
    match fuel with
    | O => None
    | S fuel' =>
        let block' := set_nonce block nonce in
        hashBlock_loop fuel' block' threshold
                       (fnv_hash_1a_32 (image block')) (wrap32 (nonce + 1))
    end
  else Some (hash, block).

Definition hashBlock (fuel : nat) (block : Block) (threshold : Z)
  : option (Z * Block) :=
  hashBlock_loop fuel (set_threshold block threshold) threshold U32_MAX 0.

(** ** Chain store *)

(** [blockVector] together with the static counter of [generateBlock]. *)
Record Ledger : Type := mkLedger {
  blockVector : list Block;
  blockCounter : Z
}.

(** The last element of a non-empty vector and what precedes it. *)
Fixpoint split_back {A : Type} (l : list A) : option (list A * A) :=
  match l with
  | [] => None
  | [x] => Some ([], x)
  | x :: l' =>
      match split_back l' with
      | Some (front, back) => Some (x :: front, back)
      | None => None
      end
  end.

Definition is_receipt_of (acct : Z) (b : Block) : bool :=
  TransactionType_eqb (type (transaction b)) RECEIPT
    && (account (transaction b) =? acct).

(** The reverse scan of lines 95-101 and 131-137: balance and index of the
    most recent receipt of [acct], or [(0, U32_MAX)]. *)
Definition latest_receipt (chain : list Block) (acct : Z) : Z * Z :=
  match find (is_receipt_of acct) (rev chain) with
  | Some b => (balance (transaction b), index b)
  | None => (0, U32_MAX)
  end.

(** ** Transaction builder (main.cpp, lines 77-187) *)

(** [{ TransactionType::INVALID }]: only the tag is meaningful; the
    payload of such a value is never read. *)
Definition invalid_transaction : Transaction := mkTransaction INVALID 0 0 0 0.

(** The 32-bit word that [memcpy] leaves at word [k] of the payload. *)
Definition blank_word (data : list Z) (k : nat) : Z :=
  nth (4 * k) data 0
  + 256 * nth (4 * k + 1) data 0
  + 65536 * nth (4 * k + 2) data 0
  + 16777216 * nth (4 * k + 3) data 0.

Definition generateBlank (data : list Z) : Transaction :=
  mkTransaction INVALID (blank_word data 0) (blank_word data 1)
                (blank_word data 2) (blank_word data 3).

Definition generateTransfer (chain : list Block) (sender receiver amount : Z)
  : Transaction :=
  if (sender =? receiver) || (receiver =? 0) then invalid_transaction
  else
    let '(balance, prevSenderReceipt) :=
      if negb (sender =? 0) then latest_receipt chain sender
      else (0, U32_MAX) in
    if negb (sender =? 0) && (balance <? amount) then invalid_transaction
    else
      mkTransaction (if sender =? 0 then GENERATE else TRANSFER)
                    sender receiver prevSenderReceipt amount.

Definition is_transfer (b : Block) : bool :=
  match type (transaction b) with
  | GENERATE | TRANSFER => true
  | _ => false
  end.

Definition generateReceipt (chain : list Block) (transferBlock : Block)
  : Transaction :=
  if negb (is_transfer transferBlock) then invalid_transaction
  else
    let '(balance, prevReceiverReceipt) :=
      latest_receipt chain (receiverAccount (transaction transferBlock)) in
    mkTransaction RECEIPT
                  (receiverAccount (transaction transferBlock))
                  prevReceiverReceipt
                  (index transferBlock)
                  (wrap32 (balance + amount (transaction transferBlock))).

(** The scan of lines 168-175: the [receipt.balance] word of the most
    recent block whose index is [i], or [U32_MAX]. *)
Definition balance_at (chain : list Block) (i : Z) : Z :=
  match find (fun b => index b =? i) (rev chain) with
  | Some b => balance (transaction b)
  | None => U32_MAX
  end.

Definition generateReturn (chain : list Block) (transferBlock receiptBlock : Block)
  : Transaction :=
  if negb (is_transfer transferBlock) then invalid_transaction
  else if negb (TransactionType_eqb (type (transaction receiptBlock)) RECEIPT)
  then invalid_transaction
  else if transfer_prevReceipt (transaction transferBlock) =? U32_MAX
  then invalid_transaction
  else
    let balance :=
      balance_at chain (transfer_prevReceipt (transaction transferBlock)) in
    mkTransaction RECEIPT
                  (senderAccount (transaction transferBlock))
                  (senderAccount (transaction transferBlock))
                  (index receiptBlock)
                  (wrap32 (balance - amount (transaction transferBlock))).

(** ** Block construction (main.cpp, lines 189-197) *)

(** What a call of [generateBlock] takes from outside the program: the
    bytes found in the uninitialised local [block] and the clock. *)
Record Ambient : Type := mkAmbient {
  garbage : Block;
  now : Z
}.

(** Returns the block and the new value of the counter. *)
Definition generateBlock (env : Ambient) (counter : Z)
           (transaction : Transaction) (prevHash : Z) : Block * Z :=
  (mkBlock counter prevHash (now env) transaction
           (nonce (garbage env)) (threshold (garbage env))
           (padding (garbage env)),
   wrap32 (counter + 1)).

(** ** Ledger engine (main.cpp, lines 210-237) *)

Definition threshold_const : Z := Z.shiftl 1 20.

Definition bind {A B : Type} (x : option A) (f : A -> option B) : option B :=
  match x with
  | Some a => f a
  | None => None
  end.

Notation "' p <- x ;; k" := (bind x (fun p => k))
  (at level 61, p pattern, x at next level, right associativity).

(** [sendAmount]: the result code and the ledger after the call.  [None]
    stands for a call without a result: [back()] of an empty vector, or a
    mining loop that exceeds [fuel].  The mining of the last block is
    written before [generateTransfer]; the order in which the two
    arguments are evaluated does not matter (see [generateTransfer_mined]). *)
Definition sendAmount (fuel : nat) (env1 env2 env3 : Ambient) (st : Ledger)
           (sender receiver amount : Z) : option (Z * Ledger) :=
  ' (front, back) <- split_back (blockVector st) ;;
  ' (hash0, back') <- hashBlock fuel back threshold_const ;;
  let chain := front ++ [back'] in
  let '(transfer, counter1) :=
    generateBlock env1 (blockCounter st)
                  (generateTransfer chain sender receiver amount) hash0 in
  if TransactionType_eqb (type (transaction transfer)) INVALID
  then Some (-1, mkLedger chain counter1)
  else
    ' (hash1, transfer') <- hashBlock fuel transfer threshold_const ;;
    let '(receipt, counter2) :=
      generateBlock env2 counter1 (generateReceipt chain transfer') hash1 in
    if TransactionType_eqb (type (transaction receipt)) INVALID
    then Some (-2, mkLedger chain counter2)
    else
      ' (hash2, receipt') <- hashBlock fuel receipt threshold_const ;;
      let '(ret, counter3) :=
        generateBlock env3 counter2
                      (generateReturn chain transfer' receipt') hash2 in
      let pushed := chain ++ [transfer'; receipt'] in
      if negb (TransactionType_eqb (type (transaction ret)) INVALID)
      then Some (0, mkLedger (pushed ++ [ret]) counter3)
      else Some (0, mkLedger pushed counter3).

(** The first statement of [main]: the genesis block. *)
Definition genesis (env : Ambient) (data : list Z) (seed : Z) : Ledger :=
  let '(block, counter) := generateBlock env 0 (generateBlank data) seed in
  mkLedger [block] counter.

(** One call of [sendAmount] with what it takes from outside. *)
Record Call : Type := mkCall {
  call_env1 : Ambient;
  call_env2 : Ambient;
  call_env3 : Ambient;
  call_sender : Z;
  call_receiver : Z;
  call_amount : Z
}.

(** A script of calls, as in [main]: the result codes and the final ledger. *)
Fixpoint run (fuel : nat) (st : Ledger) (calls : list Call)
  : option (list Z * Ledger) :=
  match calls with
  | [] => Some ([], st)
  | c :: calls' =>
      ' (code, st1) <- sendAmount fuel (call_env1 c) (call_env2 c) (call_env3 c)
                                  st (call_sender c) (call_receiver c)
                                  (call_amount c) ;;
      ' (codes, st2) <- run fuel st1 calls' ;;
      Some (code :: codes, st2)
  end.

(** The ledgers that [main]-like programs reach: [reachable k st] after the
    genesis block and [k] calls of [sendAmount] with 32-bit arguments. *)
Inductive reachable : nat -> Ledger -> Prop :=
| reachable_genesis env data seed :
    reachable 0 (genesis env data seed)
| reachable_send k st fuel env1 env2 env3 sender receiver amount code st' :
    reachable k st ->
    u32 sender -> u32 receiver -> u32 amount ->
    sendAmount fuel env1 env2 env3 st sender receiver amount = Some (code, st') ->
    reachable (S k) st'.

(** * Vocabulary of the properties *)

(** ** The digest undone *)

(** The inverse of the multiplier of [fnv_step] modulo [2^32]. *)
Definition fnv_unmul (y : Z) : Z := wrap32 (y * 899433627).

(** The state before a byte [p] was absorbed, from the state after it. *)
Definition fnv_unstep (y p : Z) : Z := Z.lxor (fnv_unmul y) p.

(** The state before the bytes [suffix] were absorbed. *)
Definition unfold_suffix (suffix : list Z) (d : Z) : Z :=
  fold_right (fun p y => fnv_unstep y p) d suffix.

(** The bytes of a block before its nonce. *)
Definition image_prefix (b : Block) : list Z :=
  le32 (index b) ++ le32 (prevHash b) ++ le64 (timestamp b)
    ++ image_transaction (transaction b).

(** The bytes after the nonce. *)
Definition image_suffix (b : Block) : list Z :=
  le32 (threshold b) ++ le32 (padding b).

(** The 256 values of a byte. *)
Definition all_bytes : list Z := map Z.of_nat (seq 0 256).

(** All of a digest state but its low eight bits, as a key of a set. *)
Definition high_bits (h : Z) : positive := Z.to_pos (Z.shiftr h 8 + 1).

(** The keys of the states which one byte reaches from [h0]. *)
Definition one_byte_from (h0 : Z) : PositiveSet.t :=
  fold_right (fun n0 s => PositiveSet.add (high_bits (fnv_step h0 n0)) s)
             PositiveSet.empty all_bytes.

(** Whether four nonce bytes lead the digest from state [h0] to state
    [target]: the last two bytes are undone from [target], the first
    byte is applied to [h0], and the second byte, which only changes the
    low eight bits, must bridge the two. *)
Definition nonce_reaches (h0 target : Z) : bool :=
  let reached := one_byte_from h0 in
  existsb
    (fun n3 =>
       let h3 := fnv_unstep target n3 in
       existsb
         (fun n2 =>
            PositiveSet.mem (high_bits (fnv_unmul (fnv_unstep h3 n2))) reached)
         all_bytes)
    all_bytes.

(** The state of the digest once the bytes before the nonce are absorbed. *)
Definition prefix_state (b : Block) : Z :=
  fold_left fnv_step (image_prefix b) 2166136261.

(** The 32-bit values up to [t]. *)
Definition up_to (t : Z) : list Z := map Z.of_nat (seq 0 (Z.to_nat t + 1)).

(** Whether no nonce at all gives [b], at threshold [t], a digest within
    [t]. *)
Definition never_accepted (b : Block) (t : Z) : bool :=
  forallb
    (fun d =>
       negb (nonce_reaches
               (prefix_state (set_threshold b t))
               (unfold_suffix (image_suffix (set_threshold b t)) d)))
    (up_to t).

(** The digest of [b] once [n] is written into its nonce. *)
Definition digest_at (b : Block) (n : Z) : Z :=
  fnv_hash_1a_32 (image (set_nonce b n)).

(** ** Mining and calls *)

(** What [sendAmount] relies on: [b'] is [b] mined at [threshold_const],
    with digest [h]. *)
Definition mined (b : Block) (h : Z) (b' : Block) : Prop :=
  exists n, u32 n
            /\ b' = set_nonce (set_threshold b threshold_const) n
            /\ h = fnv_hash_1a_32 (image b')
            /\ h <= threshold_const.

(** A block made by [generateBlock]. *)
Definition fresh_block (env : Ambient) (counter : Z) (t : Transaction)
           (prevHash : Z) : Block :=
  fst (generateBlock env counter t prevHash).

(** What a call of [sendAmount] that returns has done. *)
Inductive send_step (env1 env2 env3 : Ambient) (st : Ledger)
          (sender receiver amount : Z) : Z -> Ledger -> Prop :=
| send_rejected front back hash0 back' :
    blockVector st = front ++ [back] ->
    mined back hash0 back' ->
    type (generateTransfer (front ++ [back']) sender receiver amount)
    = INVALID ->
    send_step env1 env2 env3 st sender receiver amount (-1)
              (mkLedger (front ++ [back']) (wrap32 (blockCounter st + 1)))
| send_accepted front back hash0 back' hash1 transfer' hash2 receipt' ret :
    let chain := front ++ [back'] in
    let counter1 := wrap32 (blockCounter st + 1) in
    let counter2 := wrap32 (counter1 + 1) in
    blockVector st = front ++ [back] ->
    mined back hash0 back' ->
    type (generateTransfer chain sender receiver amount) <> INVALID ->
    mined (fresh_block env1 (blockCounter st)
                       (generateTransfer chain sender receiver amount) hash0)
          hash1 transfer' ->
    mined (fresh_block env2 counter1 (generateReceipt chain transfer') hash1)
          hash2 receipt' ->
    ret = fresh_block env3 counter2
                      (generateReturn chain transfer' receipt') hash2 ->
    send_step env1 env2 env3 st sender receiver amount 0
              (mkLedger
                 (chain ++ [transfer'; receipt']
                    ++ (if TransactionType_eqb (type (transaction ret)) INVALID
                        then [] else [ret]))
                 (wrap32 (counter2 + 1))).

(** ** Calls whose mining loops stop *)

(** [b'] is [b] mined at [threshold_const] with the first nonce, counting
    from 0, whose digest is within the threshold, and [h] is that
    digest. *)
Definition first_mined (b : Block) (h : Z) (b' : Block) : Prop :=
  exists n,
    u32 n
    /\ digest_at (set_threshold b threshold_const) n <= threshold_const
    /\ (forall m,
           0 <= m < n ->
           digest_at (set_threshold b threshold_const) m > threshold_const)
    /\ b' = set_nonce (set_threshold b threshold_const) n
    /\ h = fnv_hash_1a_32 (image b').

(** What a call of [sendAmount] does when every block which it passes to
    [hashBlock] has a nonce whose digest is within the threshold: it
    says which blocks these are and what is stored, without the loop of
    the miner. *)
Inductive send_first (env1 env2 env3 : Ambient) (st : Ledger)
          (sender receiver amount : Z) : Z -> Ledger -> Prop :=
| send_first_rejected front back hash0 back' :
    blockVector st = front ++ [back] ->
    first_mined back hash0 back' ->
    type (generateTransfer (front ++ [back']) sender receiver amount)
    = INVALID ->
    send_first env1 env2 env3 st sender receiver amount (-1)
               (mkLedger (front ++ [back']) (wrap32 (blockCounter st + 1)))
| send_first_accepted front back hash0 back' hash1 transfer' hash2 receipt'
                      ret :
    let chain := front ++ [back'] in
    let counter1 := wrap32 (blockCounter st + 1) in
    let counter2 := wrap32 (counter1 + 1) in
    blockVector st = front ++ [back] ->
    first_mined back hash0 back' ->
    type (generateTransfer chain sender receiver amount) <> INVALID ->
    first_mined (fresh_block env1 (blockCounter st)
                             (generateTransfer chain sender receiver amount)
                             hash0)
                hash1 transfer' ->
    first_mined (fresh_block env2 counter1 (generateReceipt chain transfer')
                             hash1)
                hash2 receipt' ->
    ret = fresh_block env3 counter2
                      (generateReturn chain transfer' receipt') hash2 ->
    send_first env1 env2 env3 st sender receiver amount 0
               (mkLedger
                  (chain ++ [transfer'; receipt']
                     ++ (if TransactionType_eqb (type (transaction ret)) INVALID
                         then [] else [ret]))
                  (wrap32 (counter2 + 1))).


(** ** Invariants of the chain *)

(** Every element is related to its successor. *)
Definition adjacent {A : Type} (R : A -> A -> Prop) (l : list A) : Prop :=
  forall i x y,
    nth_error l i = Some x -> nth_error l (S i) = Some y -> R x y.

(** Every block stores the digest of the block before it. *)
Definition linked (chain : list Block) : Prop :=
  adjacent (fun b c => prevHash c = fnv_hash_1a_32 (image b)) chain.

(** A receipt belongs to an account other than 0 and carries a 32-bit
    balance. *)
Definition receipt_ok (b : Block) : Prop :=
  type (transaction b) = RECEIPT ->
  account (transaction b) <> 0 /\ u32 (balance (transaction b)).

(** The digest of the block as stored is within its stored threshold. *)
Definition pow_ok (b : Block) : Prop :=
  fnv_hash_1a_32 (image b) <= threshold b.

(** Every block but the last one has been mined. *)
Definition pow_front (chain : list Block) : Prop :=
  exists front back, chain = front ++ [back] /\ Forall pow_ok front.

(** Strictly increasing, position by position. *)
Definition increasing (l : list Z) : Prop :=
  forall i j x y,
    (i < j)%nat -> nth_error l i = Some x -> nth_error l j = Some y -> x < y.

(** The indices stored in the chain, in chain order, relative to the
    counter [c]: they start with 0, increase strictly and are below [c]. *)
Definition indices_ok (l : list Z) (c : Z) : Prop :=
  nth_error l 0 = Some 0
  /\ increasing l
  /\ Forall (fun x => 0 <= x < c) l.

(** ** Concrete runs *)

(** Local variables whose bytes are all zero before they are assigned. *)
Definition zero_block : Block := mkBlock 0 0 0 invalid_transaction 0 0 0.

(** A clock reading, in ticks after 2021-01-01 00:00:00. *)
Definition at_tick (n : Z) : Ambient :=
  mkAmbient zero_block (1609459200000000000 + n).

(** A call with the clock readings of its three blocks. *)
Definition call (tick1 tick2 tick3 sender receiver amount : Z) : Call :=
  mkCall (at_tick tick1) (at_tick tick2) (at_tick tick3)
         sender receiver amount.

(** The sixteen characters [Kayne Ruse 2021!] of the literal of line 245. *)
Definition kayne : list Z :=
  [75; 97; 121; 110; 101; 32; 82; 117; 115; 101; 32; 50; 48; 50; 49; 33].

(** The ledger of [main] after line 245. *)
Definition main_genesis : Ledger := genesis (at_tick 1517) kayne 42.

(** The twelve calls of [main], lines 246-257.  The clock readings here
    and below are such that every mining loop of the run stops within
    eight iterations. *)
Definition main_calls : list Call :=
  [ call 1683 3381 3382 0 1 50;
    call 4251 4925 4926 0 1 50;
    call 6013 7541 7542 0 1 50;
    call 7881 7892 7893 0 1 50;
    call 7894 7895 7896 1 1 50;
    call 7897 7898 7899 1 1 50;
    call 7900 7901 7902 1 1 50;
    call 7903 7904 7905 1 1 50;
    call 8976 10745 13593 1 2 75;
    call 13990 14394 15466 1 2 75;
    call 15467 15468 15469 1 2 75;
    call 15470 15471 15472 1 2 75 ].

(** A mint of the largest amount, a mint to a second account and a
    transfer of one coin to the first. *)
Definition overflow_calls : list Call :=
  [ call 1915 2333 2334 0 1 4294967295;
    call 2447 2632 2633 0 2 1;
    call 3308 5123 6051 2 1 1 ].


(** A mint followed by a transfer that returns change. *)
Definition return_calls : list Call :=
  [ call 1683 3381 3382 0 1 50;
    call 3398 3970 5200 1 2 30 ].

(** The arguments of a call are 32-bit values. *)
Definition u32b (x : Z) : bool := (0 <=? x) && (x <=? U32_MAX).

Definition call_u32 (c : Call) : bool :=
  u32b (call_sender c) && u32b (call_receiver c) && u32b (call_amount c).

(** The ledger which [main] reaches after the given calls (the genesis
    ledger if they do not all return). *)
Definition state_after (calls : list Call) : Ledger :=
  match run 8 main_genesis calls with
  | Some (_, st) => st
  | None => main_genesis
  end.

(** The block at position [i] of the chain of [st]. *)
Definition block_at (st : Ledger) (i : nat) : Block :=
  nth i (blockVector st) zero_block.

(** The genesis block of [main] as the first call finds it. *)
Definition genesis_block : Block := block_at main_genesis 0.

(** A block whose nonce holds 7 before it is mined. *)
Definition stale_block : Block := set_nonce genesis_block 7.

(** The rejected call [sendAmount(1, 1, 50)] made right after the genesis
    block. *)
Definition reject_calls : list Call := [ call 1518 1519 1520 1 1 50 ].

(** The genesis block of [main] once a call has mined it. *)
Definition mined_genesis : Block :=
  Eval vm_compute in block_at (state_after reject_calls) 0.

(** The ledger of [main] after rejected calls only: the chain still holds
    the genesis block alone, and the counter has reached [c]. *)
Definition idle_ledger (c : Z) : Ledger := mkLedger [mined_genesis] c.

(** A mint and a transfer made when the counter has reached
    [U32_MAX - 1]. *)
Definition late_calls : list Call :=
  [ call 22259 22349 22350 0 1 50;
    call 25306 25465 25466 1 2 30 ].

Definition late_after (calls : list Call) : Ledger :=
  match run 8 (idle_ledger 4294967294) calls with
  | Some (_, st) => st
  | None => main_genesis
  end.

(** ** Bytes and fields *)

(** A value of type [unsigned char]. *)
Definition byte (p : Z) : Prop := 0 <= p < 256.

(** The fields of a block hold values of their C++ types: unsigned 32-bit
    words and, for the timestamp, the signed 64-bit tick count of
    [Clock::duration]. *)
Definition transaction_in_range (t : Transaction) : Prop :=
  u32 (word1 t) /\ u32 (word2 t) /\ u32 (word3 t) /\ u32 (word4 t).

Definition block_in_range (b : Block) : Prop :=
  u32 (index b) /\ u32 (prevHash b)
  /\ - 2 ^ 63 <= timestamp b < 2 ^ 63
  /\ transaction_in_range (transaction b)
  /\ u32 (nonce b) /\ u32 (threshold b) /\ u32 (padding b).

(** A block made one tick before the epoch of the clock. *)
Definition early_block : Block :=
  fst (generateBlock (mkAmbient zero_block (-1)) 0 invalid_transaction 42).

(** Two blocks that agree on every field but the nonce and the
    threshold. *)
Definition same_content (b c : Block) : Prop :=
  index b = index c /\ prevHash b = prevHash c
  /\ timestamp b = timestamp c /\ transaction b = transaction c
  /\ padding b = padding c.

(** ** The other order of evaluation *)

(** [sendAmount] with the arguments of each call of [generateBlock]
    evaluated from left to right: the transaction is built before the
    block it is chained to is mined, from the vector and from copies of
    the blocks as they are at that point. *)
Definition sendAmount_ltr (fuel : nat) (env1 env2 env3 : Ambient) (st : Ledger)
           (sender receiver amount : Z) : option (Z * Ledger) :=
  ' (front, back) <- split_back (blockVector st) ;;
  let transaction1 :=
    generateTransfer (blockVector st) sender receiver amount in
  ' (hash0, back') <- hashBlock fuel back threshold_const ;;
  let chain := front ++ [back'] in
  let '(transfer, counter1) :=
    generateBlock env1 (blockCounter st) transaction1 hash0 in
  if TransactionType_eqb (type (transaction transfer)) INVALID
  then Some (-1, mkLedger chain counter1)
  else
    let transaction2 := generateReceipt chain transfer in
    ' (hash1, transfer') <- hashBlock fuel transfer threshold_const ;;
    let '(receipt, counter2) :=
      generateBlock env2 counter1 transaction2 hash1 in
    if TransactionType_eqb (type (transaction receipt)) INVALID
    then Some (-2, mkLedger chain counter2)
    else
      let transaction3 := generateReturn chain transfer' receipt in
      ' (hash2, receipt') <- hashBlock fuel receipt threshold_const ;;
      let '(ret, counter3) :=
        generateBlock env3 counter2 transaction3 hash2 in
      let pushed := chain ++ [transfer'; receipt'] in
      if negb (TransactionType_eqb (type (transaction ret)) INVALID)
      then Some (0, mkLedger (pushed ++ [ret]) counter3)
      else Some (0, mkLedger pushed counter3).

(** ** Calls and what they store *)

(** The test of lines 85 and 104 on the ledger as a call finds it. *)
Definition rejects (st : Ledger) (sender receiver amount : Z) : bool :=
  (sender =? receiver) || (receiver =? 0)
  || (negb (sender =? 0)
      && (fst (latest_receipt (blockVector st) sender) <? amount)).

(** The number of blocks which an accepted call appends. *)
Definition pushed_blocks (st : Ledger) (sender : Z) : nat :=
  if (sender =? 0)
     || (snd (latest_receipt (blockVector st) sender) =? U32_MAX)
  then 2 else 3.

(** A block without what mining writes into it. *)
Definition unmined (b : Block) : Block := set_nonce (set_threshold b 0) 0.

(** A chain begins with a block tagged [INVALID], the genesis block, and
    holds no other block with that tag. *)
Definition kinds_ok (chain : list Block) : Prop :=
  match chain with
  | [] => False
  | g :: rest =>
      type (transaction g) = INVALID
      /\ Forall (fun b => type (transaction b) <> INVALID) rest
  end.

(** [P] holds of every block together with the part of the chain which
    precedes it. *)
Definition prefix_inv (P : list Block -> Block -> Prop) (chain : list Block)
  : Prop :=
  forall i b, nth_error chain i = Some b -> P (firstn i chain) b.

(** A transfer on the chain was covered by its sender's balance, and a
    mint has sender 0. *)
Definition transfer_covered (before : list Block) (b : Block) : Prop :=
  let t := transaction b in
  (type t = TRANSFER ->
   senderAccount t <> 0
   /\ amount t <= fst (latest_receipt before (senderAccount t)))
  /\ (type t = GENERATE -> senderAccount t = 0)
  /\ (type t = TRANSFER \/ type t = GENERATE ->
      receiverAccount t <> 0 /\ receiverAccount t <> senderAccount t
      /\ transfer_prevReceipt t
         = (if senderAccount t =? 0 then U32_MAX
            else snd (latest_receipt before (senderAccount t)))).

(** A receipt on the chain is stored right after a mint or a transfer,
    and credits its receiver, or it is stored right after such a receipt
    and returns the change to the sender. *)
Definition receipt_follows (before : list Block) (b : Block) : Prop :=
  let r := transaction b in
  type r = RECEIPT ->
  exists front prev,
    before = front ++ [prev]
    /\ prevTransfer r = index prev
    /\ ((is_transfer prev = true
         /\ account r = receiverAccount (transaction prev)
         /\ receipt_prevReceipt r = snd (latest_receipt front (account r))
         /\ balance r
            = wrap32 (fst (latest_receipt front (account r))
                      + amount (transaction prev)))
        \/ (type (transaction prev) = RECEIPT
            /\ exists front' transfer,
                front = front' ++ [transfer]
                /\ type (transaction transfer) = TRANSFER
                /\ account r = senderAccount (transaction transfer)
                /\ receipt_prevReceipt r = senderAccount (transaction transfer)
                /\ balance r
                   = wrap32 (balance_at front'
                                        (transfer_prevReceipt
                                           (transaction transfer))
                             - amount (transaction transfer)))).

(** ** What a block says *)

(** The index and the transaction of a block: what the scans of the
    transaction builder read, and what [main] prints of a block apart from
    the hash. *)
Definition content (b : Block) : Z * Transaction :=
  (index b, transaction b).

Definition ledger_content (st : Ledger) : list (Z * Transaction) * Z :=
  (map content (blockVector st), blockCounter st).

Definition call_args (c : Call) : Z * Z * Z :=
  (call_sender c, call_receiver c, call_amount c).

(** The hash stored in the first block is [seed], and the hashes stored in
    the other blocks are within the threshold of [sendAmount]. *)
Definition hashes_ok (seed : Z) (chain : list Block) : Prop :=
  match chain with
  | [] => False
  | g :: rest =>
      prevHash g = seed
      /\ Forall (fun b => 0 <= prevHash b <= threshold_const) rest
  end.

(** ** The program (main.cpp, lines 239-288) *)

(** The script of [main], lines 246-257, with what its 36 calls of
    [generateBlock] take from outside. *)
Definition main_script (env : nat -> Ambient) : list Call :=
  [ mkCall (env 1%nat) (env 2%nat) (env 3%nat) 0 1 50;
    mkCall (env 4%nat) (env 5%nat) (env 6%nat) 0 1 50;
    mkCall (env 7%nat) (env 8%nat) (env 9%nat) 0 1 50;
    mkCall (env 10%nat) (env 11%nat) (env 12%nat) 0 1 50;
    mkCall (env 13%nat) (env 14%nat) (env 15%nat) 1 1 50;
    mkCall (env 16%nat) (env 17%nat) (env 18%nat) 1 1 50;
    mkCall (env 19%nat) (env 20%nat) (env 21%nat) 1 1 50;
    mkCall (env 22%nat) (env 23%nat) (env 24%nat) 1 1 50;
    mkCall (env 25%nat) (env 26%nat) (env 27%nat) 1 2 75;
    mkCall (env 28%nat) (env 29%nat) (env 30%nat) 1 2 75;
    mkCall (env 31%nat) (env 32%nat) (env 33%nat) 1 2 75;
    mkCall (env 34%nat) (env 35%nat) (env 36%nat) 1 2 75 ].

(** What the [switch] of lines 264-284 writes for a transaction. *)
Inductive Text : Type :=
| text_invalid
| text_generate (receiver amount : Z)
| text_transfer (sender amount receiver : Z)
| text_receipt (account balance : Z).

Definition text (t : Transaction) : Text :=
  match type t with
  | INVALID => text_invalid
  | GENERATE => text_generate (receiverAccount t) (amount t)
  | TRANSFER => text_transfer (senderAccount t) (amount t) (receiverAccount t)
  | RECEIPT => text_receipt (account t) (balance t)
  end.

(** A line of the dump, lines 261-284: the index, the stored hash and the
    text. *)
Record Line : Type := mkLine {
  line_index : Z;
  line_prevHash : Z;
  line_text : Text
}.

Definition dump_line (b : Block) : Line :=
  mkLine (index b) (prevHash b) (text (transaction b)).

(** [main] from line 245 on: the lines of the dump, or [None] when a mining
    loop exceeds [fuel].  The three sizes written first are left out. *)
Definition main (fuel : nat) (env0 : Ambient) (env : nat -> Ambient)
  : option (list Line) :=
  ' (_, st) <- run fuel (genesis env0 kayne 42) (main_script env) ;;
  Some (map dump_line (blockVector st)).

(** The clock readings of [main_calls] as a clock. *)
Definition main_clock (n : nat) : Ambient :=
  at_tick (nth n [1517; 1683; 3381; 3382; 4251; 4925; 4926; 6013; 7541; 7542;
                  7881; 7892; 7893; 7894; 7895; 7896; 7897; 7898; 7899;
                  7900; 7901; 7902; 7903; 7904; 7905; 8976; 10745; 13593;
                  13990; 14394; 15466; 15467; 15468; 15469; 15470; 15471;
                  15472] 0).

(** A second run, at other clock readings: a mint and a transfer that
    returns change. *)
Definition other_genesis : Ledger := genesis (at_tick 100242) kayne 42.

Definition other_calls : list Call :=
  [ call 100475 100601 100602 0 1 50;
    call 100641 100763 101071 1 2 30 ].

Definition other_after (calls : list Call) : Ledger :=
  match run 8 other_genesis calls with
  | Some (_, st) => st
  | None => other_genesis
  end.

(** * Properties *)

(** ** Machine integers *)

Lemma wrap32_mod (x : Z) : wrap32 x = x mod 2 ^ 32.
Proof.
  unfold wrap32, U32_MAX.
  change 4294967295 with (Z.ones 32).
  apply Z.land_ones; lia.
Qed.

Lemma wrap32_u32 (x : Z) : u32 (wrap32 x).
Proof.
  rewrite wrap32_mod; unfold u32, U32_MAX.
  pose proof (Z.mod_pos_bound x (2 ^ 32)); lia.
Qed.

Lemma wrap32_small (x : Z) : u32 x -> wrap32 x = x.
Proof.
  unfold u32, U32_MAX; intros H.
  rewrite wrap32_mod; apply Z.mod_small; lia.
Qed.

(** ** The digest, byte by byte *)

Lemma lxor_u32 (a b : Z) : u32 a -> u32 b -> u32 (Z.lxor a b).
Proof.
  intros Ha Hb.
  assert (E : wrap32 (Z.lxor a b) = Z.lxor a b).
  { rewrite <- (wrap32_small a Ha) at 2; rewrite <- (wrap32_small b Hb) at 2.
    unfold wrap32; apply Z.bits_inj'; intros n _.
    rewrite Z.land_spec, !Z.lxor_spec, !Z.land_spec.
    destruct (Z.testbit a n), (Z.testbit b n), (Z.testbit U32_MAX n);
      reflexivity. }
  rewrite <- E; apply wrap32_u32.
Qed.

Lemma fnv_step_u32 (h p : Z) : u32 (fnv_step h p).
Proof. apply wrap32_u32. Qed.

Lemma fnv_fold_u32 (key : list Z) :
  forall h, u32 h -> u32 (fold_left fnv_step key h).
Proof.
  induction key as [|p key IH]; intros h Hh; [exact Hh|].
  apply IH, fnv_step_u32.
Qed.

(** Multiplication by the prime of the digest is undone by [fnv_unmul]:
    the two multipliers are inverses modulo [2^32]. *)
Lemma fnv_unmul_step (h p : Z) :
  u32 h -> 0 <= p < 256 -> fnv_unmul (fnv_step h p) = Z.lxor h p.
Proof.
  intros Hh Hp.
  assert (Hx : u32 (Z.lxor h p))
    by (apply lxor_u32; [exact Hh|unfold u32, U32_MAX; lia]).
  unfold fnv_unmul, fnv_step; rewrite !wrap32_mod.
  rewrite Z.mul_mod_idemp_l by lia.
  rewrite <- Z.mul_assoc, <- Z.mul_mod_idemp_r by lia.
  change ((16777619 * 899433627) mod 2 ^ 32) with 1.
  rewrite Z.mul_1_r; apply Z.mod_small.
  unfold u32, U32_MAX in Hx; lia.
Qed.

Lemma fnv_unstep_step (h p : Z) :
  u32 h -> 0 <= p < 256 -> fnv_unstep (fnv_step h p) p = h.
Proof.
  intros Hh Hp; unfold fnv_unstep.
  rewrite fnv_unmul_step by assumption.
  rewrite Z.lxor_assoc, Z.lxor_nilpotent, Z.lxor_0_r; reflexivity.
Qed.

Lemma unfold_suffix_fold (suffix : list Z) :
  Forall (fun p => 0 <= p < 256) suffix ->
  forall h, u32 h ->
            unfold_suffix suffix (fold_left fnv_step suffix h) = h.
Proof.
  induction 1 as [|p suffix Hp _ IH]; intros h Hh; [reflexivity|].
  cbn [fold_left unfold_suffix fold_right].
  fold (unfold_suffix suffix (fold_left fnv_step suffix (fnv_step h p))).
  rewrite IH by apply fnv_step_u32.
  apply fnv_unstep_step; assumption.
Qed.

Lemma byte_of_range (x k : Z) : 0 <= byte_of x k < 256.
Proof.
  unfold byte_of.
  change 255 with (Z.ones 8); rewrite Z.land_ones by lia.
  apply Z.mod_pos_bound; lia.
Qed.

Lemma le32_bytes (x : Z) : Forall (fun p => 0 <= p < 256) (le32 x).
Proof. repeat constructor; apply byte_of_range. Qed.

Lemma image_split (b : Block) :
  image b = image_prefix b ++ le32 (nonce b) ++ image_suffix b.
Proof. unfold image, image_prefix, image_suffix; rewrite <- !app_assoc; reflexivity. Qed.

Lemma in_all_bytes (p : Z) : 0 <= p < 256 -> In p all_bytes.
Proof.
  intros Hp; unfold all_bytes.
  rewrite <- (Z2Nat.id p) by lia.
  apply in_map, in_seq; lia.
Qed.

Lemma high_bits_lxor_byte (h p : Z) :
  0 <= p < 256 -> high_bits (Z.lxor h p) = high_bits h.
Proof.
  intros Hp; unfold high_bits; rewrite Z.shiftr_lxor.
  rewrite (Z.shiftr_div_pow2 p) by lia.
  rewrite Z.div_small by (change (2 ^ 8) with 256; lia).
  rewrite Z.lxor_0_r; reflexivity.
Qed.

Lemma one_byte_from_mem (h0 n0 : Z) :
  0 <= n0 < 256 ->
  PositiveSet.mem (high_bits (fnv_step h0 n0)) (one_byte_from h0) = true.
Proof.
  intros H0; apply PositiveSet.mem_spec; unfold one_byte_from.
  pose proof (in_all_bytes n0 H0) as Hin.
  induction all_bytes as [|p l IH]; [contradiction|].
  cbn [fold_right]; apply PositiveSet.add_spec.
  destruct Hin as [->|Hin]; [left; reflexivity|right; apply IH, Hin].
Qed.

(** [nonce_reaches] finds every state that four nonce bytes reach. *)
Lemma nonce_reaches_complete (h0 n0 n1 n2 n3 : Z) :
  u32 h0 ->
  0 <= n0 < 256 -> 0 <= n1 < 256 -> 0 <= n2 < 256 -> 0 <= n3 < 256 ->
  nonce_reaches h0
    (fnv_step (fnv_step (fnv_step (fnv_step h0 n0) n1) n2) n3) = true.
Proof.
  intros Hh H0 H1 H2 H3; unfold nonce_reaches; cbv zeta.
  apply existsb_exists; exists n3; split; [apply in_all_bytes, H3|].
  apply existsb_exists; exists n2; split; [apply in_all_bytes, H2|].
  rewrite fnv_unstep_step by (try apply fnv_step_u32; assumption).
  rewrite fnv_unstep_step by (try apply fnv_step_u32; assumption).
  rewrite fnv_unmul_step by (try apply fnv_step_u32; assumption).
  rewrite high_bits_lxor_byte by assumption.
  apply one_byte_from_mem, H0.
Qed.

Lemma digest_at_split (b : Block) (n : Z) :
  digest_at b n
  = fold_left fnv_step (image_suffix b)
      (fnv_step
         (fnv_step
            (fnv_step (fnv_step (prefix_state b) (byte_of n 0)) (byte_of n 1))
            (byte_of n 2))
         (byte_of n 3)).
Proof.
  unfold digest_at, fnv_hash_1a_32, prefix_state.
  rewrite image_split, !fold_left_app; reflexivity.
Qed.

(** A digest which the search of [nonce_reaches] excludes is not the
    digest at any nonce. *)
Lemma never_reached (h0 : Z) (suffix ds : list Z) (n0 n1 n2 n3 : Z) :
  u32 h0 ->
  Forall (fun p => 0 <= p < 256) suffix ->
  0 <= n0 < 256 -> 0 <= n1 < 256 -> 0 <= n2 < 256 -> 0 <= n3 < 256 ->
  forallb (fun d => negb (nonce_reaches h0 (unfold_suffix suffix d))) ds
  = true ->
  ~ In (fold_left fnv_step suffix
          (fnv_step (fnv_step (fnv_step (fnv_step h0 n0) n1) n2) n3))
       ds.
Proof.
  intros Hh Hsuffix H0 H1 H2 H3 Hall Hin.
  rewrite forallb_forall in Hall.
  specialize (Hall _ Hin).
  rewrite unfold_suffix_fold in Hall by (try apply fnv_step_u32; assumption).
  rewrite nonce_reaches_complete in Hall by assumption.
  discriminate.
Qed.

Lemma in_up_to (t d : Z) : 0 <= d <= t -> In d (up_to t).
Proof.
  intros Hd; unfold up_to.
  rewrite <- (Z2Nat.id d) by lia.
  apply in_map, in_seq; lia.
Qed.

(** When [never_accepted b t] holds, no nonce makes the digest of [b] at
    threshold [t] fall within [t]. *)
Lemma never_accepted_sound (b : Block) (t : Z) :
  never_accepted b t = true ->
  forall n, digest_at (set_threshold b t) n > t.
Proof.
  intros Hnever n.
  destruct (Z_le_gt_dec (digest_at (set_threshold b t) n) t) as [Hle|Hgt];
    [exfalso|exact Hgt].
  rewrite digest_at_split in Hle.
  eapply (never_reached (prefix_state (set_threshold b t))
                        (image_suffix (set_threshold b t)) (up_to t)).
  - apply fnv_fold_u32; unfold u32, U32_MAX; lia.
  - unfold image_suffix; apply Forall_app; split; apply le32_bytes.
  - apply (byte_of_range n 0).
  - apply (byte_of_range n 1).
  - apply (byte_of_range n 2).
  - apply (byte_of_range n 3).
  - exact Hnever.
  - apply in_up_to; split; [|exact Hle].
    apply fnv_fold_u32, fnv_step_u32.
Qed.

(** The digest of a concatenation continues from the digest of its
    first part. *)
Lemma fnv_hash_app (a b : list Z) :
  fnv_hash_1a_32 (a ++ b) = fold_left fnv_step b (fnv_hash_1a_32 a).
Proof. unfold fnv_hash_1a_32; apply fold_left_app. Qed.

Lemma fnv_hash_u32 (key : list Z) : u32 (fnv_hash_1a_32 key).
Proof.
  unfold fnv_hash_1a_32; apply fnv_fold_u32.
  unfold u32, U32_MAX; lia.
Qed.

(** The proofs below never look inside the digest. *)
Opaque fnv_hash_1a_32.

Lemma TransactionType_eqb_eq (a b : TransactionType) :
  TransactionType_eqb a b = true <-> a = b.
Proof. destruct a, b; simpl; split; congruence. Qed.

Lemma TransactionType_eqb_neq (a b : TransactionType) :
  TransactionType_eqb a b = false <-> a <> b.
Proof. destruct a, b; simpl; split; congruence. Qed.

(** ** The miner *)

Lemma set_nonce_twice (b : Block) (n m : Z) :
  set_nonce (set_nonce b n) m = set_nonce b m.
Proof. reflexivity. Qed.

Lemma digest_at_set_nonce (b : Block) (n m : Z) :
  digest_at (set_nonce b n) m = digest_at b m.
Proof. unfold digest_at; rewrite set_nonce_twice; reflexivity. Qed.

Lemma hashBlock_loop_done fuel blk t hash j :
  hash <= t -> hashBlock_loop fuel blk t hash j = Some (hash, blk).
Proof.
  intros H.
  assert (E : (hash >? t) = false) by (rewrite Z.gtb_ltb; apply Z.ltb_ge; lia).
  destruct fuel; cbn [hashBlock_loop]; rewrite E; reflexivity.
Qed.

Lemma hashBlock_loop_step fuel blk t hash j :
  hash > t ->
  hashBlock_loop (S fuel) blk t hash j
  = hashBlock_loop fuel (set_nonce blk j) t (digest_at blk j) (wrap32 (j + 1)).
Proof.
  intros H.
  assert (E : (hash >? t) = true) by (rewrite Z.gtb_ltb; apply Z.ltb_lt; lia).
  unfold digest_at; cbn [hashBlock_loop]; rewrite E; reflexivity.
Qed.

Lemma hashBlock_loop_out_of_fuel blk t hash j :
  hash > t -> hashBlock_loop 0 blk t hash j = None.
Proof.
  intros H.
  assert (E : (hash >? t) = true) by (rewrite Z.gtb_ltb; apply Z.ltb_lt; lia).
  cbn [hashBlock_loop]; rewrite E; reflexivity.
Qed.

(** Whatever the loop returns is the digest of the block it leaves, and is
    accepted. *)
Lemma hashBlock_loop_sound fuel :
  forall blk t hash j h b',
    hash > t -> u32 j ->
    hashBlock_loop fuel blk t hash j = Some (h, b') ->
    exists n, u32 n /\ b' = set_nonce blk n
              /\ h = fnv_hash_1a_32 (image b') /\ h <= t.
Proof.
  induction fuel as [|fuel IH]; intros blk t hash j h b' Hgt Hj Hrun.
  - rewrite hashBlock_loop_out_of_fuel in Hrun by assumption; discriminate.
  - rewrite hashBlock_loop_step in Hrun by assumption.
    destruct (Z_le_gt_dec (digest_at blk j) t) as [Hle|Hgt'].
    + rewrite hashBlock_loop_done in Hrun by assumption.
      injection Hrun as <- <-.
      exists j; repeat split; try apply Hj; assumption.
    + apply IH in Hrun; [|assumption|apply wrap32_u32].
      destruct Hrun as (n & Hn & -> & Hh & Hle).
      exists n; rewrite set_nonce_twice in *; auto.
Qed.

(** The loop is deterministic: two bounds that both suffice agree. *)
Lemma hashBlock_loop_fuel_irrelevant fuel1 :
  forall fuel2 blk t hash j x y,
    hashBlock_loop fuel1 blk t hash j = Some x ->
    hashBlock_loop fuel2 blk t hash j = Some y ->
    x = y.
Proof.
  induction fuel1 as [|fuel1 IH]; intros fuel2 blk t hash j x y H1 H2;
    destruct (Z_le_gt_dec hash t) as [Hle|Hgt].
  - rewrite hashBlock_loop_done in H1, H2 by assumption; congruence.
  - rewrite hashBlock_loop_out_of_fuel in H1 by assumption; discriminate.
  - rewrite hashBlock_loop_done in H1, H2 by assumption; congruence.
  - destruct fuel2 as [|fuel2].
    + rewrite hashBlock_loop_out_of_fuel in H2 by assumption; discriminate.
    + rewrite hashBlock_loop_step in H1, H2 by assumption.
      eapply IH; eassumption.
Qed.

(** Termination: when some nonce up to [n] is accepted, [d + 1] iterations
    from nonce [j = n - d] reach the first accepted one. *)
Lemma hashBlock_loop_complete (t n : Z) :
  forall (d fuel : nat) blk hash j,
    hash > t -> 0 <= j -> j + Z.of_nat d = n -> n <= U32_MAX ->
    digest_at blk n <= t ->
    (d < fuel)%nat ->
    exists n0,
      j <= n0 <= n
      /\ digest_at blk n0 <= t
      /\ (forall m, j <= m < n0 -> digest_at blk m > t)
      /\ hashBlock_loop fuel blk t hash j
         = Some (digest_at blk n0, set_nonce blk n0).
Proof.
  induction d as [|d IH]; intros fuel blk hash j Hgt Hj Hd Hn Hacc Hfuel;
    (destruct fuel as [|fuel]; [lia|]);
    rewrite hashBlock_loop_step by assumption.
  - assert (j = n) by lia; subst j.
    exists n; rewrite hashBlock_loop_done by assumption.
    repeat split; try lia; assumption.
  - destruct (Z_le_gt_dec (digest_at blk j) t) as [Hle|Hgt'].
    + exists j; rewrite hashBlock_loop_done by assumption.
      repeat split; try lia; assumption.
    + rewrite wrap32_small by (unfold u32; lia).
      destruct (IH fuel (set_nonce blk j) (digest_at blk j) (j + 1))
        as (n0 & Hn0 & Hacc0 & Hfirst & Hrun); try assumption; try lia.
      exists n0; rewrite set_nonce_twice, !digest_at_set_nonce in *.
      repeat split; try lia; try assumption.
      intros m Hm; destruct (Z.eq_dec m j) as [->|Hne]; [assumption|].
      specialize (Hfirst m); rewrite digest_at_set_nonce in Hfirst.
      apply Hfirst; lia.
Qed.

Lemma hashBlock_mined fuel b h b' :
  hashBlock fuel b threshold_const = Some (h, b') -> mined b h b'.
Proof.
  unfold hashBlock; intros H.
  apply hashBlock_loop_sound in H; [exact H| |].
  - unfold threshold_const, U32_MAX; cbn; lia.
  - unfold u32, U32_MAX; lia.
Qed.

(** Once the loop has run, the nonce and threshold found in the block
    beforehand are forgotten. *)
Lemma hashBlock_after_mining fuel b t n :
  t < U32_MAX ->
  hashBlock fuel (set_nonce (set_threshold b t) n) t = hashBlock fuel b t.
Proof.
  intros Ht; unfold hashBlock.
  destruct fuel as [|fuel].
  - rewrite !hashBlock_loop_out_of_fuel by lia; reflexivity.
  - rewrite !hashBlock_loop_step by lia; reflexivity.
Qed.

(** Mining a block again at the same threshold changes nothing. *)
Lemma hashBlock_idempotent fuel1 fuel2 b t h b' h2 b2 :
  t < U32_MAX ->
  hashBlock fuel1 b t = Some (h, b') ->
  hashBlock fuel2 b' t = Some (h2, b2) ->
  h2 = h /\ b2 = b'.
Proof.
  intros Ht H1 H2.
  assert (Hn : exists n, b' = set_nonce (set_threshold b t) n).
  { unfold hashBlock in H1.
    apply hashBlock_loop_sound in H1; [|lia|unfold u32, U32_MAX; lia].
    destruct H1 as (n & _ & -> & _); exists n; reflexivity. }
  destruct Hn as (n & ->).
  rewrite hashBlock_after_mining in H2 by assumption.
  unfold hashBlock in H1, H2.
  pose proof (hashBlock_loop_fuel_irrelevant _ _ _ _ _ _ _ _ H1 H2) as E.
  injection E as <- <-; auto.
Qed.

Lemma mined_fields b h b' :
  mined b h b' ->
  index b' = index b /\ prevHash b' = prevHash b
  /\ timestamp b' = timestamp b /\ transaction b' = transaction b
  /\ padding b' = padding b /\ threshold b' = threshold_const.
Proof.
  intros (n & _ & -> & _); repeat split.
Qed.

(** ** The chain store *)

Lemma split_back_app {A : Type} (l : list A) :
  forall front back, split_back l = Some (front, back) -> l = front ++ [back].
Proof.
  induction l as [|x l IH]; intros front back H.
  - discriminate.
  - destruct l as [|y l].
    + injection H as <- <-; reflexivity.
    + cbn [split_back] in H, IH.
      destruct (match l with
                | [] => Some ([], y)
                | _ :: _ =>
                    match split_back l with
                    | Some (front, back) => Some (y :: front, back)
                    | None => None
                    end
                end) as [[f b]|]; [|discriminate].
      injection H as <- <-.
      rewrite (IH f b eq_refl); reflexivity.
Qed.

Lemma latest_receipt_snoc chain b acct :
  latest_receipt (chain ++ [b]) acct
  = if is_receipt_of acct b then (balance (transaction b), index b)
    else latest_receipt chain acct.
Proof.
  unfold latest_receipt; rewrite rev_unit; cbn [find].
  destruct (is_receipt_of acct b); reflexivity.
Qed.

Lemma balance_at_snoc chain b i :
  balance_at (chain ++ [b]) i
  = if index b =? i then balance (transaction b) else balance_at chain i.
Proof.
  unfold balance_at; rewrite rev_unit; cbn [find].
  destruct (index b =? i); reflexivity.
Qed.

(** The scans read the index and the transaction of a block only, so the
    mining of the last block does not change what they return. *)
Lemma latest_receipt_mined front back h back' acct :
  mined back h back' ->
  latest_receipt (front ++ [back']) acct = latest_receipt (front ++ [back]) acct.
Proof.
  intros (n & _ & -> & _); rewrite !latest_receipt_snoc; reflexivity.
Qed.

Lemma balance_at_mined front back h back' i :
  mined back h back' ->
  balance_at (front ++ [back']) i = balance_at (front ++ [back]) i.
Proof.
  intros (n & _ & -> & _); rewrite !balance_at_snoc; reflexivity.
Qed.

(** ** The transaction builder *)

(** [generateTransfer] returns the same transaction before and after the
    mining of the last block. *)
Lemma generateTransfer_mined front back h back' sender receiver amt :
  mined back h back' ->
  generateTransfer (front ++ [back']) sender receiver amt
  = generateTransfer (front ++ [back]) sender receiver amt.
Proof.
  intros H; unfold generateTransfer.
  rewrite (latest_receipt_mined front back h back' sender H); reflexivity.
Qed.

Lemma generateTransfer_cases chain sender receiver amount :
  let t := generateTransfer chain sender receiver amount in
  (type t = INVALID
   /\ (sender = receiver \/ receiver = 0
       \/ (sender <> 0 /\ fst (latest_receipt chain sender) < amount)))
  \/ (type t = (if sender =? 0 then GENERATE else TRANSFER)
      /\ sender <> receiver /\ receiver <> 0
      /\ (sender <> 0 -> amount <= fst (latest_receipt chain sender))
      /\ t = mkTransaction (if sender =? 0 then GENERATE else TRANSFER)
                           sender receiver
                           (if sender =? 0 then U32_MAX
                            else snd (latest_receipt chain sender))
                           amount).
Proof.
  unfold generateTransfer.
  destruct (Z.eqb_spec sender receiver) as [Hsr|Hsr];
    [left; cbn; auto|].
  destruct (Z.eqb_spec receiver 0) as [Hr|Hr];
    [left; cbn; auto|].
  cbn [orb].
  destruct (Z.eqb_spec sender 0) as [Hs|Hs]; cbn [negb andb].
  - right; repeat split; auto. intros; contradiction.
  - destruct (latest_receipt chain sender) as [bal prev]; cbn [fst snd].
    destruct (Z.ltb_spec bal amount) as [Hlt|Hge].
    + left; cbn; auto.
    + right; repeat split; auto.
Qed.

Lemma generateTransfer_is_transfer chain sender receiver amount b :
  transaction b = generateTransfer chain sender receiver amount ->
  type (transaction b) <> INVALID ->
  is_transfer b = true.
Proof.
  intros E H; unfold is_transfer; rewrite E in *.
  destruct (generateTransfer_cases chain sender receiver amount)
    as [[Ht _]|[Ht _]]; [contradiction|].
  rewrite Ht; destruct (sender =? 0); reflexivity.
Qed.

Lemma generateReceipt_eq chain b :
  is_transfer b = true ->
  generateReceipt chain b
  = mkTransaction RECEIPT (receiverAccount (transaction b))
                  (snd (latest_receipt chain (receiverAccount (transaction b))))
                  (index b)
                  (wrap32 (fst (latest_receipt chain
                                               (receiverAccount (transaction b)))
                           + amount (transaction b))).
Proof.
  intros H; unfold generateReceipt; rewrite H; cbn [negb].
  destruct (latest_receipt chain _); reflexivity.
Qed.

(** ** The ledger engine as a step relation *)

Lemma sendAmount_step fuel env1 env2 env3 st sender receiver amount code st' :
  sendAmount fuel env1 env2 env3 st sender receiver amount = Some (code, st') ->
  send_step env1 env2 env3 st sender receiver amount code st'.
Proof.
  unfold sendAmount, bind.
  destruct (split_back (blockVector st)) as [[front back]|] eqn:Hsplit;
    [|discriminate].
  apply split_back_app in Hsplit.
  destruct (hashBlock fuel back threshold_const) as [[hash0 back']|] eqn:H0;
    [|discriminate].
  apply hashBlock_mined in H0.
  cbn [generateBlock].
  set (chain := front ++ [back']).
  set (tx := generateTransfer chain sender receiver amount).
  cbn [transaction].
  destruct (TransactionType_eqb (type tx) INVALID) eqn:Htx.
  - intros H; injection H as <- <-.
    apply TransactionType_eqb_eq in Htx.
    eapply send_rejected; eassumption.
  - apply TransactionType_eqb_neq in Htx.
    match goal with
    | |- context [hashBlock fuel ?b threshold_const] => set (transfer := b)
    end.
    destruct (hashBlock fuel transfer threshold_const)
      as [[hash1 transfer']|] eqn:H1; [|discriminate].
    apply hashBlock_mined in H1.
    assert (Ht : is_transfer transfer' = true).
    { apply (generateTransfer_is_transfer chain sender receiver amount).
      - destruct (mined_fields _ _ _ H1) as (_ & _ & _ & -> & _); reflexivity.
      - destruct (mined_fields _ _ _ H1) as (_ & _ & _ & -> & _); exact Htx. }
    rewrite (generateReceipt_eq chain transfer' Ht).
    cbn [type TransactionType_eqb].
    match goal with
    | |- context [hashBlock fuel ?b threshold_const] => set (receipt := b)
    end.
    destruct (hashBlock fuel receipt threshold_const)
      as [[hash2 receipt']|] eqn:H2; [|discriminate].
    apply hashBlock_mined in H2.
    assert (Hr : receipt
                 = fresh_block env2 (wrap32 (blockCounter st + 1))
                               (generateReceipt chain transfer') hash1).
    { rewrite (generateReceipt_eq chain transfer' Ht); reflexivity. }
    rewrite Hr in H2.
    pose proof (send_accepted env1 env2 env3 st sender receiver amount
                              front back hash0 back' hash1 transfer'
                              hash2 receipt' _ Hsplit H0 Htx H1 H2 eq_refl)
      as Hstep.
    cbv zeta in Hstep; fold chain in Hstep.
    unfold fresh_block in Hstep at 1; cbn [generateBlock fst] in Hstep.
    cbn [transaction] in Hstep |- *.
    destruct (TransactionType_eqb
                (type (generateReturn chain transfer' receipt')) INVALID);
      cbn [negb]; intros H; injection H as <- <-.
    + replace (chain ++ [transfer'; receipt'])
        with (chain ++ [transfer'; receipt'] ++ [])
        by reflexivity.
      exact Hstep.
    + rewrite <- app_assoc; exact Hstep.
Qed.

(** ** Relations between neighbours of a vector *)

Section Adjacent.
Context {A : Type} (R : A -> A -> Prop).

Lemma nth_error_snoc_last (l : list A) (x : A) :
  nth_error (l ++ [x]) (length l) = Some x.
Proof.
  rewrite nth_error_app2 by lia.
  rewrite Nat.sub_diag; reflexivity.
Qed.

Lemma nth_error_snoc_inv (l : list A) (x y : A) (i : nat) :
  nth_error (l ++ [x]) i = Some y ->
  ((i < length l)%nat /\ nth_error l i = Some y) \/ (i = length l /\ y = x).
Proof.
  intros H.
  assert (Hi : (i < length (l ++ [x]))%nat)
    by (apply nth_error_Some; congruence).
  rewrite length_app in Hi; cbn [length] in Hi.
  destruct (Nat.eq_dec i (length l)) as [->|Hne].
  - right; rewrite nth_error_snoc_last in H; split; congruence.
  - left; rewrite nth_error_app1 in H by lia; split; [lia|assumption].
Qed.

Lemma adjacent_single (x : A) : adjacent R [x].
Proof.
  intros i a b _ Hb.
  destruct i; discriminate.
Qed.

Lemma adjacent_snoc (l : list A) (x y : A) :
  adjacent R (l ++ [x]) -> R x y -> adjacent R ((l ++ [x]) ++ [y]).
Proof.
  intros H Hxy i a b Ha Hb.
  apply nth_error_snoc_inv in Hb.
  destruct Hb as [[Hlt Hb]|[Hi ->]].
  - rewrite nth_error_app1 in Ha by lia; eapply H; eassumption.
  - rewrite length_app in Hi; cbn [length] in Hi.
    assert (i = length l) by lia; subst i.
    rewrite nth_error_app1 in Ha by (rewrite length_app; cbn [length]; lia).
    rewrite nth_error_snoc_last in Ha.
    injection Ha as <-; exact Hxy.
Qed.

Lemma adjacent_set_last (l : list A) (x x' : A) :
  adjacent R (l ++ [x]) ->
  (forall z, R z x -> R z x') ->
  adjacent R (l ++ [x']).
Proof.
  intros H Hx i a b Ha Hb.
  apply nth_error_snoc_inv in Hb.
  destruct Hb as [[Hlt Hb]|[Hi ->]].
  - rewrite nth_error_app1 in Ha by lia.
    apply (H i a b); rewrite nth_error_app1 by lia; assumption.
  - rewrite nth_error_app1 in Ha by lia.
    apply Hx, (H i a x).
    + rewrite nth_error_app1 by lia; assumption.
    + rewrite Hi; apply nth_error_snoc_last.
Qed.
End Adjacent.

Lemma Forall_set_last {A : Type} (P : A -> Prop) (l : list A) (x x' : A) :
  Forall P (l ++ [x]) -> (P x -> P x') -> Forall P (l ++ [x']).
Proof.
  intros H Hx; apply Forall_app in H as [Hl Hlast].
  apply Forall_app; split; [assumption|].
  constructor; [|constructor].
  inversion Hlast; auto.
Qed.

(** The vector after an accepted call, one [push_back] at a time. *)
Lemma pushed_two {A : Type} (l : list A) (x y : A) :
  l ++ [x; y] ++ [] = (l ++ [x]) ++ [y].
Proof. rewrite app_nil_r, <- app_assoc; reflexivity. Qed.

Lemma pushed_three {A : Type} (l : list A) (x y z : A) :
  l ++ [x; y] ++ [z] = ((l ++ [x]) ++ [y]) ++ [z].
Proof. rewrite <- !app_assoc; reflexivity. Qed.

(** The blocks that a call of [sendAmount] appends. *)
Lemma pushed_cases {A : Type} (l : list A) (x y z : A) (skip : bool) :
  l ++ [x; y] ++ (if skip then [] else [z])
  = if skip then (l ++ [x]) ++ [y] else ((l ++ [x]) ++ [y]) ++ [z].
Proof. destruct skip; [apply pushed_two|apply pushed_three]. Qed.

(** ** Chain linkage *)

Lemma mined_link b h b' env counter t :
  mined b h b' ->
  prevHash (fresh_block env counter t h) = fnv_hash_1a_32 (image b').
Proof. intros (n & _ & _ & -> & _); reflexivity. Qed.

Lemma mined_link_mined b h b' c h' c' :
  mined b h b' -> mined c h' c' -> prevHash c = h ->
  prevHash c' = fnv_hash_1a_32 (image b').
Proof.
  intros (n & _ & _ & -> & _) Hc E.
  destruct (mined_fields _ _ _ Hc) as (_ & -> & _); exact E.
Qed.

Lemma linked_send env1 env2 env3 st sender receiver amount code st' :
  linked (blockVector st) ->
  send_step env1 env2 env3 st sender receiver amount code st' ->
  linked (blockVector st').
Proof.
  intros Hl Hstep; unfold linked in *.
  destruct Hstep as [front back hash0 back' Hsplit H0 Htx
                    |front back hash0 back' hash1 transfer' hash2 receipt' ret
                       chain counter1 counter2 Hsplit H0 Htx H1 H2 Hret];
    cbn [blockVector]; rewrite Hsplit in Hl.
  - eapply adjacent_set_last; [exact Hl|].
    intros z Hz; cbn beta in *.
    destruct (mined_fields _ _ _ H0) as (_ & -> & _); exact Hz.
  - assert (Hchain : adjacent
                       (fun b c => prevHash c = fnv_hash_1a_32 (image b)) chain).
    { eapply adjacent_set_last; [exact Hl|].
      intros z Hz; cbn beta in *.
      destruct (mined_fields _ _ _ H0) as (_ & -> & _); exact Hz. }
    assert (H3 : adjacent (fun b c => prevHash c = fnv_hash_1a_32 (image b))
                          ((chain ++ [transfer']) ++ [receipt'])).
    { apply adjacent_snoc; [apply adjacent_snoc; [exact Hchain|]|].
      - eapply mined_link_mined; [exact H0|exact H1|reflexivity].
      - eapply mined_link_mined; [exact H1|exact H2|reflexivity]. }
    rewrite pushed_cases.
    destruct (TransactionType_eqb (type (transaction ret)) INVALID);
      [exact H3|].
    apply adjacent_snoc; [exact H3|].
    rewrite Hret; eapply mined_link; exact H2.
Qed.

Lemma reachable_linked k st : reachable k st -> linked (blockVector st).
Proof.
  induction 1 as [env data seed|k st fuel env1 env2 env3 s r a code st' _ IH
                                 _ _ _ Hsend].
  - apply adjacent_single.
  - apply sendAmount_step in Hsend.
    eapply linked_send; eassumption.
Qed.

(** ** More on the transaction builder *)

Lemma generateTransfer_accepted chain sender receiver amount :
  type (generateTransfer chain sender receiver amount) <> INVALID ->
  sender <> receiver /\ receiver <> 0
  /\ (sender <> 0 -> amount <= fst (latest_receipt chain sender))
  /\ generateTransfer chain sender receiver amount
     = mkTransaction (if sender =? 0 then GENERATE else TRANSFER)
                     sender receiver
                     (if sender =? 0 then U32_MAX
                      else snd (latest_receipt chain sender))
                     amount.
Proof.
  intros H.
  destruct (generateTransfer_cases chain sender receiver amount)
    as [[Ht _]|(_ & H1 & H2 & H3 & H4)]; [contradiction|auto].
Qed.

Lemma generateReturn_cases chain transferBlock receiptBlock :
  let t := generateReturn chain transferBlock receiptBlock in
  (type t = INVALID
   /\ (is_transfer transferBlock = false
       \/ type (transaction receiptBlock) <> RECEIPT
       \/ transfer_prevReceipt (transaction transferBlock) = U32_MAX))
  \/ (is_transfer transferBlock = true
      /\ type (transaction receiptBlock) = RECEIPT
      /\ transfer_prevReceipt (transaction transferBlock) <> U32_MAX
      /\ t = mkTransaction
               RECEIPT
               (senderAccount (transaction transferBlock))
               (senderAccount (transaction transferBlock))
               (index receiptBlock)
               (wrap32 (balance_at chain (transfer_prevReceipt
                                            (transaction transferBlock))
                        - amount (transaction transferBlock)))).
Proof.
  unfold generateReturn.
  destruct (is_transfer transferBlock); cbn [negb];
    [|left; cbn; auto].
  destruct (TransactionType_eqb (type (transaction receiptBlock)) RECEIPT)
    eqn:Hr; cbn [negb].
  - apply TransactionType_eqb_eq in Hr.
    destruct (Z.eqb_spec (transfer_prevReceipt (transaction transferBlock))
                         U32_MAX) as [Hp|Hp].
    + left; cbn; auto.
    + right; auto.
  - apply TransactionType_eqb_neq in Hr; left; cbn; auto.
Qed.

(** ** Receipts on the chain *)

Lemma receipts_send env1 env2 env3 st sender receiver amount code st' :
  Forall receipt_ok (blockVector st) ->
  send_step env1 env2 env3 st sender receiver amount code st' ->
  Forall receipt_ok (blockVector st').
Proof.
  intros Hall Hstep.
  destruct Hstep as [front back hash0 back' Hsplit H0 Htx
                    |front back hash0 back' hash1 transfer' hash2 receipt' ret
                       chain counter1 counter2 Hsplit H0 Htx H1 H2 Hret];
    cbn [blockVector]; rewrite Hsplit in Hall.
  - eapply Forall_set_last; [exact Hall|].
    unfold receipt_ok.
    destruct (mined_fields _ _ _ H0) as (_ & _ & _ & -> & _); auto.
  - assert (Hchain : Forall receipt_ok chain).
    { eapply Forall_set_last; [exact Hall|].
      unfold receipt_ok.
      destruct (mined_fields _ _ _ H0) as (_ & _ & _ & -> & _); auto. }
    destruct (generateTransfer_accepted _ _ _ _ Htx)
      as (Hsr & Hr0 & Hbal & Heq).
    destruct (mined_fields _ _ _ H1) as (_ & _ & _ & Ht' & _).
    destruct (mined_fields _ _ _ H2) as (_ & _ & _ & Hr' & _).
    unfold fresh_block in Ht', Hr'; cbn [generateBlock fst transaction] in Ht', Hr'.
    assert (Hist : is_transfer transfer' = true).
    { unfold is_transfer; rewrite Ht', Heq; cbn [type].
      destruct (sender =? 0); reflexivity. }
    rewrite (generateReceipt_eq chain transfer' Hist) in Hr'.
    assert (Htr : receipt_ok transfer').
    { unfold receipt_ok; rewrite Ht', Heq; cbn [type].
      destruct (sender =? 0); discriminate. }
    assert (Hre : receipt_ok receipt').
    { unfold receipt_ok; rewrite Hr'; cbn [type account balance word1 word4].
      intros _; split; [|apply wrap32_u32].
      unfold receiverAccount; rewrite Ht', Heq; cbn [word2]; exact Hr0. }
    apply Forall_app; split; [exact Hchain|].
    constructor; [exact Htr|]; constructor; [exact Hre|].
    destruct (TransactionType_eqb (type (transaction ret)) INVALID) eqn:Hinv;
      [constructor|].
    apply TransactionType_eqb_neq in Hinv.
    constructor; [|constructor].
    rewrite Hret in Hinv |- *.
    unfold fresh_block in Hinv |- *;
      cbn [generateBlock fst transaction] in Hinv |- *.
    unfold receipt_ok; cbn [generateBlock fst transaction].
    destruct (generateReturn_cases chain transfer' receipt')
      as [[Hty _]|(_ & _ & Hprev & Hgen)]; [contradiction|].
    rewrite Hgen; cbn [type account balance word1 word4].
    intros _; split; [|apply wrap32_u32].
    unfold senderAccount, transfer_prevReceipt in *.
    rewrite Ht', Heq in Hprev |- *; cbn [word1 word3] in Hprev |- *.
    intros ->; apply Hprev; reflexivity.
Qed.

Lemma reachable_receipts k st :
  reachable k st -> Forall receipt_ok (blockVector st).
Proof.
  induction 1 as [env data seed|k st fuel env1 env2 env3 s r a code st' _ IH
                                 _ _ _ Hsend].
  - constructor; [|constructor].
    unfold receipt_ok; cbn; discriminate.
  - apply sendAmount_step in Hsend.
    eapply receipts_send; eassumption.
Qed.

Lemma latest_receipt_absent chain acct :
  Forall (fun b => type (transaction b) = RECEIPT ->
                   account (transaction b) <> acct) chain ->
  latest_receipt chain acct = (0, U32_MAX).
Proof.
  intros H; unfold latest_receipt.
  destruct (find (is_receipt_of acct) (rev chain)) as [b|] eqn:Hfind;
    [|reflexivity].
  apply find_some in Hfind as [Hin Hb].
  apply in_rev in Hin.
  rewrite Forall_forall in H; specialize (H b Hin).
  unfold is_receipt_of in Hb; apply andb_true_iff in Hb as [Hty Hacc].
  apply TransactionType_eqb_eq in Hty; apply Z.eqb_eq in Hacc.
  specialize (H Hty); contradiction.
Qed.

(** Account 0 never owns a receipt. *)
Lemma reachable_latest_receipt_0 k st :
  reachable k st -> latest_receipt (blockVector st) 0 = (0, U32_MAX).
Proof.
  intros H; apply latest_receipt_absent.
  eapply Forall_impl; [|apply (reachable_receipts k st H)].
  intros b Hb Hty; apply Hb, Hty.
Qed.

(** ** Proof of work *)

Lemma mined_pow_ok b h b' : mined b h b' -> pow_ok b'.
Proof.
  intros H; unfold pow_ok.
  destruct (mined_fields _ _ _ H) as (_ & _ & _ & _ & _ & ->).
  destruct H as (n & _ & _ & <- & Hle); exact Hle.
Qed.

(** After an accepted call the old blocks, the transfer and its receipt
    are mined; a return block is not. *)
Lemma pow_send_accepted env1 env2 env3 st sender receiver amount st' :
  pow_front (blockVector st) ->
  send_step env1 env2 env3 st sender receiver amount 0 st' ->
  exists done rest,
    blockVector st' = done ++ rest
    /\ length done = (length (blockVector st) + 2)%nat
    /\ Forall pow_ok done
    /\ (rest = [] \/ exists ret, rest = [ret]).
Proof.
  intros (front0 & back0 & Hchain0 & Hfront) Hstep.
  inversion Hstep
    as [|front back hash0 back' hash1 transfer' hash2 receipt' ret
          chain counter1 counter2 Hsplit H0 Htx H1 H2 Hret Hcode Hst'].
  rewrite Hchain0 in Hsplit; apply app_inj_tail in Hsplit as [<- <-].
  exists (chain ++ [transfer'; receipt']).
  exists (if TransactionType_eqb (type (transaction ret)) INVALID
          then [] else [ret]).
  cbn [blockVector]; repeat split.
  - rewrite <- app_assoc; reflexivity.
  - subst chain; rewrite Hchain0, !length_app; cbn [length]; lia.
  - subst chain; repeat (apply Forall_app; split); auto.
    + constructor; [|constructor]; eapply mined_pow_ok; eassumption.
    + constructor; [|constructor; [|constructor]];
        eapply mined_pow_ok; eassumption.
  - destruct (TransactionType_eqb (type (transaction ret)) INVALID);
      [left; reflexivity|right; eexists; reflexivity].
Qed.

Lemma pow_send env1 env2 env3 st sender receiver amount code st' :
  pow_front (blockVector st) ->
  send_step env1 env2 env3 st sender receiver amount code st' ->
  pow_front (blockVector st').
Proof.
  intros Hpow Hstep.
  destruct (Z.eq_dec code 0) as [->|Hcode].
  - destruct (pow_send_accepted _ _ _ _ _ _ _ _ Hpow Hstep)
      as (done & rest & -> & Hlen & Hdone & Hrest).
    destruct Hrest as [->|[r ->]].
    + destruct (exists_last (l := done)) as (front1 & back1 & ->).
      { intros ->; cbn [length] in Hlen; lia. }
      apply Forall_app in Hdone as [Hdone _].
      exists front1, back1; rewrite app_nil_r; auto.
    + exists done, r; auto.
  - destruct Hstep as [front back hash0 back' Hsplit H0 Htx|];
      [|contradiction].
    destruct Hpow as (front0 & back0 & Hchain0 & Hfront).
    rewrite Hchain0 in Hsplit; apply app_inj_tail in Hsplit as [<- <-].
    exists front0, back'; split; [reflexivity|assumption].
Qed.

Lemma reachable_pow_front k st : reachable k st -> pow_front (blockVector st).
Proof.
  induction 1 as [env data seed|k st fuel env1 env2 env3 s r a code st' _ IH
                                 _ _ _ Hsend].
  - eexists [], _; split; [reflexivity|constructor].
  - apply sendAmount_step in Hsend.
    eapply pow_send; eassumption.
Qed.

(** ** Block indices *)

Lemma increasing_snoc (l : list Z) (y : Z) :
  increasing l -> Forall (fun x => x < y) l -> increasing (l ++ [y]).
Proof.
  intros Hinc Hall i j a b Hij Ha Hb.
  apply nth_error_snoc_inv in Hb.
  destruct Hb as [[Hlt Hb]|[Hj ->]].
  - rewrite nth_error_app1 in Ha by lia.
    apply (Hinc i j); assumption.
  - rewrite nth_error_app1 in Ha by lia.
    rewrite Forall_forall in Hall.
    apply Hall; eapply nth_error_In; eassumption.
Qed.

Lemma indices_ok_snoc l c :
  indices_ok l c -> indices_ok (l ++ [c]) (c + 1).
Proof.
  intros (H0 & Hinc & Hall); repeat split.
  - rewrite nth_error_app1; [exact H0|].
    apply nth_error_Some; congruence.
  - apply increasing_snoc; [exact Hinc|].
    eapply Forall_impl; [|exact Hall]; cbn; intros; lia.
  - apply Forall_app; split.
    + eapply Forall_impl; [|exact Hall]; cbn; intros; lia.
    + constructor; [|constructor].
      rewrite Forall_forall in Hall.
      pose proof (Hall 0 (nth_error_In _ _ H0)); lia.
Qed.

Lemma indices_ok_skip l c : indices_ok l c -> indices_ok l (c + 1).
Proof.
  intros (H0 & Hinc & Hall); repeat split; auto.
  eapply Forall_impl; [|exact Hall]; cbn; intros; lia.
Qed.

Lemma mined_index_map front back h back' :
  mined back h back' ->
  map index (front ++ [back']) = map index (front ++ [back]).
Proof.
  intros H; destruct (mined_fields _ _ _ H) as (E & _).
  rewrite !map_app; cbn [map]; rewrite E; reflexivity.
Qed.

(** The indices of the blocks which a call appends, and the counter after
    the call. *)
Lemma send_step_indices env1 env2 env3 st sender receiver amount code st' :
  send_step env1 env2 env3 st sender receiver amount code st' ->
  let c := blockCounter st in
  let old := map index (blockVector st) in
  (code = -1 /\ map index (blockVector st') = old
   /\ blockCounter st' = wrap32 (c + 1))
  \/ (code = 0
      /\ blockCounter st' = wrap32 (wrap32 (wrap32 (c + 1) + 1) + 1)
      /\ (map index (blockVector st') = (old ++ [c]) ++ [wrap32 (c + 1)]
          \/ map index (blockVector st')
             = ((old ++ [c]) ++ [wrap32 (c + 1)])
                 ++ [wrap32 (wrap32 (c + 1) + 1)])).
Proof.
  intros Hstep.
  destruct Hstep as [front back hash0 back' Hsplit H0 Htx
                    |front back hash0 back' hash1 transfer' hash2 receipt' ret
                       chain counter1 counter2 Hsplit H0 Htx H1 H2 Hret];
    cbn [blockVector blockCounter]; cbv zeta; rewrite Hsplit.
  - left; repeat split.
    eapply mined_index_map; eassumption.
  - right; repeat split.
    destruct (mined_fields _ _ _ H1) as (Ei1 & _).
    destruct (mined_fields _ _ _ H2) as (Ei2 & _).
    unfold fresh_block in Ei1, Ei2; cbn [generateBlock fst index] in Ei1, Ei2.
    destruct (mined_fields _ _ _ H0) as (Ei0 & _).
    rewrite pushed_cases.
    destruct (TransactionType_eqb (type (transaction ret)) INVALID);
      [left|right]; subst chain; rewrite !map_app; cbn [map];
      rewrite Ei0, Ei1, Ei2; [reflexivity|].
    rewrite Hret; reflexivity.
Qed.

Lemma indices_send env1 env2 env3 st sender receiver amount code st' :
  indices_ok (map index (blockVector st)) (blockCounter st) ->
  blockCounter st + 3 <= U32_MAX ->
  send_step env1 env2 env3 st sender receiver amount code st' ->
  indices_ok (map index (blockVector st')) (blockCounter st')
  /\ blockCounter st' <= blockCounter st + 3.
Proof.
  intros Hok Hc Hstep.
  assert (H0c : 0 <= blockCounter st).
  { destruct Hok as (H0 & _ & Hall); rewrite Forall_forall in Hall.
    pose proof (Hall 0 (nth_error_In _ _ H0)); lia. }
  apply send_step_indices in Hstep; cbv zeta in Hstep.
  rewrite !wrap32_small in Hstep
    by (repeat rewrite wrap32_small; unfold u32; lia).
  destruct Hstep as [(_ & -> & ->)|(_ & -> & [-> | ->])].
  - split; [apply indices_ok_skip; assumption|lia].
  - split; [|lia].
    apply indices_ok_skip, indices_ok_snoc, indices_ok_snoc; assumption.
  - split; [|lia].
    apply indices_ok_snoc, indices_ok_snoc, indices_ok_snoc; assumption.
Qed.

Lemma reachable_counter_nonneg k st : reachable k st -> 0 <= blockCounter st.
Proof.
  induction 1 as [env data seed|k st fuel env1 env2 env3 s r a code st' _ IH
                                 _ _ _ Hsend].
  - cbn; lia.
  - apply sendAmount_step, send_step_indices in Hsend; cbv zeta in Hsend.
    destruct Hsend as [(_ & _ & ->)|(_ & -> & _)]; apply wrap32_u32.
Qed.

Lemma reachable_indices k st :
  reachable k st ->
  blockCounter st <= 3 * Z.of_nat k + 1
  /\ (3 * Z.of_nat k + 1 <= U32_MAX ->
      indices_ok (map index (blockVector st)) (blockCounter st)).
Proof.
  induction 1 as [env data seed|k st fuel env1 env2 env3 s r a code st'
                                 Hreach IH _ _ _ Hsend].
  - split; [cbn; lia|].
    intros _; repeat split.
    + intros i j x y Hij Hx Hy.
      destruct j as [|[|j]]; [lia| |]; discriminate.
    + constructor; [|constructor]; cbn; lia.
  - apply sendAmount_step in Hsend.
    destruct IH as [Hc IH].
    pose proof (reachable_counter_nonneg _ _ Hreach) as Hpos.
    split.
    + apply send_step_indices in Hsend; cbv zeta in Hsend.
      assert (Hw : forall x, 0 <= x -> wrap32 x <= x).
      { intros x Hx; rewrite wrap32_mod; apply Z.mod_le; lia. }
      assert (Hp : forall x, 0 <= wrap32 x)
        by (intros x; apply wrap32_u32).
      destruct Hsend as [(_ & _ & ->)|(_ & -> & _)].
      * pose proof (Hw (blockCounter st + 1)); lia.
      * pose proof (Hw (blockCounter st + 1)).
        pose proof (Hw (wrap32 (blockCounter st + 1) + 1)).
        pose proof (Hw (wrap32 (wrap32 (blockCounter st + 1) + 1) + 1)).
        pose proof (Hp (blockCounter st + 1)).
        pose proof (Hp (wrap32 (blockCounter st + 1) + 1)).
        lia.
    + intros Hk.
      eapply indices_send; [apply IH; lia|lia|exact Hsend].
Qed.

(** ** The script of [main] and other concrete runs *)

Lemma u32b_u32 x : u32b x = true -> u32 x.
Proof.
  unfold u32b, u32; intros H.
  apply andb_true_iff in H as [H1 H2].
  apply Z.leb_le in H1, H2; lia.
Qed.

Lemma run_reachable fuel calls :
  forall k st codes st',
    reachable k st ->
    forallb call_u32 calls = true ->
    run fuel st calls = Some (codes, st') ->
    reachable (length calls + k) st'.
Proof.
  induction calls as [|c calls IH]; intros k st codes st' Hreach Hok Hrun.
  - injection Hrun as _ <-; exact Hreach.
  - cbn [run] in Hrun; unfold bind in Hrun.
    destruct (sendAmount fuel (call_env1 c) (call_env2 c) (call_env3 c) st
                         (call_sender c) (call_receiver c) (call_amount c))
      as [[code st1]|] eqn:Hsend; [|discriminate].
    destruct (run fuel st1 calls) as [[codes' st2]|] eqn:Hrest;
      [|discriminate].
    injection Hrun as _ <-.
    cbn [forallb] in Hok; apply andb_true_iff in Hok as [Hc Hok].
    unfold call_u32 in Hc.
    apply andb_true_iff in Hc as [Hc Ha].
    apply andb_true_iff in Hc as [Hs Hr].
    replace (length (c :: calls) + k)%nat with (length calls + S k)%nat
      by (cbn [length]; lia).
    eapply IH; [|exact Hok|exact Hrest].
    eapply reachable_send; [exact Hreach| | | |exact Hsend];
      apply u32b_u32; assumption.
Qed.

Lemma main_genesis_reachable : reachable 0 main_genesis.
Proof. apply reachable_genesis. Qed.


(** ** Long runs *)

Lemma sendAmount_rejected
      fuel env1 env2 env3 st sender receiver amt front back hash0 back' :
  split_back (blockVector st) = Some (front, back) ->
  hashBlock fuel back threshold_const = Some (hash0, back') ->
  type (generateTransfer (front ++ [back']) sender receiver amt) = INVALID ->
  sendAmount fuel env1 env2 env3 st sender receiver amt
  = Some (-1, mkLedger (front ++ [back']) (wrap32 (blockCounter st + 1))).
Proof.
  intros H1 H2 H3; unfold sendAmount, bind.
  rewrite H1, H2; cbn [generateBlock transaction].
  rewrite H3; reflexivity.
Qed.

(** A rejected call on an idle ledger only advances the counter. *)
Lemma idle_step env1 env2 env3 c :
  sendAmount 8 env1 env2 env3 (idle_ledger c) 1 1 50
  = Some (-1, idle_ledger (wrap32 (c + 1))).
Proof.
  apply (sendAmount_rejected 8 env1 env2 env3 (idle_ledger c) 1 1 50
                             [] mined_genesis 652917 mined_genesis).
  - reflexivity.
  - vm_compute; reflexivity.
  - reflexivity.
Qed.

(** Rejected calls bring the counter to any 32-bit value from 2 on. *)
Lemma idle_reachable (y : Z) :
  0 <= y -> y + 2 <= U32_MAX -> exists k, reachable k (idle_ledger (y + 2)).
Proof.
  intros Hy; pattern y; apply natlike_ind; [| |exact Hy]; clear y Hy.
  - intros _; exists 1%nat.
    replace (idle_ledger (0 + 2)) with (state_after reject_calls)
      by (vm_compute; reflexivity).
    apply (run_reachable 8 reject_calls 0 main_genesis [-1]).
    + apply reachable_genesis.
    + vm_compute; reflexivity.
    + vm_compute; reflexivity.
  - intros y Hy IH Hmax.
    destruct IH as [k Hk]; [lia|].
    exists (S k).
    replace (Z.succ y + 2) with (wrap32 (y + 2 + 1))
      by (rewrite wrap32_small; unfold u32; lia).
    eapply (reachable_send k (idle_ledger (y + 2)) 8 (at_tick 0) (at_tick 0)
                           (at_tick 0) 1 1 50);
      [exact Hk| | | |apply idle_step]; unfold u32, U32_MAX; lia.
Qed.

(** The ledger on which [late_calls] run is reachable, and so are the
    ledgers they lead to. *)
Lemma late_reachable :
  exists k,
    reachable k (late_after (firstn 1 late_calls))
    /\ reachable (S k) (late_after late_calls).
Proof.
  destruct (idle_reachable 4294967292) as [k Hk];
    [lia|unfold U32_MAX; lia|].
  change (4294967292 + 2) with 4294967294 in Hk.
  exists (S k).
  assert (H1 : reachable (S k) (late_after (firstn 1 late_calls))).
  { eapply (reachable_send k (idle_ledger 4294967294) 8
                           (at_tick 22259) (at_tick 22349) (at_tick 22350)
                           0 1 50 0);
      [exact Hk| | | |vm_compute; reflexivity]; unfold u32, U32_MAX; lia. }
  split; [exact H1|].
  eapply (reachable_send (S k) (late_after (firstn 1 late_calls)) 8
                         (at_tick 25306) (at_tick 25465) (at_tick 25466)
                         1 2 30 0);
    [exact H1| | | |vm_compute; reflexivity]; unfold u32, U32_MAX; lia.
Qed.

(** * The miner *)

(** The loop does not return when no nonce is accepted. *)
Lemma hashBlock_loop_diverges t fuel :
  forall blk hash j,
    (forall n, u32 n -> digest_at blk n > t) ->
    hash > t -> u32 j -> hashBlock_loop fuel blk t hash j = None.
Proof.
  induction fuel as [|fuel IH]; intros blk hash j Hnone Hgt Hj.
  - apply hashBlock_loop_out_of_fuel; assumption.
  - rewrite hashBlock_loop_step by assumption.
    apply IH.
    + intros n Hn; rewrite digest_at_set_nonce; apply Hnone, Hn.
    + apply Hnone, Hj.
    + apply wrap32_u32.
Qed.

(** At the largest threshold the loop body is never entered: the block
    keeps its nonce and the initial value of [hash] is returned. *)
Lemma hashBlock_threshold_max fuel b :
  hashBlock fuel b U32_MAX = Some (U32_MAX, set_threshold b U32_MAX).
Proof. unfold hashBlock; apply hashBlock_loop_done; lia. Qed.

(** C9, as the code has it.  For a threshold [t] below [U32_MAX] and a
    block [b]: if some 32-bit nonce [n] gives a digest within [t], then
    there is a first such nonce [n0], and [hashBlock] returns as soon as
    the loop may run more than [n0] times; it returns the digest found
    at [n0] and leaves [b] with threshold [t] and nonce [n0]. *)
Theorem hashBlock_first_accepted (b : Block) (t n : Z) :
  0 <= t < U32_MAX ->
  0 <= n <= U32_MAX ->
  digest_at (set_threshold b t) n <= t ->
  exists n0,
    0 <= n0 <= n
    /\ digest_at (set_threshold b t) n0 <= t
    /\ (forall m, 0 <= m < n0 -> digest_at (set_threshold b t) m > t)
    /\ forall fuel,
        (Z.to_nat n0 < fuel)%nat ->
        exists b',
          hashBlock fuel b t = Some (fnv_hash_1a_32 (image b'), b')
          /\ b' = set_nonce (set_threshold b t) n0
          /\ threshold b' = t /\ nonce b' = n0
          /\ fnv_hash_1a_32 (image b') <= t.
Proof.
  intros Ht Hn Hacc.
  destruct (hashBlock_loop_complete t n (Z.to_nat n) (S (Z.to_nat n))
              (set_threshold b t) U32_MAX 0)
    as (n0 & Hn0 & Hacc0 & Hfirst & _); try lia; try assumption.
  exists n0; repeat split; try lia; try assumption.
  intros fuel Hfuel.
  destruct (hashBlock_loop_complete t n0 (Z.to_nat n0) fuel
              (set_threshold b t) U32_MAX 0)
    as (n1 & Hn1 & Hacc1 & Hfirst1 & Hrun); try lia; try assumption.
  assert (n1 = n0).
  { destruct (Z.eq_dec n1 n0) as [|Hne]; [assumption|].
    specialize (Hfirst n1); lia. }
  subst n1.
  exists (set_nonce (set_threshold b t) n0); repeat split; assumption.
Qed.

Lemma hashBlock_first_accepted_witness :
  0 <= 1048576 < U32_MAX
  /\ 0 <= 5 <= U32_MAX
  /\ digest_at (set_threshold genesis_block 1048576) 5 <= 1048576
  /\ exists n0,
      0 <= n0 <= 5
      /\ digest_at (set_threshold genesis_block 1048576) n0 <= 1048576
      /\ (forall m, 0 <= m < n0 ->
                    digest_at (set_threshold genesis_block 1048576) m > 1048576)
      /\ forall fuel,
          (Z.to_nat n0 < fuel)%nat ->
          exists b',
            hashBlock fuel genesis_block 1048576
            = Some (fnv_hash_1a_32 (image b'), b')
            /\ b' = set_nonce (set_threshold genesis_block 1048576) n0
            /\ threshold b' = 1048576 /\ nonce b' = n0
            /\ fnv_hash_1a_32 (image b') <= 1048576.
Proof.
  assert (H1 : 0 <= 1048576 < U32_MAX) by (unfold U32_MAX; lia).
  assert (H2 : 0 <= 5 <= U32_MAX) by (unfold U32_MAX; lia).
  assert (H3 : digest_at (set_threshold genesis_block 1048576) 5 <= 1048576)
    by (vm_compute; discriminate).
  repeat split; try apply H1; try apply H2; try exact H3.
  exact (hashBlock_first_accepted genesis_block 1048576 5 H1 H2 H3).
Defined.

(** No nonce gives the genesis block of [main] a digest of 0 or 1. *)
Lemma genesis_block_unminable :
  forall n, digest_at (set_threshold genesis_block 1) n > 1.
Proof.
  apply never_accepted_sound.
  vm_compute; reflexivity.
Qed.

(** C9 as stated fails in two ways.  At threshold 1 the loop never
    returns for the genesis block of [main], whatever the number of
    iterations allowed.  At threshold [U32_MAX] nonce 0 would be accepted,
    yet the block keeps the nonce 7 it had, and the value returned is
    not the digest of the block. *)
Lemma hashBlock_contract_counterexample :
  (0 < 1 /\ forall fuel, hashBlock fuel genesis_block 1 = None)
  /\ 0 < U32_MAX
  /\ hashBlock 0 stale_block U32_MAX
     = Some (U32_MAX, set_threshold stale_block U32_MAX)
  /\ digest_at (set_threshold stale_block U32_MAX) 0 <= U32_MAX
  /\ nonce (set_threshold stale_block U32_MAX) = 7
  /\ fnv_hash_1a_32 (image (set_threshold stale_block U32_MAX)) = 3820550051
  /\ 3820550051 <> U32_MAX.
Proof.
  split.
  - split; [lia|].
    intros fuel; unfold hashBlock.
    apply hashBlock_loop_diverges.
    + intros n _; apply genesis_block_unminable.
    + unfold U32_MAX; lia.
    + unfold u32, U32_MAX; lia.
  - repeat split; try (vm_compute; congruence).
Qed.

(** * The ledger engine *)

(** C10.  No call of [sendAmount] returns -2: a transaction which
    [generateTransfer] did not mark [INVALID] is a [GENERATE] or a
    [TRANSFER], and [generateReceipt] accepts every block that carries
    one. *)
Theorem receipt_rejection_unreachable
        fuel env1 env2 env3 st sender receiver amount code st' :
  sendAmount fuel env1 env2 env3 st sender receiver amount = Some (code, st') ->
  code <> -2
  /\ (code = 0 \/ code = -1)
  /\ forall chain chain' b,
      transaction b = generateTransfer chain sender receiver amount ->
      type (transaction b) <> INVALID ->
      type (generateReceipt chain' b) = RECEIPT.
Proof.
  intros Hsend; apply sendAmount_step in Hsend.
  repeat split.
  - destruct Hsend; lia.
  - destruct Hsend; auto.
  - intros chain chain' b Hb Hty.
    rewrite generateReceipt_eq; [reflexivity|].
    eapply generateTransfer_is_transfer; eassumption.
Qed.

Lemma receipt_rejection_unreachable_witness :
  sendAmount 8 (at_tick 8976) (at_tick 10745) (at_tick 13593)
             (state_after (firstn 8 main_calls)) 1 2 75
  = Some (0, state_after (firstn 9 main_calls))
  /\ 0 <> -2.
Proof.
  assert (H : sendAmount 8 (at_tick 8976) (at_tick 10745) (at_tick 13593)
                         (state_after (firstn 8 main_calls)) 1 2 75
              = Some (0, state_after (firstn 9 main_calls)))
    by (vm_compute; reflexivity).
  split; [exact H|].
  exact (proj1 (receipt_rejection_unreachable _ _ _ _ _ _ _ _ _ _ H)).
Defined.

(** * The transaction builder *)

(** C2.  On every reachable ledger [generateTransfer] returns [INVALID]
    exactly when the sender is the receiver, or the receiver is 0, or the
    sender is not 0 and its latest balance is below the amount.
    Otherwise the transaction is a [GENERATE] for sender 0 and a
    [TRANSFER] for any other sender, and carries the sender, the
    receiver, the amount and the index of the sender's latest receipt,
    which is [U32_MAX] when there is none, as is the case for account 0. *)
Theorem generateTransfer_spec k st sender receiver amt :
  reachable k st ->
  let chain := blockVector st in
  let t := generateTransfer chain sender receiver amt in
  (type t = INVALID
   <-> (sender = receiver \/ receiver = 0
        \/ (sender <> 0 /\ fst (latest_receipt chain sender) < amt)))
  /\ (type t <> INVALID ->
      (sender = 0 -> type t = GENERATE)
      /\ (sender <> 0 -> type t = TRANSFER)
      /\ senderAccount t = sender
      /\ receiverAccount t = receiver
      /\ amount t = amt
      /\ transfer_prevReceipt t = snd (latest_receipt chain sender))
  /\ latest_receipt chain 0 = (0, U32_MAX)
  /\ (forall acct,
         find (is_receipt_of acct) (rev chain) = None ->
         latest_receipt chain acct = (0, U32_MAX)).
Proof.
  intros Hreach chain t.
  pose proof (reachable_latest_receipt_0 k st Hreach) as Hzero.
  fold chain in Hzero.
  destruct (generateTransfer_cases chain sender receiver amt)
    as [[Hty Hwhy]|(Hty & Hsr & Hr0 & Hbal & Heq)]; fold t in Hty.
  - repeat split; auto; try contradiction.
    intros acct Hnone; unfold latest_receipt; rewrite Hnone; reflexivity.
  - fold t in Heq.
    assert (Hvalid : type t <> INVALID)
      by (rewrite Hty; destruct (sender =? 0); discriminate).
    repeat split; auto.
    + intros Hinv; contradiction.
    + intros [Heq'|[Heq'|[Hs Hlt]]]; try contradiction.
      specialize (Hbal Hs); lia.
    + intros ->; rewrite Hty; reflexivity.
    + intros Hs; rewrite Hty.
      destruct (Z.eqb_spec sender 0); [contradiction|reflexivity].
    + rewrite Heq; reflexivity.
    + rewrite Heq; reflexivity.
    + rewrite Heq; reflexivity.
    + rewrite Heq; unfold transfer_prevReceipt; cbn [word3].
      destruct (Z.eqb_spec sender 0) as [->|_]; [|reflexivity].
      rewrite Hzero; reflexivity.
    + intros acct Hnone; unfold latest_receipt; rewrite Hnone; reflexivity.
Qed.

(** The ledger of [main] after its first eight calls is reachable. *)
Lemma main_after_8_reachable :
  reachable 8 (state_after (firstn 8 main_calls)).
Proof.
  apply (run_reachable 8 (firstn 8 main_calls) 0 main_genesis
                       [0; 0; 0; 0; -1; -1; -1; -1]).
  - apply reachable_genesis.
  - vm_compute; reflexivity.
  - vm_compute; reflexivity.
Defined.

Lemma generateTransfer_spec_witness :
  reachable 8 (state_after (firstn 8 main_calls))
  /\ generateTransfer (blockVector (state_after (firstn 8 main_calls))) 1 2 75
     = mkTransaction TRANSFER 1 2 11 75
  /\ type (generateTransfer
             (blockVector (state_after (firstn 8 main_calls))) 1 2 300)
     = INVALID
  /\ latest_receipt (blockVector (state_after (firstn 8 main_calls))) 1
     = (200, 11).
Proof.
  pose proof (generateTransfer_spec 8 (state_after (firstn 8 main_calls))
                                    1 2 300 main_after_8_reachable) as H.
  cbv zeta in H; destruct H as (Hiff & _).
  split; [exact main_after_8_reachable|].
  split; [vm_compute; reflexivity|].
  split; [|vm_compute; reflexivity].
  apply Hiff; right; right.
  split; [discriminate|vm_compute; reflexivity].
Defined.

(** * Chain invariants *)

(** C5.  On every reachable ledger each block after the first stores, as
    [prevHash], the digest of the block before it as that block is
    stored, with its nonce and threshold. *)
Theorem chain_linkage k st (i : nat) (b c : Block) :
  reachable k st ->
  (1 <= i)%nat ->
  nth_error (blockVector st) (i - 1) = Some b ->
  nth_error (blockVector st) i = Some c ->
  prevHash c = fnv_hash_1a_32 (image b).
Proof.
  intros Hreach Hi Hb Hc.
  apply (reachable_linked k st Hreach (i - 1)%nat b c Hb).
  replace (S (i - 1)) with i by lia; exact Hc.
Qed.

(** The ledger of [main] after its twelve calls is reachable. *)
Lemma main_final_reachable : reachable 12 (state_after main_calls).
Proof.
  apply (run_reachable 8 main_calls 0 main_genesis
                       [0; 0; 0; 0; -1; -1; -1; -1; 0; 0; -1; -1]).
  - apply reachable_genesis.
  - vm_compute; reflexivity.
  - vm_compute; reflexivity.
Defined.

Lemma chain_linkage_witness :
  reachable 12 (state_after main_calls)
  /\ (1 <= 14)%nat
  /\ nth_error (blockVector (state_after main_calls)) 13
     = Some (block_at (state_after main_calls) 13)
  /\ nth_error (blockVector (state_after main_calls)) 14
     = Some (block_at (state_after main_calls) 14)
  /\ prevHash (block_at (state_after main_calls) 14)
     = fnv_hash_1a_32 (image (block_at (state_after main_calls) 13)).
Proof.
  assert (H1 : (1 <= 14)%nat) by lia.
  assert (H2 : nth_error (blockVector (state_after main_calls)) (14 - 1)
               = Some (block_at (state_after main_calls) 13))
    by (vm_compute; reflexivity).
  assert (H3 : nth_error (blockVector (state_after main_calls)) 14
               = Some (block_at (state_after main_calls) 14))
    by (vm_compute; reflexivity).
  split; [exact main_final_reachable|].
  split; [exact H1|].
  split; [exact H2|].
  split; [exact H3|].
  exact (chain_linkage 12 (state_after main_calls) 14 _ _
                       main_final_reachable H1 H2 H3).
Defined.

Lemma increasing_lower_bound (l : list Z) :
  nth_error l 0 = Some 0 -> increasing l ->
  forall i x, nth_error l i = Some x -> Z.of_nat i <= x.
Proof.
  intros H0 Hinc i; induction i as [|i IH]; intros x Hx.
  - rewrite H0 in Hx; injection Hx as <-; lia.
  - destruct (nth_error l i) as [y|] eqn:Hy.
    + specialize (IH y eq_refl).
      pose proof (Hinc i (S i) y x (Nat.lt_succ_diag_r i) Hy Hx); lia.
    + apply nth_error_None in Hy.
      assert (Hlt : (S i < length l)%nat)
        by (apply nth_error_Some; congruence).
      lia.
Qed.

(** C7, as the code has it.  While the 32-bit counter of [generateBlock]
    has not wrapped (which [3 * k + 1 <= U32_MAX] ensures after [k]
    calls), the first block of the chain has index 0, the indices
    increase strictly along the chain, and the block at position [i] has
    an index from [i] up to the counter. *)
Theorem block_indices_increase k st :
  reachable k st ->
  3 * Z.of_nat k + 1 <= U32_MAX ->
  (forall b, nth_error (blockVector st) 0 = Some b -> index b = 0)
  /\ (forall i j b c,
         (i < j)%nat ->
         nth_error (blockVector st) i = Some b ->
         nth_error (blockVector st) j = Some c ->
         index b < index c)
  /\ (forall i b,
         nth_error (blockVector st) i = Some b ->
         Z.of_nat i <= index b < blockCounter st).
Proof.
  intros Hreach Hk.
  destruct (reachable_indices k st Hreach) as [_ Hok].
  destruct (Hok Hk) as (H0 & Hinc & Hall).
  assert (Hmap : forall i b, nth_error (blockVector st) i = Some b ->
                             nth_error (map index (blockVector st)) i
                             = Some (index b))
    by (intros i b Hb; apply map_nth_error, Hb).
  repeat split.
  - intros b Hb; apply Hmap in Hb; congruence.
  - intros i j b c Hij Hb Hc.
    apply (Hinc i j); auto.
  - apply (increasing_lower_bound _ H0 Hinc), Hmap; assumption.
  - rewrite Forall_forall in Hall.
    apply (Hall (index b)).
    eapply nth_error_In, Hmap; eassumption.
Qed.

Lemma block_indices_increase_witness :
  reachable 12 (state_after main_calls)
  /\ 3 * Z.of_nat 12 + 1 <= U32_MAX
  /\ (forall i b,
         nth_error (blockVector (state_after main_calls)) i = Some b ->
         Z.of_nat i <= index b < blockCounter (state_after main_calls))
  /\ map index (blockVector (state_after main_calls))
     = [0; 1; 2; 4; 5; 7; 8; 10; 11; 17; 18; 19; 20; 21; 22]
  /\ blockCounter (state_after main_calls) = 25.
Proof.
  assert (Hk : 3 * Z.of_nat 12 + 1 <= U32_MAX) by (vm_compute; discriminate).
  split; [exact main_final_reachable|].
  split; [exact Hk|].
  split; [|split; vm_compute; reflexivity].
  exact (proj2 (proj2 (block_indices_increase
                         12 (state_after main_calls)
                         main_final_reachable Hk))).
Defined.

(** C7 as stated fails after the first two calls of [main]: every call
    of [generateBlock] takes an index, also for the return block of a mint,
    which is not appended, so the block at position 3 has index 4.  Nor
    do the indices increase once the counter has wrapped. *)
Lemma block_index_position_counterexample :
  run 8 main_genesis (firstn 2 main_calls)
  = Some ([0; 0], state_after (firstn 2 main_calls))
  /\ reachable 2 (state_after (firstn 2 main_calls))
  /\ nth_error (blockVector (state_after (firstn 2 main_calls))) 3
     = Some (block_at (state_after (firstn 2 main_calls)) 3)
  /\ index (block_at (state_after (firstn 2 main_calls)) 3) = 4
  /\ 4 <> Z.of_nat 3
  /\ (exists k, reachable k (late_after late_calls))
  /\ map index (blockVector (late_after late_calls))
     = [0; 4294967294; 4294967295; 1; 2].
Proof.
  assert (Hrun : run 8 main_genesis (firstn 2 main_calls)
                 = Some ([0; 0], state_after (firstn 2 main_calls)))
    by (vm_compute; reflexivity).
  split; [exact Hrun|].
  split.
  - apply (run_reachable 8 (firstn 2 main_calls) 0 main_genesis [0; 0]).
    + apply reachable_genesis.
    + vm_compute; reflexivity.
    + exact Hrun.
  - split; [vm_compute; reflexivity|].
    split; [vm_compute; reflexivity|].
    split; [vm_compute; discriminate|].
    split; [|vm_compute; reflexivity].
    destruct late_reachable as (k & _ & Hk); exists (S k); exact Hk.
Qed.

(** After a call the blocks that were on the chain before it are all
    mined, the former last one included. *)
Lemma pow_send_old env1 env2 env3 st sender receiver amount code st' :
  pow_front (blockVector st) ->
  send_step env1 env2 env3 st sender receiver amount code st' ->
  forall i b,
    (i < length (blockVector st))%nat ->
    nth_error (blockVector st') i = Some b ->
    pow_ok b.
Proof.
  intros (front0 & back0 & Hchain0 & Hfront) Hstep i b Hi Hb.
  rewrite Hchain0, length_app in Hi; cbn [length] in Hi.
  assert (Hold : forall back' h more,
             mined back0 h back' ->
             nth_error ((front0 ++ [back']) ++ more) i = Some b ->
             pow_ok b).
  { intros back' h more Hm Hnth.
    rewrite nth_error_app1 in Hnth by (rewrite length_app; cbn [length]; lia).
    assert (Hall : Forall pow_ok (front0 ++ [back'])).
    { apply Forall_app; split; [exact Hfront|].
      constructor; [eapply mined_pow_ok; exact Hm|constructor]. }
    rewrite Forall_forall in Hall; eapply Hall, nth_error_In, Hnth. }
  destruct Hstep as [front back hash0 back' Hsplit H0 Htx
                    |front back hash0 back' hash1 transfer' hash2 receipt' ret
                       chain counter1 counter2 Hsplit H0 Htx H1 H2 Hret];
    cbn [blockVector] in Hb;
    rewrite Hchain0 in Hsplit; apply app_inj_tail in Hsplit as [<- <-].
  - apply (Hold back' hash0 [] H0); rewrite app_nil_r; exact Hb.
  - exact (Hold back' hash0 _ H0 Hb).
Qed.

(** The third block that an accepted call appends is stored as
    [generateBlock] made it. *)
Lemma return_block_as_built env1 env2 env3 st sender receiver amount st' :
  send_step env1 env2 env3 st sender receiver amount 0 st' ->
  length (blockVector st') = (length (blockVector st) + 3)%nat ->
  exists ret,
    nth_error (blockVector st') (length (blockVector st) + 2) = Some ret
    /\ type (transaction ret) = RECEIPT
    /\ timestamp ret = now env3
    /\ nonce ret = nonce (garbage env3)
    /\ threshold ret = threshold (garbage env3)
    /\ padding ret = padding (garbage env3).
Proof.
  intros Hstep.
  inversion Hstep
    as [|front back hash0 back' hash1 transfer' hash2 receipt' ret
          chain counter1 counter2 Hsplit H0 Htx H1 H2 Hret Hcode Hst'].
  cbn [blockVector]; rewrite pushed_cases, Hsplit.
  assert (Hlen : length chain = (length front + 1)%nat)
    by (subst chain; rewrite length_app; reflexivity).
  destruct (TransactionType_eqb (type (transaction ret)) INVALID) eqn:Hinv;
    intros Hl; rewrite !length_app in Hl; cbn [length] in Hl; [lia|].
  exists ret; split.
  { replace (length (front ++ [back]) + 2)%nat
      with (length ((chain ++ [transfer']) ++ [receipt']))
      by (rewrite !length_app; cbn [length]; lia).
    apply nth_error_snoc_last. }
  apply TransactionType_eqb_neq in Hinv.
  assert (Hty : type (transaction ret) = RECEIPT).
  { rewrite Hret in Hinv |- *; unfold fresh_block in *.
    cbn [generateBlock fst transaction] in *.
    destruct (generateReturn_cases chain transfer' receipt')
      as [[Hbad _]|(_ & _ & _ & Heq)]; [contradiction|].
    cbv zeta in Heq; rewrite Heq; reflexivity. }
  split; [exact Hty|]; rewrite Hret; repeat split.
Qed.

(** C6, as the code has it.  An accepted call appends two or three
    blocks.  Afterwards every block that was on the chain before the call
    and the two blocks appended first (the transfer and its receipt)
    have a digest within their stored threshold.  A third block, the
    return block, is stored as [generateBlock] made it, [hashBlock] not
    having been called on it: its nonce and its threshold are the ones
    found in the uninitialised local variable, so that nothing relates
    its digest to its threshold.  The next call that returns, accepted
    or not, mines it: after that call every block of the chain as this
    call left it has a digest within its stored threshold. *)
Theorem pow_after_accepted_send
        k st fuel env1 env2 env3 sender receiver amt st' :
  reachable k st ->
  sendAmount fuel env1 env2 env3 st sender receiver amt = Some (0, st') ->
  (length (blockVector st') = length (blockVector st) + 2
   \/ length (blockVector st') = length (blockVector st) + 3)%nat
  /\ (forall i b,
         (i < length (blockVector st) + 2)%nat ->
         nth_error (blockVector st') i = Some b ->
         pow_ok b)
  /\ ((length (blockVector st') = length (blockVector st) + 2)%nat ->
      Forall pow_ok (blockVector st'))
  /\ ((length (blockVector st') = length (blockVector st) + 3)%nat ->
      exists ret,
        nth_error (blockVector st') (length (blockVector st) + 2) = Some ret
        /\ type (transaction ret) = RECEIPT
        /\ timestamp ret = now env3
        /\ nonce ret = nonce (garbage env3)
        /\ threshold ret = threshold (garbage env3)
        /\ padding ret = padding (garbage env3))
  /\ (forall fuel' env1' env2' env3' sender' receiver' amt' code st'',
         sendAmount fuel' env1' env2' env3' st' sender' receiver' amt'
         = Some (code, st'') ->
         forall i b,
           (i < length (blockVector st'))%nat ->
           nth_error (blockVector st'') i = Some b ->
           pow_ok b).
Proof.
  intros Hreach Hsend; apply sendAmount_step in Hsend.
  pose proof (reachable_pow_front k st Hreach) as Hpow.
  destruct (pow_send_accepted _ _ _ _ _ _ _ _ Hpow Hsend)
    as (done & rest & Heq & Hlen & Hdone & Hrest).
  split; [|split; [|split; [|split]]].
  - rewrite Heq, length_app, Hlen.
    destruct Hrest as [->|[r ->]]; cbn [length]; lia.
  - intros i b Hi Hb.
    rewrite Heq, nth_error_app1 in Hb by lia.
    rewrite Forall_forall in Hdone.
    eapply Hdone, nth_error_In, Hb.
  - rewrite Heq, length_app, Hlen; intros Hl.
    destruct Hrest as [->|[r ->]]; cbn [length] in Hl; [|lia].
    rewrite app_nil_r; exact Hdone.
  - exact (return_block_as_built _ _ _ _ _ _ _ _ Hsend).
  - intros fuel' env1' env2' env3' sender' receiver' amt' code st'' Hnext.
    apply sendAmount_step in Hnext.
    exact (pow_send_old _ _ _ _ _ _ _ _ _
                        (pow_send _ _ _ _ _ _ _ _ _ Hpow Hsend) Hnext).
Qed.

Lemma pow_after_accepted_send_witness :
  reachable 8 (state_after (firstn 8 main_calls))
  /\ sendAmount 8 (at_tick 8976) (at_tick 10745) (at_tick 13593)
                (state_after (firstn 8 main_calls)) 1 2 75
     = Some (0, state_after (firstn 9 main_calls))
  /\ (forall i b,
         (i < length (blockVector (state_after (firstn 8 main_calls))) + 2)%nat ->
         nth_error (blockVector (state_after (firstn 9 main_calls))) i = Some b ->
         pow_ok b)
  /\ length (blockVector (state_after (firstn 9 main_calls)))
     = (length (blockVector (state_after (firstn 8 main_calls))) + 3)%nat
  /\ exists ret,
      nth_error (blockVector (state_after (firstn 9 main_calls)))
                (length (blockVector (state_after (firstn 8 main_calls))) + 2)
      = Some ret
      /\ type (transaction ret) = RECEIPT
      /\ timestamp ret = now (at_tick 13593)
      /\ nonce ret = nonce (garbage (at_tick 13593))
      /\ threshold ret = threshold (garbage (at_tick 13593))
      /\ padding ret = padding (garbage (at_tick 13593)).
Proof.
  assert (H : sendAmount 8 (at_tick 8976) (at_tick 10745) (at_tick 13593)
                         (state_after (firstn 8 main_calls)) 1 2 75
              = Some (0, state_after (firstn 9 main_calls)))
    by (vm_compute; reflexivity).
  assert (Hl : length (blockVector (state_after (firstn 9 main_calls)))
               = (length (blockVector (state_after (firstn 8 main_calls)))
                  + 3)%nat)
    by (vm_compute; reflexivity).
  split; [exact main_after_8_reachable|].
  split; [exact H|].
  split.
  - exact (proj1 (proj2 (pow_after_accepted_send
                           8 _ _ _ _ _ _ _ _ _ main_after_8_reachable H))).
  - split; [exact Hl|].
    exact (proj1 (proj2 (proj2 (proj2 (pow_after_accepted_send
                                         8 _ _ _ _ _ _ _ _ _
                                         main_after_8_reachable H)))) Hl).
Defined.

(** C6 as stated fails after a mint and a transfer: the second call is
    accepted and appends a return block, which keeps the nonce and the
    threshold found in the local variable (0 here), and its digest is
    above that threshold. *)
Lemma pow_return_block_counterexample :
  reachable 1 (state_after (firstn 1 return_calls))
  /\ sendAmount 8 (at_tick 3398) (at_tick 3970) (at_tick 5200)
                (state_after (firstn 1 return_calls)) 1 2 30
     = Some (0, state_after return_calls)
  /\ nth_error (blockVector (state_after return_calls)) 5
     = Some (block_at (state_after return_calls) 5)
  /\ threshold (block_at (state_after return_calls) 5) = 0
  /\ fnv_hash_1a_32 (image (block_at (state_after return_calls) 5))
     = 4057818980
  /\ ~ pow_ok (block_at (state_after return_calls) 5).
Proof.
  split.
  - apply (run_reachable 8 (firstn 1 return_calls) 0 main_genesis [0]).
    + apply reachable_genesis.
    + vm_compute; reflexivity.
    + vm_compute; reflexivity.
  - split; [vm_compute; reflexivity|].
    split; [vm_compute; reflexivity|].
    split; [vm_compute; reflexivity|].
    split; [vm_compute; reflexivity|].
    unfold pow_ok; vm_compute; intros H; apply H; reflexivity.
Qed.

(** * Accepted and rejected calls *)

(** What an accepted call has appended. *)
Lemma send_accepted_inv env1 env2 env3 st sender receiver amt st' :
  send_step env1 env2 env3 st sender receiver amt 0 st' ->
  exists front back hash0 back' transfer receipt,
    let chain := front ++ [back'] in
    blockVector st = front ++ [back]
    /\ mined back hash0 back'
    /\ type (generateTransfer chain sender receiver amt) <> INVALID
    /\ transaction transfer = generateTransfer chain sender receiver amt
    /\ index transfer = blockCounter st
    /\ transaction receipt = generateReceipt chain transfer
    /\ ((type (generateReturn chain transfer receipt) = INVALID
         /\ blockVector st' = (chain ++ [transfer]) ++ [receipt])
        \/ (exists ret,
               type (generateReturn chain transfer receipt) <> INVALID
               /\ transaction ret = generateReturn chain transfer receipt
               /\ blockVector st'
                  = ((chain ++ [transfer]) ++ [receipt]) ++ [ret])).
Proof.
  intros Hstep.
  inversion Hstep
    as [|front back hash0 back' hash1 transfer' hash2 receipt' ret
          chain counter1 counter2 Hsplit H0 Htx H1 H2 Hret Hcode Hst'].
  exists front, back, hash0, back', transfer', receipt'.
  destruct (mined_fields _ _ _ H1) as (Hi1 & _ & _ & Ht1 & _).
  destruct (mined_fields _ _ _ H2) as (_ & _ & _ & Ht2 & _).
  cbv zeta; fold chain.
  repeat (split; [assumption|]).
  rewrite pushed_cases.
  assert (Hr : transaction ret = generateReturn chain transfer' receipt')
    by (rewrite Hret; reflexivity).
  rewrite Hr.
  destruct (TransactionType_eqb
              (type (generateReturn chain transfer' receipt')) INVALID)
    eqn:Hinv.
  - apply TransactionType_eqb_eq in Hinv; left; auto.
  - apply TransactionType_eqb_neq in Hinv; right; exists ret; auto.
Qed.

Lemma latest_receipt_found chain acct :
  latest_receipt chain acct = (0, U32_MAX)
  \/ exists b,
      In b chain
      /\ type (transaction b) = RECEIPT
      /\ account (transaction b) = acct
      /\ latest_receipt chain acct = (balance (transaction b), index b).
Proof.
  unfold latest_receipt.
  destruct (find (is_receipt_of acct) (rev chain)) as [b|] eqn:Hfind;
    [right|left; reflexivity].
  apply find_some in Hfind as [Hin Hb].
  apply in_rev in Hin.
  unfold is_receipt_of in Hb; apply andb_true_iff in Hb as [Hty Hacc].
  apply TransactionType_eqb_eq in Hty; apply Z.eqb_eq in Hacc.
  exists b; auto.
Qed.

(** With distinct indices, the scan of [generateReturn] finds the block
    it is asked for. *)
Lemma balance_at_index chain b :
  increasing (map index chain) -> In b chain ->
  balance_at chain (index b) = balance (transaction b).
Proof.
  intros Hinc Hin; unfold balance_at.
  destruct (find (fun x => index x =? index b) (rev chain)) as [b'|] eqn:Hfind.
  - apply find_some in Hfind as [Hin' Heq].
    apply in_rev in Hin'; apply Z.eqb_eq in Heq.
    apply In_nth_error in Hin as [i Hi], Hin' as [j Hj].
    pose proof (map_nth_error index _ _ Hi) as Hi'.
    pose proof (map_nth_error index _ _ Hj) as Hj'.
    destruct (Nat.lt_trichotomy i j) as [Hlt|[->|Hgt]].
    + pose proof (Hinc i j _ _ Hlt Hi' Hj'); lia.
    + congruence.
    + pose proof (Hinc j i _ _ Hgt Hj' Hi'); lia.
  - apply in_rev in Hin.
    pose proof (find_none _ _ Hfind b Hin) as Hne; cbn beta in Hne.
    rewrite Z.eqb_refl in Hne; discriminate.
Qed.

(** C3, as the code has it.  A call which returns a rejection code leaves
    the length of the chain and every block but the last as they were.
    The last block has been mined: its nonce and threshold are
    overwritten, its other fields are kept.  When the last block had
    already been mined by [hashBlock] at the same threshold, it is
    unchanged as well. *)
Theorem rejected_send_keeps_chain
        fuel env1 env2 env3 st sender receiver amt code st' :
  sendAmount fuel env1 env2 env3 st sender receiver amt = Some (code, st') ->
  code <> 0 ->
  length (blockVector st') = length (blockVector st)
  /\ exists front back back',
      blockVector st = front ++ [back]
      /\ blockVector st' = front ++ [back']
      /\ index back' = index back
      /\ prevHash back' = prevHash back
      /\ timestamp back' = timestamp back
      /\ transaction back' = transaction back
      /\ padding back' = padding back
      /\ threshold back' = threshold_const
      /\ pow_ok back'
      /\ (forall fuel0 b0 h0,
             hashBlock fuel0 b0 threshold_const = Some (h0, back) ->
             back' = back).
Proof.
  intros Hsend Hcode.
  assert (H : exists front back hash0 back',
             blockVector st = front ++ [back]
             /\ hashBlock fuel back threshold_const = Some (hash0, back')
             /\ blockVector st' = front ++ [back']).
  { unfold sendAmount, bind in Hsend.
    destruct (split_back (blockVector st)) as [[front back]|] eqn:Hsplit;
      [|discriminate].
    apply split_back_app in Hsplit.
    destruct (hashBlock fuel back threshold_const) as [[hash0 back']|] eqn:H0;
      [|discriminate].
    exists front, back, hash0, back'.
    split; [exact Hsplit|]; split; [exact H0|].
    cbn [generateBlock] in Hsend.
    destruct (TransactionType_eqb _ INVALID) in Hsend;
      [injection Hsend as _ <-; reflexivity|].
    destruct (hashBlock fuel _ threshold_const) as [[hash1 transfer']|]
      in Hsend; [|discriminate].
    destruct (TransactionType_eqb _ INVALID) in Hsend;
      [injection Hsend as _ <-; reflexivity|].
    destruct (hashBlock fuel _ threshold_const) as [[hash2 receipt']|]
      in Hsend; [|discriminate].
    destruct (negb _) in Hsend; injection Hsend as <- _; contradiction. }
  destruct H as (front & back & hash0 & back' & Hsplit & H0 & Hst').
  pose proof (hashBlock_mined _ _ _ _ H0) as Hm.
  destruct (mined_fields _ _ _ Hm) as (E1 & E2 & E3 & E4 & E5 & E6).
  split; [rewrite Hsplit, Hst', !length_app; reflexivity|].
  exists front, back, back'.
  repeat (split; [assumption|]).
  split; [eapply mined_pow_ok; exact Hm|].
  intros fuel0 b0 h0 Hprev.
  eapply (hashBlock_idempotent fuel0 fuel b0 threshold_const h0 back);
    [unfold threshold_const, U32_MAX; cbn; lia|exact Hprev|exact H0].
Qed.

Lemma rejected_send_keeps_chain_witness :
  sendAmount 8 (at_tick 15467) (at_tick 15468) (at_tick 15469)
             (state_after (firstn 10 main_calls)) 1 2 75
  = Some (-1, state_after (firstn 11 main_calls))
  /\ -1 <> 0
  /\ length (blockVector (state_after (firstn 11 main_calls)))
     = length (blockVector (state_after (firstn 10 main_calls))).
Proof.
  assert (H : sendAmount 8 (at_tick 15467) (at_tick 15468) (at_tick 15469)
                         (state_after (firstn 10 main_calls)) 1 2 75
              = Some (-1, state_after (firstn 11 main_calls)))
    by (vm_compute; reflexivity).
  assert (Hc : -1 <> 0) by discriminate.
  split; [exact H|].
  split; [exact Hc|].
  exact (proj1 (rejected_send_keeps_chain _ _ _ _ _ _ _ _ _ _ H Hc)).
Defined.

(** C3 as stated fails for a call rejected while the last block is not
    yet mined, here the genesis block: the mining of the last block
    precedes the test of the transfer, so the stored nonce and threshold
    change from 0 and 0 to 5 and [2^20]. *)
Lemma rejected_send_mines_last_counterexample :
  sendAmount 8 (at_tick 1518) (at_tick 1519) (at_tick 1520)
             main_genesis 1 1 50
  = Some (-1, state_after reject_calls)
  /\ map nonce (blockVector main_genesis) = [0]
  /\ map threshold (blockVector main_genesis) = [0]
  /\ map nonce (blockVector (state_after reject_calls)) = [5]
  /\ map threshold (blockVector (state_after reject_calls)) = [1048576]
  /\ blockVector (state_after reject_calls) <> blockVector main_genesis.
Proof.
  repeat (split; [vm_compute; reflexivity|]).
  intros H; apply (f_equal (map threshold)) in H.
  vm_compute in H; discriminate.
Qed.

Lemma is_receipt_of_transfer chain sender receiver amt b acct :
  transaction b = generateTransfer chain sender receiver amt ->
  type (generateTransfer chain sender receiver amt) <> INVALID ->
  is_receipt_of acct b = false.
Proof.
  intros E H; unfold is_receipt_of; rewrite E.
  destruct (generateTransfer_accepted _ _ _ _ H) as (_ & _ & _ & ->).
  cbn [type]; destruct (sender =? 0); reflexivity.
Qed.

(** The balances after an accepted call, in terms of the transaction that
    [generateReturn] has built. *)
Lemma accepted_balances env1 env2 env3 st sender receiver amt st' :
  send_step env1 env2 env3 st sender receiver amt 0 st' ->
  exists chain transfer receipt,
    (forall acct,
        latest_receipt chain acct = latest_receipt (blockVector st) acct)
    /\ map index chain = map index (blockVector st)
    /\ sender <> receiver /\ receiver <> 0
    /\ (sender <> 0 -> amt <= fst (latest_receipt chain sender))
    /\ is_transfer transfer = true
    /\ transaction transfer
       = mkTransaction (if sender =? 0 then GENERATE else TRANSFER)
                       sender receiver
                       (if sender =? 0 then U32_MAX
                        else snd (latest_receipt chain sender))
                       amt
    /\ transaction receipt
       = mkTransaction RECEIPT receiver
                       (snd (latest_receipt chain receiver))
                       (index transfer)
                       (wrap32 (fst (latest_receipt chain receiver) + amt))
    /\ ((type (generateReturn chain transfer receipt) = INVALID
         /\ blockVector st' = (chain ++ [transfer]) ++ [receipt])
        \/ (exists ret,
               type (generateReturn chain transfer receipt) <> INVALID
               /\ transaction ret = generateReturn chain transfer receipt
               /\ blockVector st'
                  = ((chain ++ [transfer]) ++ [receipt]) ++ [ret])).
Proof.
  intros Hstep.
  destruct (send_accepted_inv _ _ _ _ _ _ _ _ Hstep)
    as (front & back & hash0 & back' & transfer & receipt & H).
  cbv zeta in H.
  destruct H as (Hsplit & H0 & Hty & Ht & Hi & Hr & Hret).
  exists (front ++ [back']), transfer, receipt.
  destruct (generateTransfer_accepted _ _ _ _ Hty) as (Hsr & Hr0 & Hbal & Heq).
  assert (Hist : is_transfer transfer = true)
    by (eapply generateTransfer_is_transfer; [exact Ht|rewrite Ht; exact Hty]).
  rewrite (generateReceipt_eq _ _ Hist) in Hr.
  rewrite Heq in Ht.
  unfold receiverAccount, amount in Hr; rewrite Ht in Hr; cbn [word2 word4] in Hr.
  split; [intros acct; rewrite Hsplit; eapply latest_receipt_mined; exact H0|].
  split; [rewrite Hsplit; eapply mined_index_map; exact H0|].
  repeat (split; [assumption|]).
  exact Hret.
Qed.

(** C1, as the code has it.  On a ledger reached while the counter of
    [generateBlock] has not wrapped, an accepted call with a sender other
    than 0 lowers the sender's latest balance by the amount and turns the
    receiver's latest balance into the 32-bit sum of that balance and the
    amount; the sum is the exact one whenever it fits in 32 bits. *)
Theorem conservation
        k st fuel env1 env2 env3 sender receiver amt st' :
  reachable k st ->
  3 * Z.of_nat k + 1 <= U32_MAX ->
  u32 amt ->
  sender <> 0 ->
  sendAmount fuel env1 env2 env3 st sender receiver amt = Some (0, st') ->
  receiver <> sender
  /\ fst (latest_receipt (blockVector st') sender)
     = fst (latest_receipt (blockVector st) sender) - amt
  /\ fst (latest_receipt (blockVector st') receiver)
     = wrap32 (fst (latest_receipt (blockVector st) receiver) + amt)
  /\ (fst (latest_receipt (blockVector st) receiver) + amt <= U32_MAX ->
      fst (latest_receipt (blockVector st') receiver)
      = fst (latest_receipt (blockVector st) receiver) + amt).
Proof.
  intros Hreach Hk Hamt Hs Hsend.
  apply sendAmount_step in Hsend.
  destruct (accepted_balances _ _ _ _ _ _ _ _ Hsend)
    as (chain & transfer & receipt & Hlatest & Hidx & Hsr & Hr0 & Hbal
        & Hist & Ht & Hr & Hret).
  specialize (Hbal Hs).
  destruct (Z.eqb_spec sender 0) as [|_]; [contradiction|].
  (* facts about the ledger before the call *)
  destruct (reachable_indices k st Hreach) as [Hc Hok].
  destruct (Hok Hk) as (_ & Hinc & Hall).
  rewrite <- Hidx in Hinc, Hall.
  pose proof (reachable_receipts k st Hreach) as Hrec.
  assert (Hrange : u32 (fst (latest_receipt chain receiver))).
  { rewrite Hlatest.
    destruct (latest_receipt_found (blockVector st) receiver)
      as [->|(b & Hin & Hty & _ & ->)]; cbn [fst].
    - unfold u32, U32_MAX; lia.
    - rewrite Forall_forall in Hrec; apply (Hrec b Hin Hty). }
  rewrite <- !Hlatest.
  (* the three blocks as the scans see them *)
  assert (Hnt : forall acct, is_receipt_of acct transfer = false).
  { intros acct; unfold is_receipt_of; rewrite Ht; reflexivity. }
  assert (Hrs : is_receipt_of sender receipt = false).
  { unfold is_receipt_of, account; rewrite Hr; cbn [type word1].
    cbn [TransactionType_eqb andb].
    apply Z.eqb_neq; congruence. }
  assert (Hrr : is_receipt_of receiver receipt = true).
  { unfold is_receipt_of, account; rewrite Hr; cbn [type word1].
    cbn [TransactionType_eqb andb]; apply Z.eqb_refl. }
  assert (Hwrap : fst (latest_receipt chain receiver) + amt <= U32_MAX ->
                  wrap32 (fst (latest_receipt chain receiver) + amt)
                  = fst (latest_receipt chain receiver) + amt).
  { intros Hle; apply wrap32_small; unfold u32 in *; lia. }
  split; [congruence|].
  destruct (generateReturn_cases chain transfer receipt)
    as [[Hinv Hwhy]|(_ & _ & Hprev & Hgen)];
    destruct Hret as [[Hinv' ->]|(ret & Hvalid & Hrt & ->)];
    try contradiction; try (rewrite Hgen in Hinv'; discriminate).
  - (* no return block: the sender had no receipt *)
    destruct Hwhy as [Hw|[Hw|Hw]];
      [congruence|rewrite Hr in Hw; contradiction|].
    unfold transfer_prevReceipt in Hw; rewrite Ht in Hw; cbn [word3] in Hw.
    assert (Hzero : fst (latest_receipt chain sender) = 0).
    { destruct (latest_receipt_found chain sender)
        as [->|(b & Hin & _ & _ & Hb)]; [reflexivity|].
      rewrite Hb in Hw; cbn [snd] in Hw.
      rewrite Forall_forall in Hall.
      pose proof (Hall (index b) (in_map index _ _ Hin)) as Hlt.
      unfold U32_MAX in *; lia. }
    assert (amt = 0) by (unfold u32 in Hamt; lia); subst amt.
    rewrite !latest_receipt_snoc, Hrs, Hrr, Hnt.
    rewrite Hr; cbn [fst balance word4].
    split; [lia|split; [reflexivity|exact Hwrap]].
  - (* a return block *)
    rewrite Hgen in Hrt.
    assert (Hts : is_receipt_of sender ret = true).
    { unfold is_receipt_of, account, senderAccount; rewrite Hrt, Ht.
      cbn [type word1 TransactionType_eqb andb]; apply Z.eqb_refl. }
    assert (Htr : is_receipt_of receiver ret = false).
    { unfold is_receipt_of, account, senderAccount; rewrite Hrt, Ht.
      cbn [type word1 TransactionType_eqb andb]; apply Z.eqb_neq; exact Hsr. }
    rewrite !latest_receipt_snoc, Hts, Htr, Hrr.
    rewrite Hrt, Hr; cbn [fst balance word4].
    split; [|split; [reflexivity|exact Hwrap]].
    unfold transfer_prevReceipt, amount in *.
    rewrite Ht in Hprev |- *; cbn [word3 word4] in Hprev |- *.
    destruct (latest_receipt_found chain sender)
      as [Hnone|(b & Hin & Hty & _ & Hb)].
    + rewrite Hnone in Hprev; contradiction.
    + rewrite Hb in Hbal |- *; cbn [fst snd] in Hbal |- *.
      rewrite (balance_at_index chain b Hinc Hin).
      apply wrap32_small.
      assert (Hu : u32 (balance (transaction b))).
      { destruct (latest_receipt_found (blockVector st) sender)
          as [Hn|(b' & Hin2 & Hty2 & _ & Hb2)].
        - rewrite <- Hlatest, Hb in Hn.
          injection Hn as Hn _; rewrite Hn; unfold u32, U32_MAX; lia.
        - rewrite <- Hlatest, Hb in Hb2.
          injection Hb2 as -> _.
          rewrite Forall_forall in Hrec; apply (Hrec b' Hin2 Hty2). }
      unfold u32 in *; lia.
Qed.

Lemma conservation_witness :
  reachable 8 (state_after (firstn 8 main_calls))
  /\ 3 * Z.of_nat 8 + 1 <= U32_MAX
  /\ u32 75
  /\ 1 <> 0
  /\ sendAmount 8 (at_tick 8976) (at_tick 10745) (at_tick 13593)
                (state_after (firstn 8 main_calls)) 1 2 75
     = Some (0, state_after (firstn 9 main_calls))
  /\ fst (latest_receipt (blockVector (state_after (firstn 9 main_calls))) 1)
     = fst (latest_receipt (blockVector (state_after (firstn 8 main_calls))) 1)
       - 75
  /\ fst (latest_receipt (blockVector (state_after (firstn 8 main_calls))) 1)
     = 200
  /\ fst (latest_receipt (blockVector (state_after (firstn 9 main_calls))) 2)
     = 75.
Proof.
  assert (Hk : 3 * Z.of_nat 8 + 1 <= U32_MAX) by (vm_compute; discriminate).
  assert (Ha : u32 75) by (unfold u32, U32_MAX; lia).
  assert (Hs : 1 <> 0) by discriminate.
  assert (H : sendAmount 8 (at_tick 8976) (at_tick 10745) (at_tick 13593)
                         (state_after (firstn 8 main_calls)) 1 2 75
              = Some (0, state_after (firstn 9 main_calls)))
    by (vm_compute; reflexivity).
  split; [exact main_after_8_reachable|].
  split; [exact Hk|].
  split; [exact Ha|].
  split; [exact Hs|].
  split; [exact H|].
  split; [|split; vm_compute; reflexivity].
  exact (proj1 (proj2 (conservation 8 _ _ _ _ _ 1 2 75 _
                                    main_after_8_reachable Hk Ha Hs H))).
Defined.

(** C1 as stated fails in two ways.  The receiver's balance overflows:
    after a mint of [U32_MAX] to account 1 and a mint of 1 to account 2,
    the accepted transfer of 1 from account 2 to account 1 leaves
    account 1 with balance 0, not with [U32_MAX + 1].  And once the
    counter has given the index [U32_MAX] to the sender's latest receipt,
    which is what [generateReturn] takes for the absence of a receipt,
    an accepted transfer appends no return block: account 1 sends 30 and
    keeps its balance of 50. *)
Lemma conservation_counterexample :
  (reachable 2 (state_after (firstn 2 overflow_calls))
   /\ sendAmount 8 (at_tick 3308) (at_tick 5123) (at_tick 6051)
                 (state_after (firstn 2 overflow_calls)) 2 1 1
      = Some (0, state_after overflow_calls)
   /\ fst (latest_receipt
             (blockVector (state_after (firstn 2 overflow_calls))) 1)
      = 4294967295
   /\ fst (latest_receipt (blockVector (state_after overflow_calls)) 1) = 0
   /\ 0 <> 4294967295 + 1)
  /\ (exists k, reachable k (late_after (firstn 1 late_calls)))
  /\ sendAmount 8 (at_tick 25306) (at_tick 25465) (at_tick 25466)
                (late_after (firstn 1 late_calls)) 1 2 30
     = Some (0, late_after late_calls)
  /\ latest_receipt (blockVector (late_after (firstn 1 late_calls))) 1
     = (50, U32_MAX)
  /\ latest_receipt (blockVector (late_after late_calls)) 1 = (50, U32_MAX)
  /\ fst (latest_receipt (blockVector (late_after late_calls)) 2) = 30
  /\ 50 <> 50 - 30.
Proof.
  split.
  - split.
    + apply (run_reachable 8 (firstn 2 overflow_calls) 0 main_genesis [0; 0]).
      * apply reachable_genesis.
      * vm_compute; reflexivity.
      * vm_compute; reflexivity.
    + repeat (split; [vm_compute; reflexivity|]).
      discriminate.
  - split.
    + destruct late_reachable as (k & Hk & _); exists k; exact Hk.
    + repeat (split; [vm_compute; reflexivity|]).
      discriminate.
Qed.

(** * Mints *)



Lemma run_cons fuel st c calls codes st' :
  run fuel st (c :: calls) = Some (codes, st') ->
  exists code st1 codes',
    sendAmount fuel (call_env1 c) (call_env2 c) (call_env3 c) st
               (call_sender c) (call_receiver c) (call_amount c)
    = Some (code, st1)
    /\ run fuel st1 calls = Some (codes', st')
    /\ codes = code :: codes'.
Proof.
  cbn [run]; unfold bind; intros Hrun.
  destruct (sendAmount fuel (call_env1 c) (call_env2 c) (call_env3 c) st
                       (call_sender c) (call_receiver c) (call_amount c))
    as [[code st1]|] eqn:Hsend; [|discriminate].
  destruct (run fuel st1 calls) as [[codes' st2]|] eqn:Hrest; [|discriminate].
  injection Hrun as <- <-.
  exists code, st1, codes'; repeat split; assumption.
Qed.


(** ** Calls that return *)

Lemma first_mined_mined b h b' : first_mined b h b' -> mined b h b'.
Proof.
  intros (n & Hn & Hacc & _ & -> & ->).
  exists n; repeat split; try apply Hn; exact Hacc.
Qed.



(** A block with some accepted nonce has a first one. *)
Lemma accepted_first_mined b n :
  u32 n ->
  digest_at (set_threshold b threshold_const) n <= threshold_const ->
  exists h b', first_mined b h b'.
Proof.
  intros Hn Hacc.
  destruct (hashBlock_loop_complete
              threshold_const n (Z.to_nat n) (S (Z.to_nat n))
              (set_threshold b threshold_const) U32_MAX 0)
    as (n0 & Hn0 & Hacc0 & Hfirst0 & _);
    try (unfold u32 in Hn; lia); try exact Hacc.
  { unfold threshold_const, U32_MAX; cbn; lia. }
  exists (digest_at (set_threshold b threshold_const) n0),
    (set_nonce (set_threshold b threshold_const) n0), n0.
  unfold u32 in *; repeat split; try lia; assumption.
Qed.


Lemma send_first_step env1 env2 env3 st sender receiver amt code st' :
  send_first env1 env2 env3 st sender receiver amt code st' ->
  send_step env1 env2 env3 st sender receiver amt code st'.
Proof.
  intros [front back hash0 back' Hsplit H0 Htx
         |front back hash0 back' hash1 transfer' hash2 receipt' ret
            chain counter1 counter2 Hsplit H0 Htx H1 H2 Hret].
  - eapply send_rejected; [exact Hsplit| |exact Htx].
    eapply first_mined_mined; exact H0.
  - eapply send_accepted;
      [exact Hsplit| |exact Htx| | |exact Hret];
      eapply first_mined_mined; eassumption.
Qed.








(** * The return receipt *)

(** [generateReturn] rejects exactly the three cases of lines 153-165 and
    otherwise builds a receipt whose [prevReceipt] word is the sender's
    account number. *)
Lemma generateReturn_spec chain transferBlock receiptBlock :
  let t := generateReturn chain transferBlock receiptBlock in
  (type t = INVALID
   <-> (is_transfer transferBlock = false
        \/ type (transaction receiptBlock) <> RECEIPT
        \/ transfer_prevReceipt (transaction transferBlock) = U32_MAX))
  /\ (type t <> INVALID ->
      type t = RECEIPT
      /\ account t = senderAccount (transaction transferBlock)
      /\ receipt_prevReceipt t = senderAccount (transaction transferBlock)
      /\ prevTransfer t = index receiptBlock
      /\ balance t
         = wrap32 (balance_at chain (transfer_prevReceipt
                                       (transaction transferBlock))
                   - amount (transaction transferBlock))).
Proof.
  cbv zeta.
  destruct (generateReturn_cases chain transferBlock receiptBlock)
    as [[Hinv Hwhy]|(H1 & H2 & H3 & Heq)].
  - split; [split; auto|intros; contradiction].
  - rewrite Heq; cbn [type]; split.
    + split; [discriminate|].
      intros [Hw|[Hw|Hw]]; [congruence|contradiction|contradiction].
    + intros _; repeat split.
Qed.

(** C4 at the second call of the script [return_calls],
    [sendAmount(1, 2, 30)]: the latest receipt of the sender, account 1,
    is the block of index 2, yet the return receipt which
    [generateReturn] builds, and which the call appends, carries 1 (the
    account number) in [prevReceipt]. *)
Theorem return_receipt_links_account :
  sendAmount 8 (at_tick 3398) (at_tick 3970) (at_tick 5200)
             (state_after (firstn 1 return_calls)) 1 2 30
  = Some (0, state_after return_calls)
  /\ latest_receipt (blockVector (state_after (firstn 1 return_calls))) 1
     = (50, 2)
  /\ transaction (block_at (state_after return_calls) 3)
     = mkTransaction TRANSFER 1 2 2 30
  /\ transaction (block_at (state_after return_calls) 4)
     = mkTransaction RECEIPT 2 U32_MAX 4 30
  /\ generateReturn (firstn 3 (blockVector (state_after return_calls)))
                    (block_at (state_after return_calls) 3)
                    (block_at (state_after return_calls) 4)
     = mkTransaction RECEIPT 1 1 5 20
  /\ transaction (block_at (state_after return_calls) 5)
     = mkTransaction RECEIPT 1 1 5 20
  /\ receipt_prevReceipt (transaction (block_at (state_after return_calls) 5))
     <> snd (latest_receipt
               (blockVector (state_after (firstn 1 return_calls))) 1).
Proof.
  repeat (split; [vm_compute; reflexivity|]).
  vm_compute; discriminate.
Qed.

(** * Further properties of the code *)

(** ** The digest (lines 68-75) *)

Lemma byte_Forall (l : list Z) :
  Forall byte l -> Forall (fun p => 0 <= p < 256) l.
Proof. intros H; exact H. Qed.

Lemma fnv_fold_injective (l : list Z) (h1 h2 : Z) :
  Forall byte l -> u32 h1 -> u32 h2 ->
  fold_left fnv_step l h1 = fold_left fnv_step l h2 -> h1 = h2.
Proof.
  intros Hl H1 H2 E.
  rewrite <- (unfold_suffix_fold l (byte_Forall l Hl) h1 H1).
  rewrite <- (unfold_suffix_fold l (byte_Forall l Hl) h2 H2).
  rewrite E; reflexivity.
Qed.

Lemma fnv_same_suffix_eq (a b s : list Z) :
  Forall byte s ->
  fnv_hash_1a_32 (a ++ s) = fnv_hash_1a_32 (b ++ s) ->
  fnv_hash_1a_32 a = fnv_hash_1a_32 b.
Proof.
  intros Hs E; rewrite !fnv_hash_app in E.
  eapply fnv_fold_injective; [exact Hs| | |exact E]; apply fnv_hash_u32.
Qed.

(** X1.  Bytes appended to two keys never make their digests meet: when
    [a] and [b] have different digests, so have [a ++ s] and [b ++ s],
    for any bytes [s]. *)
Theorem fnv_same_suffix (a b s : list Z) :
  Forall byte s ->
  fnv_hash_1a_32 a <> fnv_hash_1a_32 b ->
  fnv_hash_1a_32 (a ++ s) <> fnv_hash_1a_32 (b ++ s).
Proof.
  intros Hs Hne E; apply Hne.
  eapply fnv_same_suffix_eq; eassumption.
Qed.

Lemma fnv_same_suffix_witness :
  Forall byte [1; 2]
  /\ fnv_hash_1a_32 [7] <> fnv_hash_1a_32 [8; 9]
  /\ fnv_hash_1a_32 ([7] ++ [1; 2]) <> fnv_hash_1a_32 ([8; 9] ++ [1; 2]).
Proof.
  assert (H : Forall byte [1; 2]) by (repeat constructor; unfold byte; lia).
  assert (Hne : fnv_hash_1a_32 [7] <> fnv_hash_1a_32 [8; 9])
    by (vm_compute; discriminate).
  split; [exact H|]; split; [exact Hne|].
  exact (fnv_same_suffix [7] [8; 9] [1; 2] H Hne).
Defined.

(** X2.  Two keys which differ in exactly one byte have different
    digests. *)
Theorem fnv_one_byte (a s : list Z) (p q : Z) :
  byte p -> byte q -> Forall byte s ->
  p <> q ->
  fnv_hash_1a_32 (a ++ p :: s) <> fnv_hash_1a_32 (a ++ q :: s).
Proof.
  intros Hp Hq Hs Hne E.
  change (a ++ p :: s) with (a ++ [p] ++ s) in E.
  change (a ++ q :: s) with (a ++ [q] ++ s) in E.
  rewrite !app_assoc in E.
  apply fnv_same_suffix_eq in E; [|exact Hs].
  rewrite !fnv_hash_app in E; cbn [fold_left] in E.
  apply (f_equal fnv_unmul) in E.
  rewrite !fnv_unmul_step in E by (try apply fnv_hash_u32; assumption).
  apply (f_equal (Z.lxor (fnv_hash_1a_32 a))) in E.
  rewrite <- !Z.lxor_assoc, Z.lxor_nilpotent, !Z.lxor_0_l in E.
  contradiction.
Qed.

Lemma fnv_one_byte_witness :
  byte 0 /\ byte 1 /\ Forall byte [9] /\ 0 <> 1
  /\ fnv_hash_1a_32 ([5] ++ 0 :: [9]) <> fnv_hash_1a_32 ([5] ++ 1 :: [9]).
Proof.
  assert (H0 : byte 0) by (unfold byte; lia).
  assert (H1 : byte 1) by (unfold byte; lia).
  assert (Hs : Forall byte [9]) by (repeat constructor; unfold byte; lia).
  assert (Hne : 0 <> 1) by discriminate.
  split; [exact H0|]; split; [exact H1|]; split; [exact Hs|];
    split; [exact Hne|].
  exact (fnv_one_byte [5] [9] 0 1 H0 H1 Hs Hne).
Defined.

(** ** The byte image (lines 49-56, 205) and [generateBlank] (lines 77-82) *)

Lemma byte_of_div (x k : Z) :
  0 <= k -> byte_of x k = (x / 2 ^ (8 * k)) mod 256.
Proof.
  intros Hk; unfold byte_of.
  change 255 with (Z.ones 8).
  rewrite Z.land_ones, Z.shiftr_div_pow2 by lia; reflexivity.
Qed.

(** A 32-bit word is the sum of its four bytes. *)
Lemma le32_sum (x : Z) :
  u32 x ->
  x = byte_of x 0 + 256 * byte_of x 1 + 65536 * byte_of x 2
      + 16777216 * byte_of x 3.
Proof.
  unfold u32, U32_MAX; intros H.
  rewrite !byte_of_div by lia.
  change (2 ^ (8 * 0)) with 1; change (2 ^ (8 * 1)) with 256;
    change (2 ^ (8 * 2)) with 65536; change (2 ^ (8 * 3)) with 16777216.
  Z.div_mod_to_equations; lia.
Qed.

(** The four bytes that [memcpy] finds in a word made of four bytes. *)
Lemma le32_of_bytes (d0 d1 d2 d3 : Z) :
  byte d0 -> byte d1 -> byte d2 -> byte d3 ->
  le32 (d0 + 256 * d1 + 65536 * d2 + 16777216 * d3) = [d0; d1; d2; d3].
Proof.
  unfold byte, le32; intros H0 H1 H2 H3.
  rewrite !byte_of_div by lia.
  change (2 ^ (8 * 0)) with 1; change (2 ^ (8 * 1)) with 256;
    change (2 ^ (8 * 2)) with 65536; change (2 ^ (8 * 3)) with 16777216.
  repeat f_equal; Z.div_mod_to_equations; lia.
Qed.

Lemma le32_inj (x y : Z) : u32 x -> u32 y -> le32 x = le32 y -> x = y.
Proof.
  intros Hx Hy E; unfold le32 in E.
  injection E as E0 E1 E2 E3.
  rewrite (le32_sum x Hx), (le32_sum y Hy), E0, E1, E2, E3; reflexivity.
Qed.

(** The eight bytes of a signed 64-bit value, in two's complement,
    determine it. *)
Lemma le64_inj (x y : Z) :
  - 2 ^ 63 <= x < 2 ^ 63 -> - 2 ^ 63 <= y < 2 ^ 63 ->
  le64 x = le64 y -> x = y.
Proof.
  intros Hx Hy E; unfold le64, le32 in E; cbn [app] in E.
  injection E as E0 E1 E2 E3 E4 E5 E6 E7.
  rewrite !byte_of_div in * by lia.
  change (2 ^ (8 * 0)) with 1 in *; change (2 ^ (8 * 1)) with 256 in *;
    change (2 ^ (8 * 2)) with 65536 in *;
    change (2 ^ (8 * 3)) with 16777216 in *;
    change (2 ^ (8 * 4)) with 4294967296 in *;
    change (2 ^ (8 * 5)) with 1099511627776 in *;
    change (2 ^ (8 * 6)) with 281474976710656 in *;
    change (2 ^ (8 * 7)) with 72057594037927936 in *;
    change (2 ^ 63) with 9223372036854775808 in *.
  Z.div_mod_to_equations; lia.
Qed.

Lemma TransactionType_value_inj (t t' : TransactionType) :
  le32 (TransactionType_value t) = le32 (TransactionType_value t') -> t = t'.
Proof.
  destruct t, t'; intros E; try reflexivity; vm_compute in E; discriminate.
Qed.

Lemma app_inj_length {A : Type} (a a' b b' : list A) :
  length a = length a' -> a ++ b = a' ++ b' -> a = a' /\ b = b'.
Proof.
  revert a'; induction a as [|x a IH]; intros [|x' a'] Hlen E;
    try discriminate.
  - split; [reflexivity|exact E].
  - injection E as -> E; injection Hlen as Hlen.
    destruct (IH a' Hlen E) as [-> ->]; split; reflexivity.
Qed.

(** X3.  The byte image determines the block: two blocks whose fields
    hold values of their C++ types (unsigned 32-bit words, a signed
    64-bit tick count, negative ticks included) and whose 48 bytes are
    the same are the same block. *)
Theorem image_injective (b c : Block) :
  block_in_range b -> block_in_range c -> image b = image c -> b = c.
Proof.
  intros (Hb1 & Hb2 & Hb3 & (Hb4 & Hb5 & Hb6 & Hb7) & Hb8 & Hb9 & Hb10)
         (Hc1 & Hc2 & Hc3 & (Hc4 & Hc5 & Hc6 & Hc7) & Hc8 & Hc9 & Hc10) E.
  destruct b as [bi bp bt [bty b1 b2 b3 b4] bn bth bpad].
  destruct c as [ci cp ct [cty c1 c2 c3 c4] cn cth cpad].
  cbn [index prevHash timestamp transaction nonce threshold padding
       type word1 word2 word3 word4] in *.
  unfold image, image_transaction in E.
  cbn [index prevHash timestamp transaction nonce threshold padding
       type word1 word2 word3 word4] in E.
  rewrite <- !app_assoc in E.
  apply app_inj_length in E as [E1 E]; [|reflexivity].
  apply app_inj_length in E as [E2 E]; [|reflexivity].
  apply app_inj_length in E as [E3 E]; [|reflexivity].
  apply app_inj_length in E as [E4 E]; [|reflexivity].
  apply app_inj_length in E as [E5 E]; [|reflexivity].
  apply app_inj_length in E as [E6 E]; [|reflexivity].
  apply app_inj_length in E as [E7 E]; [|reflexivity].
  apply app_inj_length in E as [E8 E]; [|reflexivity].
  apply app_inj_length in E as [E9 E]; [|reflexivity].
  apply app_inj_length in E as [E10 E11]; [|reflexivity].
  apply le32_inj in E1, E2, E5, E6, E7, E8, E9, E10, E11; try assumption.
  apply le64_inj in E3; try assumption.
  apply TransactionType_value_inj in E4.
  subst; reflexivity.
Qed.

Lemma image_injective_witness :
  block_in_range early_block
  /\ block_in_range (set_nonce early_block 0)
  /\ image early_block = image (set_nonce early_block 0)
  /\ early_block = set_nonce early_block 0.
Proof.
  assert (H1 : block_in_range early_block)
    by (unfold block_in_range, transaction_in_range, u32; vm_compute;
        repeat split; discriminate).
  assert (H2 : block_in_range (set_nonce early_block 0))
    by (unfold block_in_range, transaction_in_range, u32; vm_compute;
        repeat split; discriminate).
  assert (H3 : image early_block = image (set_nonce early_block 0))
    by (vm_compute; reflexivity).
  split; [exact H1|]; split; [exact H2|]; split; [exact H3|].
  exact (image_injective _ _ H1 H2 H3).
Defined.

(** X4.  [generateBlank] copies its sixteen bytes unchanged: the image of
    the transaction is the tag of [INVALID], four bytes 255, followed by
    the data. *)
Theorem generateBlank_image (data : list Z) :
  length data = 16%nat -> Forall byte data ->
  type (generateBlank data) = INVALID
  /\ image_transaction (generateBlank data) = [255; 255; 255; 255] ++ data.
Proof.
  intros Hlen Hbytes; split; [reflexivity|].
  do 16 (destruct data as [|? data]; [discriminate|]).
  destruct data; [|discriminate].
  repeat match goal with
         | H : Forall byte (_ :: _) |- _ => inversion H; clear H; subst
         end.
  unfold image_transaction, generateBlank, blank_word.
  cbn [type word1 word2 word3 word4 TransactionType_value nth Nat.mul Nat.add].
  rewrite !le32_of_bytes by assumption.
  reflexivity.
Qed.

Lemma generateBlank_image_witness :
  length kayne = 16%nat
  /\ Forall byte kayne
  /\ image_transaction (generateBlank kayne) = [255; 255; 255; 255] ++ kayne.
Proof.
  assert (H1 : length kayne = 16%nat) by reflexivity.
  assert (H2 : Forall byte kayne)
    by (repeat constructor; unfold byte; lia).
  split; [exact H1|]; split; [exact H2|].
  exact (proj2 (generateBlank_image kayne H1 H2)).
Defined.

(** ** The miner (lines 199-208) *)

(** X5.  Whatever [hashBlock] returns for a 32-bit threshold [t]: the
    block keeps every field but the nonce and the threshold, its
    threshold is [t], and the value returned is a 32-bit value within
    [t].  Below [U32_MAX] that value is the digest of the block as left,
    whose nonce is a 32-bit value; at [U32_MAX] it is [U32_MAX] itself
    and the nonce is untouched. *)
Theorem hashBlock_result (fuel : nat) (b : Block) (t h : Z) (b' : Block) :
  u32 t ->
  hashBlock fuel b t = Some (h, b') ->
  same_content b' b
  /\ threshold b' = t
  /\ 0 <= h <= t
  /\ (t < U32_MAX ->
      h = fnv_hash_1a_32 (image b') /\ u32 (nonce b'))
  /\ (t = U32_MAX -> h = U32_MAX /\ nonce b' = nonce b).
Proof.
  intros Ht Hrun; unfold hashBlock in Hrun.
  destruct (Z_lt_le_dec t U32_MAX) as [Hlt|Hge].
  - apply hashBlock_loop_sound in Hrun; [|lia|unfold u32, U32_MAX; lia].
    destruct Hrun as (n & Hn & -> & Hh & Hle).
    repeat split; try assumption; try lia.
    + rewrite Hh; apply fnv_hash_u32.
    + apply Hn.
    + apply Hn.
  - rewrite hashBlock_loop_done in Hrun by lia.
    injection Hrun as <- <-.
    unfold u32 in Ht; repeat split; try lia; unfold U32_MAX; lia.
Qed.

Lemma hashBlock_result_witness :
  u32 1048576
  /\ hashBlock 8 genesis_block 1048576 = Some (652917, mined_genesis)
  /\ same_content mined_genesis genesis_block
  /\ threshold mined_genesis = 1048576
  /\ 0 <= 652917 <= 1048576.
Proof.
  assert (H1 : u32 1048576) by (unfold u32, U32_MAX; lia).
  assert (H2 : hashBlock 8 genesis_block 1048576
               = Some (652917, mined_genesis)) by (vm_compute; reflexivity).
  split; [exact H1|]; split; [exact H2|].
  destruct (hashBlock_result 8 genesis_block 1048576 652917 mined_genesis
                             H1 H2) as (Ha & Hb & Hc & _).
  split; [exact Ha|]; split; [exact Hb|exact Hc].
Defined.

(** X6.  Below [U32_MAX] the nonce and the threshold found in a block do
    not influence its mining: blocks which agree on their other fields
    are mined alike.  So the fields which [generateBlock] leaves
    uninitialised do not matter once the block is mined. *)
Theorem hashBlock_ignores_stale_fields (fuel : nat) (b c : Block) (t : Z) :
  t < U32_MAX ->
  same_content b c ->
  hashBlock fuel b t = hashBlock fuel c t.
Proof.
  intros Ht (E1 & E2 & E3 & E4 & E5).
  assert (E : set_nonce (set_threshold b t) 0 = set_nonce (set_threshold c t) 0).
  { unfold set_nonce, set_threshold; cbn.
    rewrite E1, E2, E3, E4, E5; reflexivity. }
  unfold hashBlock.
  destruct fuel as [|fuel].
  - rewrite !hashBlock_loop_out_of_fuel by lia; reflexivity.
  - rewrite !hashBlock_loop_step by lia.
    unfold digest_at; rewrite E; reflexivity.
Qed.

Lemma hashBlock_ignores_stale_fields_witness :
  1048576 < U32_MAX
  /\ same_content stale_block mined_genesis
  /\ hashBlock 8 stale_block 1048576 = hashBlock 8 mined_genesis 1048576.
Proof.
  assert (H1 : 1048576 < U32_MAX) by (unfold U32_MAX; lia).
  assert (H2 : same_content stale_block mined_genesis)
    by (repeat split).
  split; [exact H1|]; split; [exact H2|].
  exact (hashBlock_ignores_stale_fields 8 _ _ 1048576 H1 H2).
Defined.

(** X7.  A mined block is a fixed point of the miner: when [hashBlock]
    returns [h] and leaves [b'], mining [b'] again at the same threshold
    returns [h] again and leaves [b'] as it is. *)
Theorem hashBlock_again (fuel : nat) (b : Block) (t h : Z) (b' : Block) :
  hashBlock fuel b t = Some (h, b') ->
  hashBlock fuel b' t = Some (h, b').
Proof.
  intros Hrun.
  destruct (Z_lt_le_dec t U32_MAX) as [Hlt|Hge].
  - assert (Hn : exists n, b' = set_nonce (set_threshold b t) n).
    { unfold hashBlock in Hrun.
      apply hashBlock_loop_sound in Hrun; [|lia|unfold u32, U32_MAX; lia].
      destruct Hrun as (n & _ & -> & _); exists n; reflexivity. }
    destruct Hn as (n & ->).
    rewrite hashBlock_after_mining by assumption; exact Hrun.
  - unfold hashBlock in *.
    rewrite hashBlock_loop_done in Hrun by lia.
    injection Hrun as <- <-.
    apply hashBlock_loop_done; lia.
Qed.

Lemma hashBlock_again_witness :
  hashBlock 8 genesis_block 1048576 = Some (652917, mined_genesis)
  /\ hashBlock 8 mined_genesis 1048576 = Some (652917, mined_genesis).
Proof.
  assert (H : hashBlock 8 genesis_block 1048576
              = Some (652917, mined_genesis)) by (vm_compute; reflexivity).
  split; [exact H|].
  exact (hashBlock_again 8 genesis_block 1048576 652917 mined_genesis H).
Defined.

(** X8.  Below [U32_MAX], [hashBlock] returns, for a number of
    iterations large enough, exactly when some 32-bit nonce gives the
    block a digest within the threshold; otherwise the loop runs for
    ever, the nonce wrapping around. *)
Theorem hashBlock_returns_iff (b : Block) (t : Z) :
  0 <= t < U32_MAX ->
  ((exists fuel h b', hashBlock fuel b t = Some (h, b'))
   <-> (exists n, u32 n /\ digest_at (set_threshold b t) n <= t))
  /\ ((forall n, u32 n -> digest_at (set_threshold b t) n > t) ->
      forall fuel, hashBlock fuel b t = None).
Proof.
  intros Ht; split; [split|].
  - intros (fuel & h & b' & Hrun); unfold hashBlock in Hrun.
    apply hashBlock_loop_sound in Hrun; [|lia|unfold u32, U32_MAX; lia].
    destruct Hrun as (n & Hn & -> & -> & Hle).
    exists n; split; [exact Hn|exact Hle].
  - intros (n & Hn & Hacc).
    destruct (hashBlock_loop_complete t n (Z.to_nat n) (S (Z.to_nat n))
                (set_threshold b t) U32_MAX 0)
      as (n0 & _ & _ & _ & Hrun); unfold u32 in Hn; try lia; try assumption.
    exists (S (Z.to_nat n)), (digest_at (set_threshold b t) n0),
      (set_nonce (set_threshold b t) n0); exact Hrun.
  - intros Hnone fuel; unfold hashBlock.
    apply hashBlock_loop_diverges; [exact Hnone|lia|unfold u32, U32_MAX; lia].
Qed.

Lemma hashBlock_returns_iff_witness :
  0 <= 1 < U32_MAX
  /\ (forall n, u32 n -> digest_at (set_threshold genesis_block 1) n > 1)
  /\ forall fuel, hashBlock fuel genesis_block 1 = None.
Proof.
  assert (H1 : 0 <= 1 < U32_MAX) by (unfold U32_MAX; lia).
  assert (H2 : forall n, u32 n ->
                         digest_at (set_threshold genesis_block 1) n > 1)
    by (intros n _; apply genesis_block_unminable).
  split; [exact H1|]; split; [exact H2|].
  exact (proj2 (hashBlock_returns_iff genesis_block 1 H1) H2).
Defined.

(** ** The reverse scans (lines 95-101, 131-137, 168-175) *)

(** X9.  [latest_receipt] returns the balance and the index of the last
    receipt of the account on the chain, and [(0, U32_MAX)] when the
    chain, possibly empty, holds no receipt of the account. *)
Theorem latest_receipt_last (chain : list Block) (acct : Z) :
  (latest_receipt chain acct = (0, U32_MAX)
   /\ Forall (fun b => is_receipt_of acct b = false) chain)
  \/ (exists before b after,
         chain = before ++ b :: after
         /\ is_receipt_of acct b = true
         /\ Forall (fun c => is_receipt_of acct c = false) after
         /\ latest_receipt chain acct = (balance (transaction b), index b)).
Proof.
  induction chain as [|x chain IH] using rev_ind.
  - left; split; [reflexivity|constructor].
  - rewrite latest_receipt_snoc.
    destruct (is_receipt_of acct x) eqn:Hx.
    + right; exists chain, x, []; repeat split; auto.
    + destruct IH as [[Hnone Hall]|(before & b & after & -> & Hb & Hafter & Hl)].
      * left; split; [exact Hnone|].
        apply Forall_app; split; [exact Hall|constructor; auto].
      * right; exists before, b, (after ++ [x]).
        rewrite <- app_assoc; repeat split; auto.
        apply Forall_app; split; [exact Hafter|constructor; auto].
Qed.

Lemma balance_at_absent (chain : list Block) (i : Z) :
  Forall (fun b => index b <> i) chain -> balance_at chain i = U32_MAX.
Proof.
  intros H; unfold balance_at.
  destruct (find (fun b => index b =? i) (rev chain)) as [b|] eqn:Hfind;
    [|reflexivity].
  apply find_some in Hfind as [Hin Hb].
  apply in_rev in Hin; apply Z.eqb_eq in Hb.
  rewrite Forall_forall in H; destruct (H b Hin Hb).
Qed.

(** X10.  [generateReturn] does not reject a transfer whose [prevReceipt]
    is the index of no block of the chain: it builds the return receipt
    from the balance [U32_MAX], the initial value of the scan. *)
Theorem generateReturn_dangling (chain : list Block)
        (transferBlock receiptBlock : Block) :
  is_transfer transferBlock = true ->
  type (transaction receiptBlock) = RECEIPT ->
  transfer_prevReceipt (transaction transferBlock) <> U32_MAX ->
  Forall (fun b => index b
                   <> transfer_prevReceipt (transaction transferBlock)) chain ->
  generateReturn chain transferBlock receiptBlock
  = mkTransaction RECEIPT
                  (senderAccount (transaction transferBlock))
                  (senderAccount (transaction transferBlock))
                  (index receiptBlock)
                  (wrap32 (U32_MAX - amount (transaction transferBlock))).
Proof.
  intros Ht Hr Hprev Habsent.
  destruct (generateReturn_cases chain transferBlock receiptBlock)
    as [[_ [Hw|[Hw|Hw]]]|(_ & _ & _ & ->)]; try congruence.
  rewrite (balance_at_absent chain _ Habsent); reflexivity.
Qed.

Lemma generateReturn_dangling_witness :
  is_transfer (mkBlock 9 0 0 (mkTransaction TRANSFER 1 2 7 30) 0 0 0) = true
  /\ type (transaction (mkBlock 10 0 0 (mkTransaction RECEIPT 2 0 9 30) 0 0 0))
     = RECEIPT
  /\ 7 <> U32_MAX
  /\ Forall (fun b => index b <> 7) [mined_genesis]
  /\ generateReturn [mined_genesis]
                    (mkBlock 9 0 0 (mkTransaction TRANSFER 1 2 7 30) 0 0 0)
                    (mkBlock 10 0 0 (mkTransaction RECEIPT 2 0 9 30) 0 0 0)
     = mkTransaction RECEIPT 1 1 10 (wrap32 (U32_MAX - 30)).
Proof.
  assert (H1 : is_transfer (mkBlock 9 0 0 (mkTransaction TRANSFER 1 2 7 30)
                                    0 0 0) = true) by reflexivity.
  assert (H2 : type (transaction
                       (mkBlock 10 0 0 (mkTransaction RECEIPT 2 0 9 30) 0 0 0))
               = RECEIPT) by reflexivity.
  assert (H3 : 7 <> U32_MAX) by discriminate.
  assert (H4 : Forall (fun b => index b <> 7) [mined_genesis])
    by (constructor; [discriminate|constructor]).
  split; [exact H1|]; split; [exact H2|]; split; [exact H3|];
    split; [exact H4|].
  exact (generateReturn_dangling [mined_genesis] _ _ H1 H2 H3 H4).
Defined.

(** ** The ledger engine (lines 213-237) *)

Lemma generateReceipt_same_content chain b c :
  index b = index c -> transaction b = transaction c ->
  generateReceipt chain b = generateReceipt chain c.
Proof.
  intros Hi Ht; unfold generateReceipt, is_transfer.
  rewrite Hi, Ht; reflexivity.
Qed.

Lemma generateReturn_same_content chain b c r r' :
  transaction b = transaction c ->
  index r = index r' -> transaction r = transaction r' ->
  generateReturn chain b r = generateReturn chain c r'.
Proof.
  intros Ht Hi Hr; unfold generateReturn, is_transfer.
  rewrite Ht, Hi, Hr; reflexivity.
Qed.

(** X11.  The order in which the two arguments of [generateBlock] are
    evaluated at lines 215, 220 and 225, which C++ leaves open, does not
    change what [sendAmount] does: building each transaction before the
    mining of the block it is chained to gives the same result code and
    the same ledger. *)
Theorem sendAmount_order_irrelevant
        fuel env1 env2 env3 st sender receiver amt :
  sendAmount_ltr fuel env1 env2 env3 st sender receiver amt
  = sendAmount fuel env1 env2 env3 st sender receiver amt.
Proof.
  unfold sendAmount_ltr, sendAmount, bind.
  destruct (split_back (blockVector st)) as [[front back]|] eqn:Hsplit;
    [|reflexivity].
  apply split_back_app in Hsplit.
  destruct (hashBlock fuel back threshold_const) as [[hash0 back']|] eqn:H0;
    [|reflexivity].
  pose proof (hashBlock_mined _ _ _ _ H0) as Hm0.
  rewrite Hsplit, <- (generateTransfer_mined front back hash0 back' _ _ _ Hm0).
  cbn [generateBlock transaction].
  destruct (TransactionType_eqb
              (type (generateTransfer (front ++ [back']) sender receiver amt))
              INVALID); [reflexivity|].
  match goal with
  | |- context [hashBlock fuel ?b threshold_const] => set (transfer := b)
  end.
  destruct (hashBlock fuel transfer threshold_const)
    as [[hash1 transfer']|] eqn:H1; [|reflexivity].
  destruct (mined_fields _ _ _ (hashBlock_mined _ _ _ _ H1))
    as (Hi1 & _ & _ & Ht1 & _).
  rewrite (generateReceipt_same_content (front ++ [back']) transfer transfer')
    by congruence.
  destruct (TransactionType_eqb
              (type (generateReceipt (front ++ [back']) transfer')) INVALID);
    [reflexivity|].
  match goal with
  | |- context [hashBlock fuel ?b threshold_const] => set (receipt := b)
  end.
  destruct (hashBlock fuel receipt threshold_const)
    as [[hash2 receipt']|] eqn:H2; [|reflexivity].
  destruct (mined_fields _ _ _ (hashBlock_mined _ _ _ _ H2))
    as (Hi2 & _ & _ & Ht2 & _).
  rewrite (generateReturn_same_content (front ++ [back']) transfer' transfer'
                                       receipt receipt')
    by congruence.
  reflexivity.
Qed.

(** The counter after three calls of [generateBlock]. *)
Lemma wrap32_add3 (c : Z) :
  wrap32 (wrap32 (wrap32 (c + 1) + 1) + 1) = wrap32 (c + 3).
Proof.
  rewrite !wrap32_mod.
  rewrite Z.add_mod_idemp_l by lia.
  rewrite <- Z.add_assoc, Z.add_mod_idemp_l by lia.
  f_equal; lia.
Qed.

(** X12.  Every call of [sendAmount] that returns uses up block indices
    whether or not it appends blocks: one when the call is rejected,
    three when it is accepted, also when the return block is dropped. *)
Theorem sendAmount_counter
        fuel env1 env2 env3 st sender receiver amt code st' :
  sendAmount fuel env1 env2 env3 st sender receiver amt = Some (code, st') ->
  blockCounter st'
  = wrap32 (blockCounter st + (if code =? 0 then 3 else 1)).
Proof.
  intros Hsend; apply sendAmount_step, send_step_indices in Hsend.
  cbv zeta in Hsend.
  destruct Hsend as [(-> & _ & ->)|(-> & -> & _)]; cbn [Z.eqb].
  - reflexivity.
  - apply wrap32_add3.
Qed.

Lemma sendAmount_counter_witness :
  sendAmount 8 (at_tick 1683) (at_tick 3381) (at_tick 3382) main_genesis 0 1 50
  = Some (0, state_after (firstn 1 main_calls))
  /\ blockCounter (state_after (firstn 1 main_calls))
     = wrap32 (blockCounter main_genesis + 3)
  /\ length (blockVector (state_after (firstn 1 main_calls))) = 3%nat.
Proof.
  assert (H : sendAmount 8 (at_tick 1683) (at_tick 3381) (at_tick 3382)
                         main_genesis 0 1 50
              = Some (0, state_after (firstn 1 main_calls)))
    by (vm_compute; reflexivity).
  split; [exact H|]; split; [|vm_compute; reflexivity].
  exact (sendAmount_counter _ _ _ _ _ _ _ _ _ _ H).
Defined.

Lemma rejects_spec st sender receiver amt :
  type (generateTransfer (blockVector st) sender receiver amt) = INVALID
  <-> rejects st sender receiver amt = true.
Proof.
  unfold generateTransfer, rejects.
  destruct (sender =? receiver); [cbn; split; reflexivity|].
  destruct (receiver =? 0); [cbn; split; reflexivity|].
  destruct (sender =? 0); cbn [orb negb andb].
  - cbn; split; discriminate.
  - destruct (latest_receipt (blockVector st) sender) as [bal prev];
      cbn [fst].
    destruct (bal <? amt); cbn; split; congruence.
Qed.

Lemma step_code env1 env2 env3 st sender receiver amt code st' :
  send_step env1 env2 env3 st sender receiver amt code st' ->
  code = if rejects st sender receiver amt then -1 else 0.
Proof.
  intros Hstep.
  destruct Hstep as [front back hash0 back' Hsplit H0 Htx
                    |front back hash0 back' hash1 transfer' hash2 receipt' ret
                       chain counter1 counter2 Hsplit H0 Htx H1 H2 Hret];
    [|subst chain];
    rewrite (generateTransfer_mined front back hash0 back' _ _ _ H0),
      <- Hsplit in Htx.
  - apply rejects_spec in Htx; rewrite Htx; reflexivity.
  - destruct (rejects st sender receiver amt) eqn:Hrej; [|reflexivity].
    apply rejects_spec in Hrej; contradiction.
Qed.

Lemma step_length env1 env2 env3 st sender receiver amt st' :
  send_step env1 env2 env3 st sender receiver amt 0 st' ->
  length (blockVector st')
  = (length (blockVector st) + pushed_blocks st sender)%nat.
Proof.
  intros Hstep.
  destruct (accepted_balances _ _ _ _ _ _ _ _ Hstep)
    as (chain & transfer & receipt & Hlatest & Hidx & Hsr & Hr0 & Hbal
        & Hist & Ht & Hr & Hret).
  assert (Hlen : length chain = length (blockVector st)).
  { apply (f_equal (@length Z)) in Hidx; rewrite !length_map in Hidx.
    exact Hidx. }
  unfold pushed_blocks; rewrite <- Hlatest.
  assert (Hprev : transfer_prevReceipt (transaction transfer)
                  = if sender =? 0 then U32_MAX
                    else snd (latest_receipt chain sender))
    by (rewrite Ht; reflexivity).
  destruct (generateReturn_cases chain transfer receipt)
    as [[Hinv [Hw|[Hw|Hw]]]|(_ & _ & Hp & Hgen)];
    destruct Hret as [[Hinv' ->]|(ret & Hvalid & _ & ->)];
    try contradiction; try congruence;
    try (rewrite Hr in Hw; contradiction);
    try (rewrite Hgen in Hinv'; discriminate);
    rewrite !length_app, Hlen; cbn [length];
    rewrite Hprev in *;
    destruct (sender =? 0); cbn [orb]; try lia; try contradiction.
  - rewrite Hw, Z.eqb_refl; lia.
  - apply Z.eqb_neq in Hp; rewrite Hp; lia.
Qed.

Lemma step_frame env1 env2 env3 st sender receiver amt code st' acct :
  send_step env1 env2 env3 st sender receiver amt code st' ->
  code <> 0 \/ (acct <> sender /\ acct <> receiver) ->
  latest_receipt (blockVector st') acct = latest_receipt (blockVector st) acct.
Proof.
  intros Hstep Hwhy.
  destruct (Z.eq_dec code 0) as [->|Hcode].
  - destruct Hwhy as [Hc|[Hs Hr']]; [contradiction|].
    destruct (accepted_balances _ _ _ _ _ _ _ _ Hstep)
      as (chain & transfer & receipt & Hlatest & Hidx & Hsr & Hr0 & Hbal
          & Hist & Ht & Hr & Hret).
    assert (Hnt : is_receipt_of acct transfer = false).
    { unfold is_receipt_of; rewrite Ht; cbn [type].
      destruct (sender =? 0); reflexivity. }
    assert (Hnr : is_receipt_of acct receipt = false).
    { unfold is_receipt_of, account; rewrite Hr; cbn [type word1].
      cbn [TransactionType_eqb andb]; apply Z.eqb_neq; congruence. }
    destruct Hret as [[_ ->]|(ret & Hvalid & Hrt & ->)];
      rewrite !latest_receipt_snoc, ?Hnr, ?Hnt; try apply Hlatest.
    destruct (generateReturn_cases chain transfer receipt)
      as [[Hinv _]|(_ & _ & _ & Hgen)]; [contradiction|].
    assert (Hnret : is_receipt_of acct ret = false).
    { unfold is_receipt_of, account.
      rewrite Hrt, Hgen; unfold senderAccount; rewrite Ht.
      cbn [type word1 TransactionType_eqb andb].
      apply Z.eqb_neq; congruence. }
    rewrite Hnret; apply Hlatest.
  - destruct Hstep as [front back hash0 back' Hsplit H0 Htx|];
      [|contradiction].
    cbn [blockVector]; rewrite Hsplit.
    eapply latest_receipt_mined; exact H0.
Qed.

(** X13.  A call of [sendAmount] that returns is rejected, with -1,
    exactly when the sender is the receiver, or the receiver is account
    0, or the sender is not account 0 and its latest balance on the
    ledger the call finds is below the amount; otherwise it returns 0. *)
Theorem sendAmount_code
        fuel env1 env2 env3 st sender receiver amt code st' :
  sendAmount fuel env1 env2 env3 st sender receiver amt = Some (code, st') ->
  (code = -1
   <-> (sender = receiver \/ receiver = 0
        \/ (sender <> 0
            /\ fst (latest_receipt (blockVector st) sender) < amt)))
  /\ (code = 0
      <-> (sender <> receiver /\ receiver <> 0
           /\ (sender = 0
               \/ amt <= fst (latest_receipt (blockVector st) sender)))).
Proof.
  intros Hsend; apply sendAmount_step, step_code in Hsend.
  unfold rejects in Hsend.
  destruct (Z.eqb_spec sender receiver) as [Hsr|Hsr];
    destruct (Z.eqb_spec receiver 0) as [Hr|Hr];
    destruct (Z.eqb_spec sender 0) as [Hs|Hs];
    destruct (Z.ltb_spec (fst (latest_receipt (blockVector st) sender)) amt)
      as [Hlt|Hge];
    cbn [orb negb andb] in Hsend; subst code;
    (split; split; intros H; try discriminate; try lia; auto;
     try (destruct H as [H|[H|[H H']]]; try contradiction; lia);
     try (destruct H as (H & H' & [H''|H'']); try contradiction; lia)).
Qed.

Lemma sendAmount_code_witness :
  sendAmount 8 (at_tick 15467) (at_tick 15468) (at_tick 15469)
             (state_after (firstn 10 main_calls)) 1 2 75
  = Some (-1, state_after (firstn 11 main_calls))
  /\ fst (latest_receipt (blockVector (state_after (firstn 10 main_calls))) 1)
     = 50
  /\ (1 = 2 \/ 2 = 0
      \/ (1 <> 0
          /\ fst (latest_receipt
                    (blockVector (state_after (firstn 10 main_calls))) 1)
             < 75)).
Proof.
  assert (H : sendAmount 8 (at_tick 15467) (at_tick 15468) (at_tick 15469)
                         (state_after (firstn 10 main_calls)) 1 2 75
              = Some (-1, state_after (firstn 11 main_calls)))
    by (vm_compute; reflexivity).
  split; [exact H|]; split; [vm_compute; reflexivity|].
  exact (proj1 (proj1 (sendAmount_code _ _ _ _ _ _ _ _ _ _ H)) eq_refl).
Defined.

(** X14.  An accepted call appends three blocks, the last one being the
    return receipt, when the sender is not account 0 and the scan found
    a receipt of the sender with an index other than [U32_MAX]; it
    appends two blocks otherwise, in particular for a sender without any
    receipt who sends the amount 0. *)
Theorem sendAmount_pushes
        fuel env1 env2 env3 st sender receiver amt st' :
  sendAmount fuel env1 env2 env3 st sender receiver amt = Some (0, st') ->
  (sender <> 0
   /\ snd (latest_receipt (blockVector st) sender) <> U32_MAX ->
   length (blockVector st') = (length (blockVector st) + 3)%nat)
  /\ (sender = 0
      \/ snd (latest_receipt (blockVector st) sender) = U32_MAX ->
      length (blockVector st') = (length (blockVector st) + 2)%nat).
Proof.
  intros Hsend; apply sendAmount_step, step_length in Hsend.
  rewrite Hsend; unfold pushed_blocks.
  destruct (Z.eqb_spec sender 0) as [Hs|Hs];
    destruct (Z.eqb_spec (snd (latest_receipt (blockVector st) sender))
                         U32_MAX) as [Hp|Hp];
    cbn [orb]; split; intros H; try reflexivity;
    try (destruct H as [H H']; contradiction);
    try (destruct H as [H|H]; contradiction).
Qed.

Lemma sendAmount_pushes_witness :
  sendAmount 8 (at_tick 8976) (at_tick 10745) (at_tick 13593)
             (state_after (firstn 8 main_calls)) 1 2 75
  = Some (0, state_after (firstn 9 main_calls))
  /\ 1 <> 0
  /\ snd (latest_receipt (blockVector (state_after (firstn 8 main_calls))) 1)
     <> U32_MAX
  /\ length (blockVector (state_after (firstn 9 main_calls)))
     = (length (blockVector (state_after (firstn 8 main_calls))) + 3)%nat.
Proof.
  assert (H : sendAmount 8 (at_tick 8976) (at_tick 10745) (at_tick 13593)
                         (state_after (firstn 8 main_calls)) 1 2 75
              = Some (0, state_after (firstn 9 main_calls)))
    by (vm_compute; reflexivity).
  assert (H1 : 1 <> 0) by discriminate.
  assert (H2 : snd (latest_receipt
                      (blockVector (state_after (firstn 8 main_calls))) 1)
               <> U32_MAX) by (vm_compute; discriminate).
  split; [exact H|]; split; [exact H1|]; split; [exact H2|].
  exact (proj1 (sendAmount_pushes _ _ _ _ _ _ _ _ _ H) (conj H1 H2)).
Defined.

(** X15.  A call of [sendAmount] changes the latest receipt of no account
    other than its sender and its receiver, and a rejected call changes
    the latest receipt of no account at all. *)
Theorem sendAmount_frame
        fuel env1 env2 env3 st sender receiver amt code st' acct :
  sendAmount fuel env1 env2 env3 st sender receiver amt = Some (code, st') ->
  code <> 0 \/ (acct <> sender /\ acct <> receiver) ->
  latest_receipt (blockVector st') acct = latest_receipt (blockVector st) acct.
Proof.
  intros Hsend Hwhy; apply sendAmount_step in Hsend.
  eapply step_frame; eassumption.
Qed.

Lemma sendAmount_frame_witness :
  sendAmount 8 (at_tick 8976) (at_tick 10745) (at_tick 13593)
             (state_after (firstn 8 main_calls)) 1 2 75
  = Some (0, state_after (firstn 9 main_calls))
  /\ (0 <> 0 \/ (7 <> 1 /\ 7 <> 2))
  /\ latest_receipt (blockVector (state_after (firstn 9 main_calls))) 7
     = latest_receipt (blockVector (state_after (firstn 8 main_calls))) 7.
Proof.
  assert (H : sendAmount 8 (at_tick 8976) (at_tick 10745) (at_tick 13593)
                         (state_after (firstn 8 main_calls)) 1 2 75
              = Some (0, state_after (firstn 9 main_calls)))
    by (vm_compute; reflexivity).
  assert (H1 : 0 <> 0 \/ (7 <> 1 /\ 7 <> 2))
    by (right; split; discriminate).
  split; [exact H|]; split; [exact H1|].
  exact (sendAmount_frame _ _ _ _ _ _ _ _ _ _ 7 H H1).
Defined.

(** ** What the chain holds *)

Lemma kinds_ok_set_last front back back' :
  kinds_ok (front ++ [back]) ->
  type (transaction back') = type (transaction back) ->
  kinds_ok (front ++ [back']).
Proof.
  destruct front as [|g front]; cbn [app kinds_ok]; intros [Hg Hrest] E.
  - split; [congruence|constructor].
  - split; [exact Hg|].
    eapply Forall_set_last; [exact Hrest|]; cbn beta; congruence.
Qed.

Lemma kinds_ok_snoc chain b :
  kinds_ok chain -> type (transaction b) <> INVALID -> kinds_ok (chain ++ [b]).
Proof.
  destruct chain as [|g rest]; cbn [app kinds_ok]; [contradiction|].
  intros [Hg Hrest] Hb; split; [exact Hg|].
  apply Forall_app; split; [exact Hrest|constructor; [exact Hb|constructor]].
Qed.

Lemma kinds_send env1 env2 env3 st sender receiver amt code st' :
  kinds_ok (blockVector st) ->
  send_step env1 env2 env3 st sender receiver amt code st' ->
  kinds_ok (blockVector st').
Proof.
  intros Hok Hstep.
  destruct (Z.eq_dec code 0) as [->|Hcode].
  - destruct (send_accepted_inv _ _ _ _ _ _ _ _ Hstep)
      as (front & back & hash0 & back' & transfer & receipt & H).
    cbv zeta in H.
    destruct H as (Hsplit & H0 & Hty & Ht & Hi & Hr & Hret).
    rewrite Hsplit in Hok.
    destruct (mined_fields _ _ _ H0) as (_ & _ & _ & E0 & _).
    assert (Hchain : kinds_ok (front ++ [back']))
      by (eapply kinds_ok_set_last; [exact Hok|congruence]).
    assert (Hist : is_transfer transfer = true)
      by (eapply generateTransfer_is_transfer; [exact Ht|congruence]).
    assert (H2 : kinds_ok (((front ++ [back']) ++ [transfer]) ++ [receipt])).
    { apply kinds_ok_snoc; [apply kinds_ok_snoc; [exact Hchain|congruence]|].
      rewrite Hr, (generateReceipt_eq _ _ Hist); discriminate. }
    destruct Hret as [[_ ->]|(ret & Hvalid & Hrt & ->)]; [exact H2|].
    apply kinds_ok_snoc; [exact H2|congruence].
  - destruct Hstep as [front back hash0 back' Hsplit H0 Htx|];
      [|contradiction].
    cbn [blockVector]; rewrite Hsplit in Hok.
    destruct (mined_fields _ _ _ H0) as (_ & _ & _ & E0 & _).
    eapply kinds_ok_set_last; [exact Hok|congruence].
Qed.

(** X16.  A ledger reached from the genesis block is never empty, so
    [blockVector.back()] is defined at every call; its first block is the
    only one tagged [INVALID]: [sendAmount] stores transfers and
    receipts only. *)
Theorem reachable_kinds k st :
  reachable k st ->
  exists g rest,
    blockVector st = g :: rest
    /\ type (transaction g) = INVALID
    /\ Forall (fun b => type (transaction b) = GENERATE
                        \/ type (transaction b) = TRANSFER
                        \/ type (transaction b) = RECEIPT) rest.
Proof.
  intros Hreach.
  assert (Hok : kinds_ok (blockVector st)).
  { induction Hreach as [env data seed|k st fuel env1 env2 env3 s r a code st'
                                        _ IH _ _ _ Hsend].
    - cbn; split; [reflexivity|constructor].
    - apply sendAmount_step in Hsend; eapply kinds_send; eassumption. }
  destruct (blockVector st) as [|g rest]; [contradiction|].
  destruct Hok as [Hg Hrest].
  exists g, rest; repeat split; [exact Hg|].
  eapply Forall_impl; [|exact Hrest].
  intros b Hb; cbn beta in Hb.
  destruct (type (transaction b)); auto; contradiction.
Qed.

Lemma reachable_kinds_witness :
  reachable 12 (state_after main_calls)
  /\ map (fun b => type (transaction b)) (blockVector (state_after main_calls))
     = [INVALID; GENERATE; RECEIPT; GENERATE; RECEIPT; GENERATE; RECEIPT;
        GENERATE; RECEIPT; TRANSFER; RECEIPT; RECEIPT; TRANSFER; RECEIPT;
        RECEIPT]
  /\ exists g rest,
      blockVector (state_after main_calls) = g :: rest
      /\ type (transaction g) = INVALID
      /\ Forall (fun b => type (transaction b) = GENERATE
                          \/ type (transaction b) = TRANSFER
                          \/ type (transaction b) = RECEIPT) rest.
Proof.
  split; [exact main_final_reachable|].
  split; [vm_compute; reflexivity|].
  exact (reachable_kinds 12 (state_after main_calls) main_final_reachable).
Defined.

Lemma mined_unmined b h b' : mined b h b' -> unmined b' = unmined b.
Proof. intros (n & _ & -> & _); reflexivity. Qed.

Lemma step_append env1 env2 env3 st sender receiver amt code st' :
  send_step env1 env2 env3 st sender receiver amt code st' ->
  exists front back back' more,
    blockVector st = front ++ [back]
    /\ blockVector st' = front ++ back' :: more
    /\ unmined back' = unmined back.
Proof.
  intros Hstep.
  destruct Hstep as [front back hash0 back' Hsplit H0 Htx
                    |front back hash0 back' hash1 transfer' hash2 receipt' ret
                       chain counter1 counter2 Hsplit H0 Htx H1 H2 Hret];
    cbn [blockVector].
  - exists front, back, back', []; repeat split; auto.
    eapply mined_unmined; exact H0.
  - exists front, back, back',
      ([transfer'; receipt']
         ++ (if TransactionType_eqb (type (transaction ret)) INVALID
             then [] else [ret])).
    subst chain; rewrite <- app_assoc; repeat split; auto.
    eapply mined_unmined; exact H0.
Qed.

(** X17.  The chain is append-only.  Whatever calls are made, the blocks
    of the chain other than its last one are found unchanged at the same
    places afterwards, and the last one is found there too, up to its
    nonce and its threshold. *)
Theorem run_appends fuel calls :
  forall st codes st',
    run fuel st calls = Some (codes, st') ->
    length codes = length calls
    /\ (exists rest,
           blockVector st' = removelast (blockVector st) ++ rest)
    /\ (exists more,
           map unmined (blockVector st')
           = map unmined (blockVector st) ++ more).
Proof.
  induction calls as [|c calls IH]; intros st codes st' Hrun.
  - injection Hrun as <- <-; repeat split.
    + destruct (blockVector st) as [|b l] eqn:E; [exists []; reflexivity|].
      exists [last (b :: l) b]; apply app_removelast_last; discriminate.
    + exists []; rewrite app_nil_r; reflexivity.
  - destruct (run_cons _ _ _ _ _ _ Hrun)
      as (code & st1 & codes' & Hsend & Hrest & ->).
    apply sendAmount_step, step_append in Hsend.
    destruct Hsend as (front & back & back' & more1 & Hsplit & Hst1 & Hun).
    destruct (IH _ _ _ Hrest) as (Hlen & (rest2 & Hkeep) & (more2 & Hmap)).
    split; [cbn [length]; congruence|]; split.
    + exists (removelast (back' :: more1) ++ rest2).
      rewrite Hkeep, Hst1, Hsplit, removelast_last.
      rewrite removelast_app by discriminate.
      rewrite <- app_assoc; reflexivity.
    + exists (map unmined more1 ++ more2).
      rewrite Hmap, Hst1, Hsplit, !map_app; cbn [map].
      rewrite Hun, <- !app_assoc; reflexivity.
Qed.

Lemma run_appends_witness :
  run 8 (state_after (firstn 9 main_calls)) (skipn 9 main_calls)
  = Some ([0; -1; -1], state_after main_calls)
  /\ (exists rest,
         blockVector (state_after main_calls)
         = removelast (blockVector (state_after (firstn 9 main_calls)))
             ++ rest).
Proof.
  assert (H : run 8 (state_after (firstn 9 main_calls)) (skipn 9 main_calls)
              = Some ([0; -1; -1], state_after main_calls))
    by (vm_compute; reflexivity).
  split; [exact H|].
  exact (proj1 (proj2 (run_appends 8 _ _ _ _ H))).
Defined.

(** ** Auditing the chain *)

Lemma prefix_inv_snoc (P : list Block -> Block -> Prop) l b :
  prefix_inv P l -> P l b -> prefix_inv P (l ++ [b]).
Proof.
  intros H Hb i x Hx.
  destruct (nth_error_snoc_inv _ _ _ _ Hx) as [[Hi Hx']|[-> ->]].
  - rewrite firstn_app, (proj2 (Nat.sub_0_le i (length l))) by lia.
    cbn [firstn]; rewrite app_nil_r; apply H; exact Hx'.
  - rewrite firstn_app, Nat.sub_diag, firstn_all; cbn [firstn].
    rewrite app_nil_r; exact Hb.
Qed.

Lemma prefix_inv_front (P : list Block -> Block -> Prop) l b :
  prefix_inv P (l ++ [b]) -> prefix_inv P l /\ P l b.
Proof.
  intros H; split.
  - intros i x Hx.
    assert (Hi : (i < length l)%nat) by (apply nth_error_Some; congruence).
    specialize (H i x).
    rewrite nth_error_app1, firstn_app,
      (proj2 (Nat.sub_0_le i (length l))) in H by lia.
    cbn [firstn] in H; rewrite app_nil_r in H; exact (H Hx).
  - specialize (H (length l) b (nth_error_snoc_last l b)).
    rewrite firstn_app, Nat.sub_diag, firstn_all in H; cbn [firstn] in H.
    rewrite app_nil_r in H; exact H.
Qed.

(** A property of a block and of what precedes it, which reads the
    transaction of the block only, holds of a whole chain after a call when
    it did before and holds of the blocks which the call builds. *)
Lemma prefix_inv_send (P : list Block -> Block -> Prop)
      env1 env2 env3 st sender receiver amt code st' :
  (forall before b b',
      transaction b' = transaction b -> P before b -> P before b') ->
  (forall chain transfer,
      type (generateTransfer chain sender receiver amt) <> INVALID ->
      transaction transfer = generateTransfer chain sender receiver amt ->
      P chain transfer) ->
  (forall chain transfer receipt,
      type (generateTransfer chain sender receiver amt) <> INVALID ->
      transaction transfer = generateTransfer chain sender receiver amt ->
      transaction receipt = generateReceipt chain transfer ->
      P (chain ++ [transfer]) receipt) ->
  (forall chain transfer receipt ret,
      type (generateTransfer chain sender receiver amt) <> INVALID ->
      transaction transfer = generateTransfer chain sender receiver amt ->
      transaction receipt = generateReceipt chain transfer ->
      type (generateReturn chain transfer receipt) <> INVALID ->
      transaction ret = generateReturn chain transfer receipt ->
      P ((chain ++ [transfer]) ++ [receipt]) ret) ->
  send_step env1 env2 env3 st sender receiver amt code st' ->
  prefix_inv P (blockVector st) ->
  prefix_inv P (blockVector st').
Proof.
  intros Hsame Htransfer Hreceipt Hreturn Hstep Hinv.
  destruct (Z.eq_dec code 0) as [->|Hcode].
  - destruct (send_accepted_inv _ _ _ _ _ _ _ _ Hstep)
      as (front & back & hash0 & back' & transfer & receipt & H).
    cbv zeta in H.
    destruct H as (Hsplit & H0 & Hty & Ht & Hi & Hr & Hret).
    rewrite Hsplit in Hinv.
    destruct (prefix_inv_front _ _ _ Hinv) as [Hfront Hback].
    destruct (mined_fields _ _ _ H0) as (_ & _ & _ & E0 & _).
    assert (H2 : prefix_inv P (((front ++ [back']) ++ [transfer])
                                 ++ [receipt])).
    { apply prefix_inv_snoc; [apply prefix_inv_snoc; [apply prefix_inv_snoc|]|].
      - exact Hfront.
      - exact (Hsame _ _ _ E0 Hback).
      - exact (Htransfer _ _ Hty Ht).
      - exact (Hreceipt _ _ _ Hty Ht Hr). }
    destruct Hret as [[_ ->]|(ret & Hvalid & Hrt & ->)]; [exact H2|].
    apply prefix_inv_snoc; [exact H2|].
    exact (Hreturn _ _ _ _ Hty Ht Hr Hvalid Hrt).
  - destruct Hstep as [front back hash0 back' Hsplit H0 Htx|];
      [|contradiction].
    cbn [blockVector]; rewrite Hsplit in Hinv.
    destruct (prefix_inv_front _ _ _ Hinv) as [Hfront Hback].
    destruct (mined_fields _ _ _ H0) as (_ & _ & _ & E0 & _).
    apply prefix_inv_snoc; [exact Hfront|exact (Hsame _ _ _ E0 Hback)].
Qed.

Lemma prefix_inv_genesis (P : list Block -> Block -> Prop) env data seed :
  (forall b, type (transaction b) = INVALID -> P [] b) ->
  prefix_inv P (blockVector (genesis env data seed)).
Proof.
  intros H i b Hb; cbn in Hb.
  destruct i as [|i]; [|destruct i; discriminate].
  injection Hb as <-; cbn [firstn]; apply H; reflexivity.
Qed.

Lemma generated_receipt chain sender receiver amt transfer :
  type (generateTransfer chain sender receiver amt) <> INVALID ->
  transaction transfer = generateTransfer chain sender receiver amt ->
  is_transfer transfer = true
  /\ type (generateReceipt chain transfer) = RECEIPT.
Proof.
  intros Hty Ht.
  assert (Hist : is_transfer transfer = true)
    by (eapply generateTransfer_is_transfer; [exact Ht|congruence]).
  split; [exact Hist|].
  rewrite (generateReceipt_eq _ _ Hist); reflexivity.
Qed.

Ltac no_transfer :=
  split; [discriminate|split; [discriminate|intros [?|?]; discriminate]].

(** X18.  The chain of a reachable ledger can be audited for its
    transfers: a block tagged [TRANSFER] names a sender other than 0 whose
    latest receipt among the blocks stored before it carries a balance of
    at least the amount sent, and records the index of that receipt; a
    block tagged [GENERATE] has sender 0 and records [U32_MAX]; in both
    the receiver is neither 0 nor the sender. *)
Theorem reachable_transfers_covered k st :
  reachable k st ->
  forall i b,
    nth_error (blockVector st) i = Some b ->
    transfer_covered (firstn i (blockVector st)) b.
Proof.
  intros Hreach.
  change (prefix_inv transfer_covered (blockVector st)).
  induction Hreach as [env data seed|k st fuel env1 env2 env3 s r a code st'
                                      _ IH _ _ _ Hsend].
  - apply prefix_inv_genesis; intros b Hb; unfold transfer_covered.
    cbv zeta; rewrite Hb; no_transfer.
  - apply sendAmount_step in Hsend.
    refine (prefix_inv_send transfer_covered _ _ _ _ _ _ _ _ _
                            _ _ _ _ Hsend IH).
    + intros before b b' E; unfold transfer_covered; rewrite E; auto.
    + intros chain transfer Hty Ht; unfold transfer_covered; cbv zeta.
      destruct (generateTransfer_cases chain s r a)
        as [[Hinv _]|(Hkind & Hsr & Hr & Hbal & Heq)]; [contradiction|].
      cbv zeta in Heq; rewrite Ht, Heq.
      unfold senderAccount, receiverAccount, transfer_prevReceipt, amount.
      cbn [type word1 word2 word3 word4].
      destruct (Z.eqb_spec s 0) as [Hs|Hs].
      * split; [discriminate|].
        split; [intros _; exact Hs|].
        intros _; repeat split; [exact Hr|congruence].
      * split; [intros _; split; [exact Hs|exact (Hbal Hs)]|].
        split; [discriminate|].
        intros _; repeat split; [exact Hr|congruence].
    + intros chain transfer receipt Hty Ht Hr; unfold transfer_covered.
      cbv zeta.
      destruct (generated_receipt _ _ _ _ _ Hty Ht) as [_ Hkind].
      rewrite Hr, Hkind; no_transfer.
    + intros chain transfer receipt ret Hty Ht Hr Hvalid Hrt.
      unfold transfer_covered; cbv zeta.
      destruct (generateReturn_cases chain transfer receipt)
        as [[Hinv _]|(_ & _ & _ & Heq)]; [contradiction|].
      cbv zeta in Heq; rewrite Hrt, Heq; cbn [type]; no_transfer.
Qed.

Lemma reachable_transfers_covered_witness :
  reachable 12 (state_after main_calls)
  /\ type (transaction (block_at (state_after main_calls) 9)) = TRANSFER
  /\ transfer_covered (firstn 9 (blockVector (state_after main_calls)))
                      (block_at (state_after main_calls) 9).
Proof.
  split; [exact main_final_reachable|].
  split; [vm_compute; reflexivity|].
  apply (reachable_transfers_covered 12 (state_after main_calls)
                                     main_final_reachable 9).
  vm_compute; reflexivity.
Defined.

(** X19.  The chain of a reachable ledger can be audited for its
    receipts.  A block tagged [RECEIPT] is never the first one and names
    the index of the block stored right before it.  Either that block is
    a mint or a transfer: the receipt then belongs to its receiver, names
    the receiver's latest receipt before it ([U32_MAX] when there is
    none) and adds the amount, modulo [2^32], to the balance found
    there.  Or that block is itself a receipt, stored right after a block
    tagged [TRANSFER]: the receipt then belongs to the sender, holds the
    sender's account number where the index of a receipt is expected, and
    subtracts the amount from the balance of the block which the transfer
    names. *)
Theorem reachable_receipts_follow k st :
  reachable k st ->
  forall i b,
    nth_error (blockVector st) i = Some b ->
    receipt_follows (firstn i (blockVector st)) b.
Proof.
  intros Hreach.
  change (prefix_inv receipt_follows (blockVector st)).
  induction Hreach as [env data seed|k st fuel env1 env2 env3 s r a code st'
                                      _ IH _ _ _ Hsend].
  - apply prefix_inv_genesis; intros b Hb; unfold receipt_follows.
    cbv zeta; rewrite Hb; discriminate.
  - apply sendAmount_step in Hsend.
    refine (prefix_inv_send receipt_follows _ _ _ _ _ _ _ _ _
                            _ _ _ _ Hsend IH).
    + intros before b b' E; unfold receipt_follows; rewrite E; auto.
    + intros chain transfer Hty Ht; unfold receipt_follows; cbv zeta.
      destruct (generateTransfer_cases chain s r a)
        as [[Hinv _]|(Hkind & _)]; [contradiction|].
      cbv zeta in Hkind; rewrite Ht, Hkind.
      destruct (s =? 0); discriminate.
    + intros chain transfer receipt Hty Ht Hr; unfold receipt_follows.
      cbv zeta; intros _.
      destruct (generated_receipt _ _ _ _ _ Hty Ht) as [Hist _].
      exists chain, transfer; rewrite Hr, (generateReceipt_eq _ _ Hist).
      unfold prevTransfer, account, receipt_prevReceipt, balance.
      cbn [word1 word2 word3 word4].
      split; [reflexivity|]; split; [reflexivity|].
      left; repeat split; exact Hist.
    + intros chain transfer receipt ret Hty Ht Hr Hvalid Hrt.
      unfold receipt_follows; cbv zeta; intros _.
      destruct (generated_receipt _ _ _ _ _ Hty Ht) as [_ Hkind].
      destruct (generateReturn_cases chain transfer receipt)
        as [[Hinv _]|(_ & _ & Hprev & Heq)]; [contradiction|].
      cbv zeta in Heq.
      exists (chain ++ [transfer]), receipt; rewrite Hrt, Heq.
      unfold prevTransfer, account, receipt_prevReceipt, balance.
      cbn [word1 word2 word3 word4].
      split; [reflexivity|]; split; [reflexivity|].
      right; split; [rewrite Hr; exact Hkind|].
      exists chain, transfer; split; [reflexivity|].
      split; [|repeat split].
      destruct (generateTransfer_cases chain s r a)
        as [[Hinv _]|(Hk & _ & _ & _ & Hteq)]; [contradiction|].
      cbv zeta in Hk, Hteq; rewrite Ht, Hk.
      destruct (Z.eqb_spec s 0) as [Hs|Hs]; [|reflexivity].
      exfalso; apply Hprev; rewrite Ht, Hteq.
      unfold transfer_prevReceipt; cbn [word3]; reflexivity.
Qed.

Lemma reachable_receipts_follow_witness :
  reachable 12 (state_after main_calls)
  /\ type (transaction (block_at (state_after main_calls) 11)) = RECEIPT
  /\ receipt_follows (firstn 11 (blockVector (state_after main_calls)))
                     (block_at (state_after main_calls) 11).
Proof.
  split; [exact main_final_reachable|].
  split; [vm_compute; reflexivity|].
  apply (reachable_receipts_follow 12 (state_after main_calls)
                                   main_final_reachable 11).
  vm_compute; reflexivity.
Defined.

(** ** What does not depend on the clock *)

Lemma find_receipt_content acct (l1 : list Block) :
  forall l2,
    map content l1 = map content l2 ->
    match find (is_receipt_of acct) l1 with
    | Some b => (balance (transaction b), index b)
    | None => (0, U32_MAX)
    end
    = match find (is_receipt_of acct) l2 with
      | Some b => (balance (transaction b), index b)
      | None => (0, U32_MAX)
      end.
Proof.
  induction l1 as [|b1 l1 IH]; intros [|b2 l2] E; try discriminate;
    [reflexivity|].
  cbn [map content] in E; injection E as Ei Et El.
  assert (E : is_receipt_of acct b1 = is_receipt_of acct b2)
    by (unfold is_receipt_of; rewrite Et; reflexivity).
  cbn [find]; rewrite E.
  destruct (is_receipt_of acct b2).
  - rewrite Ei, Et; reflexivity.
  - apply IH; exact El.
Qed.

Lemma find_index_content i (l1 : list Block) :
  forall l2,
    map content l1 = map content l2 ->
    match find (fun b => index b =? i) l1 with
    | Some b => balance (transaction b)
    | None => U32_MAX
    end
    = match find (fun b => index b =? i) l2 with
      | Some b => balance (transaction b)
      | None => U32_MAX
      end.
Proof.
  induction l1 as [|b1 l1 IH]; intros [|b2 l2] E; try discriminate;
    [reflexivity|].
  cbn [map content] in E; injection E as Ei Et El.
  cbn [find]; rewrite Ei.
  destruct (index b2 =? i).
  - rewrite Et; reflexivity.
  - apply IH; exact El.
Qed.

Lemma latest_receipt_content l1 l2 acct :
  map content l1 = map content l2 ->
  latest_receipt l1 acct = latest_receipt l2 acct.
Proof.
  intros E; unfold latest_receipt; apply find_receipt_content.
  rewrite !map_rev, E; reflexivity.
Qed.

Lemma balance_at_content l1 l2 i :
  map content l1 = map content l2 ->
  balance_at l1 i = balance_at l2 i.
Proof.
  intros E; unfold balance_at; apply find_index_content.
  rewrite !map_rev, E; reflexivity.
Qed.

Lemma generateTransfer_content l1 l2 sender receiver amt :
  map content l1 = map content l2 ->
  generateTransfer l1 sender receiver amt
  = generateTransfer l2 sender receiver amt.
Proof.
  intros E; unfold generateTransfer.
  rewrite (latest_receipt_content l1 l2 sender E); reflexivity.
Qed.

Lemma generateReceipt_content l1 l2 b1 b2 :
  map content l1 = map content l2 ->
  content b1 = content b2 ->
  generateReceipt l1 b1 = generateReceipt l2 b2.
Proof.
  intros E Eb; unfold content in Eb; injection Eb as Ei Et.
  unfold generateReceipt, is_transfer; rewrite Ei, Et.
  rewrite (latest_receipt_content l1 l2 _ E); reflexivity.
Qed.

Lemma generateReturn_content l1 l2 b1 b2 r1 r2 :
  map content l1 = map content l2 ->
  content b1 = content b2 ->
  content r1 = content r2 ->
  generateReturn l1 b1 r1 = generateReturn l2 b2 r2.
Proof.
  intros E Eb Er; unfold content in Eb, Er.
  injection Eb as Ei Et; injection Er as Eri Ert.
  unfold generateReturn, is_transfer; rewrite Et, Eri, Ert.
  rewrite (balance_at_content l1 l2 _ E); reflexivity.
Qed.

Lemma mined_content b h b' : mined b h b' -> content b' = content b.
Proof. intros (n & _ & -> & _); reflexivity. Qed.

(** Two calls with the same arguments, on ledgers which say the same,
    return the same code and leave ledgers which say the same. *)
Lemma step_content env1 env2 env3 env1' env2' env3' st1 st2
      sender receiver amt code1 code2 st1' st2' :
  ledger_content st1 = ledger_content st2 ->
  send_step env1 env2 env3 st1 sender receiver amt code1 st1' ->
  send_step env1' env2' env3' st2 sender receiver amt code2 st2' ->
  code1 = code2 /\ ledger_content st1' = ledger_content st2'.
Proof.
  intros E H1 H2; unfold ledger_content in E; injection E as Ev Ec.
  destruct H1 as [fr1 bk1 h1 bk1' S1 M1 T1
                 |fr1 bk1 h1 bk1' h1a tr1 h1b rc1 ret1 chain1 ca1 cb1
                      S1 M1 T1 M1a M1b R1];
    destruct H2 as [fr2 bk2 h2 bk2' S2 M2 T2
                   |fr2 bk2 h2 bk2' h2a tr2 h2b rc2 ret2 chain2 ca2 cb2
                        S2 M2 T2 M2a M2b R2];
    assert (Echain : map content (fr1 ++ [bk1'])
                     = map content (fr2 ++ [bk2']))
      by (rewrite !map_app; cbn [map];
          rewrite (mined_content _ _ _ M1), (mined_content _ _ _ M2);
          rewrite S1, S2, !map_app in Ev; exact Ev);
    pose proof (generateTransfer_content _ _ sender receiver amt Echain)
      as Et;
    try subst chain1; try subst chain2.
  - split; [reflexivity|]; unfold ledger_content.
    cbn [blockVector blockCounter]; rewrite Echain, Ec; reflexivity.
  - rewrite Et in T1; contradiction.
  - rewrite Et in T1; contradiction.
  - split; [reflexivity|].
    assert (Etr : content tr1 = content tr2).
    { rewrite (mined_content _ _ _ M1a), (mined_content _ _ _ M2a).
      unfold content, fresh_block; cbn [generateBlock fst index transaction].
      rewrite Et, Ec; reflexivity. }
    pose proof (generateReceipt_content _ _ _ _ Echain Etr) as Er.
    assert (Erc : content rc1 = content rc2).
    { rewrite (mined_content _ _ _ M1b), (mined_content _ _ _ M2b).
      unfold content, fresh_block; cbn [generateBlock fst index transaction].
      subst ca1 ca2; rewrite Er, Ec; reflexivity. }
    pose proof (generateReturn_content _ _ _ _ _ _ Echain Etr Erc) as Ert.
    assert (Eret : content ret1 = content ret2).
    { rewrite R1, R2.
      unfold content, fresh_block; cbn [generateBlock fst index transaction].
      subst cb1 cb2 ca1 ca2; rewrite Ert, Ec; reflexivity. }
    assert (Ekind : type (transaction ret1) = type (transaction ret2))
      by (unfold content in Eret; injection Eret as _ ->; reflexivity).
    unfold ledger_content; cbn [blockVector blockCounter].
    subst cb1 cb2 ca1 ca2; rewrite Ec; f_equal.
    rewrite (map_app content (fr1 ++ [bk1'])),
      (map_app content (fr2 ++ [bk2'])), Echain, Ekind; f_equal.
    rewrite !map_app; cbn [map]; rewrite Etr, Erc.
    destruct (TransactionType_eqb (type (transaction ret2)) INVALID);
      cbn [map]; rewrite ?Eret; reflexivity.
Qed.

(** X20.  What a call returns and what it stores do not depend on the
    clock, on the bytes of the uninitialised blocks, on the nonces found
    nor on the hashes: two calls with the same arguments, on ledgers
    which agree on the counter and on the index and the transaction of
    every block, return the same code and leave ledgers which agree
    again. *)
Theorem sendAmount_content fuel1 fuel2 env1 env2 env3 env1' env2' env3'
        st1 st2 sender receiver amt code1 code2 st1' st2' :
  ledger_content st1 = ledger_content st2 ->
  sendAmount fuel1 env1 env2 env3 st1 sender receiver amt
  = Some (code1, st1') ->
  sendAmount fuel2 env1' env2' env3' st2 sender receiver amt
  = Some (code2, st2') ->
  code1 = code2 /\ ledger_content st1' = ledger_content st2'.
Proof.
  intros E H1 H2.
  apply sendAmount_step in H1; apply sendAmount_step in H2.
  exact (step_content _ _ _ _ _ _ _ _ _ _ _ _ _ _ _ E H1 H2).
Qed.

Lemma sendAmount_content_witness :
  blockVector (state_after (firstn 1 return_calls))
  <> blockVector (other_after (firstn 1 other_calls))
  /\ ledger_content (state_after (firstn 1 return_calls))
     = ledger_content (other_after (firstn 1 other_calls))
  /\ sendAmount 8 (at_tick 3398) (at_tick 3970) (at_tick 5200)
                (state_after (firstn 1 return_calls)) 1 2 30
     = Some (0, state_after return_calls)
  /\ sendAmount 8 (at_tick 100641) (at_tick 100763) (at_tick 101071)
                (other_after (firstn 1 other_calls)) 1 2 30
     = Some (0, other_after other_calls)
  /\ ledger_content (state_after return_calls)
     = ledger_content (other_after other_calls).
Proof.
  assert (E : ledger_content (state_after (firstn 1 return_calls))
              = ledger_content (other_after (firstn 1 other_calls)))
    by (vm_compute; reflexivity).
  assert (H1 : sendAmount 8 (at_tick 3398) (at_tick 3970) (at_tick 5200)
                          (state_after (firstn 1 return_calls)) 1 2 30
               = Some (0, state_after return_calls))
    by (vm_compute; reflexivity).
  assert (H2 : sendAmount 8 (at_tick 100641) (at_tick 100763)
                          (at_tick 101071)
                          (other_after (firstn 1 other_calls)) 1 2 30
               = Some (0, other_after other_calls))
    by (vm_compute; reflexivity).
  split; [vm_compute; discriminate|].
  split; [exact E|].
  split; [exact H1|].
  split; [exact H2|].
  exact (proj2 (sendAmount_content 8 8 _ _ _ _ _ _ _ _ _ _ _ _ _ _ _
                                   E H1 H2)).
Defined.

(** ** The program *)

Lemma run_same_content calls1 :
  forall calls2 fuel1 fuel2 st1 st2 codes1 codes2 st1' st2',
    map call_args calls1 = map call_args calls2 ->
    ledger_content st1 = ledger_content st2 ->
    run fuel1 st1 calls1 = Some (codes1, st1') ->
    run fuel2 st2 calls2 = Some (codes2, st2') ->
    codes1 = codes2 /\ ledger_content st1' = ledger_content st2'.
Proof.
  induction calls1 as [|c1 calls1 IH];
    intros [|c2 calls2] fuel1 fuel2 st1 st2 codes1 codes2 st1' st2' Ea E H1 H2;
    try discriminate.
  - injection H1 as <- <-; injection H2 as <- <-; auto.
  - cbn [map] in Ea; unfold call_args at 1 3 in Ea.
    injection Ea as Es Er Eamt Ea.
    destruct (run_cons _ _ _ _ _ _ H1)
      as (code1 & mid1 & rest1 & Hs1 & Hr1 & ->).
    destruct (run_cons _ _ _ _ _ _ H2)
      as (code2 & mid2 & rest2 & Hs2 & Hr2 & ->).
    rewrite Es, Er, Eamt in Hs1.
    apply sendAmount_step in Hs1; apply sendAmount_step in Hs2.
    destruct (step_content _ _ _ _ _ _ _ _ _ _ _ _ _ _ _ E Hs1 Hs2)
      as [-> Emid].
    destruct (IH _ _ _ _ _ _ _ _ _ Ea Emid Hr1 Hr2) as [-> Efin].
    auto.
Qed.

Lemma hashes_ok_set_last seed front back back' :
  hashes_ok seed (front ++ [back]) ->
  prevHash back' = prevHash back ->
  hashes_ok seed (front ++ [back']).
Proof.
  destruct front as [|g front]; cbn [app hashes_ok]; intros [Hg Hrest] E.
  - split; [congruence|constructor].
  - split; [exact Hg|].
    eapply Forall_set_last; [exact Hrest|]; cbn beta; rewrite E; auto.
Qed.

Lemma hashes_ok_snoc seed chain b :
  hashes_ok seed chain ->
  0 <= prevHash b <= threshold_const ->
  hashes_ok seed (chain ++ [b]).
Proof.
  destruct chain as [|g rest]; cbn [app hashes_ok]; [contradiction|].
  intros [Hg Hrest] Hb; split; [exact Hg|].
  apply Forall_app; split; [exact Hrest|constructor; [exact Hb|constructor]].
Qed.

Lemma mined_hash b h b' : mined b h b' -> 0 <= h <= threshold_const.
Proof.
  intros (n & _ & _ & -> & Hle); split; [|exact Hle].
  apply fnv_hash_u32.
Qed.

Lemma hashes_send seed env1 env2 env3 st sender receiver amt code st' :
  hashes_ok seed (blockVector st) ->
  send_step env1 env2 env3 st sender receiver amt code st' ->
  hashes_ok seed (blockVector st').
Proof.
  intros Hok Hstep.
  destruct Hstep as [front back hash0 back' Hsplit H0 Htx
                    |front back hash0 back' hash1 transfer' hash2 receipt' ret
                       chain counter1 counter2 Hsplit H0 Htx H1 H2 Hret];
    cbn [blockVector]; rewrite Hsplit in Hok;
    destruct (mined_fields _ _ _ H0) as (_ & E0 & _);
    pose proof (hashes_ok_set_last _ _ _ _ Hok E0) as Hchain;
    [exact Hchain|].
  destruct (mined_fields _ _ _ H1) as (_ & E1 & _).
  destruct (mined_fields _ _ _ H2) as (_ & E2 & _).
  rewrite pushed_cases.
  assert (H3 : hashes_ok seed ((chain ++ [transfer']) ++ [receipt'])).
  { apply hashes_ok_snoc; [apply hashes_ok_snoc; [exact Hchain|]|].
    - rewrite E1; exact (mined_hash _ _ _ H0).
    - rewrite E2; exact (mined_hash _ _ _ H1). }
  destruct (TransactionType_eqb (type (transaction ret)) INVALID);
    [exact H3|].
  apply hashes_ok_snoc; [exact H3|].
  rewrite Hret; exact (mined_hash _ _ _ H2).
Qed.

Lemma run_hashes seed fuel calls :
  forall st codes st',
    hashes_ok seed (blockVector st) ->
    run fuel st calls = Some (codes, st') ->
    hashes_ok seed (blockVector st').
Proof.
  induction calls as [|c calls IH]; intros st codes st' Hok Hrun.
  - injection Hrun as <- <-; exact Hok.
  - destruct (run_cons _ _ _ _ _ _ Hrun)
      as (code & st1 & codes' & Hsend & Hrest & ->).
    apply sendAmount_step in Hsend.
    exact (IH _ _ _ (hashes_send _ _ _ _ _ _ _ _ _ _ Hok Hsend) Hrest).
Qed.

Lemma dump_content chain :
  map (fun l => (line_index l, line_text l)) (map dump_line chain)
  = map (fun c => (fst c, text (snd c))) (map content chain).
Proof. rewrite !map_map; reflexivity. Qed.

(** X21.  What [main] writes.  Mining may take any number of steps, or
    never stop, depending on the clock; but every run of [main] that
    reaches the dump writes the same fifteen lines, apart from the
    hashes: the genesis block, four mints of 50 to account 1 with their
    receipts, and two transfers of 75 to account 2, each with the receipt
    of account 2 and the receipt that returns the change to account 1.
    The four calls [sendAmount(1, 1, 50)] and the last two calls
    [sendAmount(1, 2, 75)] store nothing, and each of them, like each
    return block that a mint leaves out, uses up an index.  The hash
    written for the genesis block is 42; every other hash is at most
    [1 << 20]. *)
Theorem main_output fuel env0 env out :
  main fuel env0 env = Some out ->
  map (fun l => (line_index l, line_text l)) out
  = [ (0, text_invalid);
      (1, text_generate 1 50); (2, text_receipt 1 50);
      (4, text_generate 1 50); (5, text_receipt 1 100);
      (7, text_generate 1 50); (8, text_receipt 1 150);
      (10, text_generate 1 50); (11, text_receipt 1 200);
      (17, text_transfer 1 75 2); (18, text_receipt 2 75);
      (19, text_receipt 1 125);
      (20, text_transfer 1 75 2); (21, text_receipt 2 150);
      (22, text_receipt 1 50) ]
  /\ exists hashes,
      map line_prevHash out = 42 :: hashes
      /\ Forall (fun h => 0 <= h <= 1048576) hashes.
Proof.
  unfold main, bind; intros H.
  destruct (run fuel (genesis env0 kayne 42) (main_script env))
    as [[codes st]|] eqn:Hrun; [|discriminate].
  injection H as <-; split.
  - assert (Href : run 8 main_genesis main_calls
                   = Some ([0; 0; 0; 0; -1; -1; -1; -1; 0; 0; -1; -1],
                           state_after main_calls))
      by (vm_compute; reflexivity).
    assert (Eargs : map call_args (main_script env)
                    = map call_args main_calls) by reflexivity.
    assert (E0 : ledger_content (genesis env0 kayne 42)
                 = ledger_content main_genesis) by reflexivity.
    destruct (run_same_content _ _ _ _ _ _ _ _ _ _ Eargs E0 Hrun Href)
      as [_ Efin].
    apply (f_equal fst) in Efin.
    unfold ledger_content in Efin; cbn [fst] in Efin.
    rewrite dump_content, Efin; vm_compute; reflexivity.
  - assert (Hok : hashes_ok 42 (blockVector (genesis env0 kayne 42)))
      by (cbn; split; [reflexivity|constructor]).
    pose proof (run_hashes _ _ _ _ _ _ Hok Hrun) as Hfin.
    destruct (blockVector st) as [|g rest]; [contradiction|].
    destruct Hfin as [Hg Hrest].
    exists (map prevHash rest); cbn [map dump_line line_prevHash].
    rewrite Hg, map_map; split; [reflexivity|].
    apply Forall_map; cbn [dump_line line_prevHash]; exact Hrest.
Qed.

Lemma main_output_witness :
  exists out,
    main 8 (at_tick 1517) main_clock = Some out
    /\ map (fun l => (line_index l, line_text l)) out
       = [ (0, text_invalid);
           (1, text_generate 1 50); (2, text_receipt 1 50);
           (4, text_generate 1 50); (5, text_receipt 1 100);
           (7, text_generate 1 50); (8, text_receipt 1 150);
           (10, text_generate 1 50); (11, text_receipt 1 200);
           (17, text_transfer 1 75 2); (18, text_receipt 2 75);
           (19, text_receipt 1 125);
           (20, text_transfer 1 75 2); (21, text_receipt 2 150);
           (22, text_receipt 1 50) ].
Proof.
  exists (map dump_line (blockVector (state_after main_calls))).
  assert (H : main 8 (at_tick 1517) main_clock
              = Some (map dump_line (blockVector (state_after main_calls))))
    by (vm_compute; reflexivity).
  split; [exact H|].
  exact (proj1 (main_output 8 (at_tick 1517) main_clock _ H)).
Defined.
